(** * weather-route-map: flexible polyline codec, forecast band selection,
      waypoint timing and waypoint deduplication

    A shallow embedding of the JavaScript sources

    - [FlexPolylineDecoder]  (polyline decoder class),
    - [APIManager]           (manual polyline encoder),
    - [WeatherManager]       (forecast selection, demo weather),
    - [RouteManager]         (waypoint timings, deduplication),

    followed by the properties of the design document that concern them.

    Conventions of the embedding.
    - A JavaScript string is the list of its UTF-16 code units ([jsstring]).
    - A JavaScript number that the program only uses as an integer is a [Z];
      the 32-bit wrap-around of the bit operators is written out
      ([ToInt32], [ToUint32]); sums of integers are exact, as they are in a
      double below 2^53.
    - A fractional number is the rational [Q] that a double holds.
      [round64] rounds a rational to the nearest double (53 significant
      bits, ties to even, gradual underflow; overflow to Infinity is
      outside the embedding), and [fmul], [fdiv], [fadd] and [fsub] are
      the double operations: the exact result, rounded.  They are written
      where the source multiplies, divides, adds or subtracts fractional
      numbers, and [num] where it writes a decimal literal.  Three places
      keep the exact operation: the product with 4 in the demo sample (a
      change of exponent), the quotient under [Math.ceil] in the route
      extraction (below 2^53 metres the rounded quotient has the same
      ceiling), and the score arithmetic of the travel analysis, whose sum
      runs over a list of any length here while an array holds fewer than
      2^32 elements; what is proved of the travel analysis are the range
      of the score, the full score and the advice.
    - [undefined] is [None]; a thrown [Error] is the [Throw] case of
      [result]. *)

From Stdlib Require Import ZArith QArith Qround Qminmax Qabs Qpower Lqa Lia List String Ascii.
From Stdlib Require Qcanon.
From stdpp Require Import base option list gmap.

Import ListNotations.
Local Open Scope Z_scope.

(** ** JavaScript primitives *)

Module JS.

Definition jsstring := list Z.

(** Code units of an ASCII literal. *)
Definition lit (s : string) : jsstring :=
  map (fun a => Z.of_nat (nat_of_ascii a)) (list_ascii_of_string s).

Inductive JsError :=
| InvalidEncoding        (* new Error('Invalid encoding') *)
| InvalidFormatVersion   (* new Error('Invalid format version') *)
| PrematureEnding        (* new Error('Invalid encoding. Premature ending reached') *)
| TypeError              (* property access on undefined *)
| FetchError.            (* rejected fetch, or `Weather API error: <status>` *)

Inductive result (A : Type) :=
| Ok (a : A)
| Throw (e : JsError).
Arguments Ok {A} a.
Arguments Throw {A} e.

Definition bind {A B} (r : result A) (k : A -> result B) : result B :=
  match r with
  | Ok a => k a
  | Throw e => Throw e
  end.

Definition ToInt32 (z : Z) : Z :=
  let m := z mod 2 ^ 32 in if 2 ^ 31 <=? m then m - 2 ^ 32 else m.

Definition ToUint32 (z : Z) : Z := z mod 2 ^ 32.

(** ToInt32 of a possibly undefined operand: undefined converts to NaN,
    and NaN to 0. *)
Definition int32_of (v : option Z) : Z :=
  match v with
  | Some z => ToInt32 z
  | None => 0
  end.

(** [a & b], [a | b], [~a], [a << n], [a >> n], [a >>> n]. *)
Definition and32 (a b : Z) : Z := Z.land (ToInt32 a) (ToInt32 b).
Definition or32 (a b : Z) : Z := Z.lor (ToInt32 a) (ToInt32 b).
Definition not32 (a : Z) : Z := Z.lnot (ToInt32 a).
Definition shl32 (a n : Z) : Z := ToInt32 (Z.shiftl (ToInt32 a) (ToUint32 n mod 32)).
Definition sar32 (a n : Z) : Z := Z.shiftr (ToInt32 a) (ToUint32 n mod 32).
Definition shr32 (a n : Z) : Z := Z.shiftr (ToUint32 a) (ToUint32 n mod 32).

(** [String.fromCharCode(n)]: one code unit, ToUint16 of the argument. *)
Definition fromCharCode (n : Z) : jsstring := [n mod 2 ^ 16].

(** [Math.round]: nearest integer, ties towards +infinity. *)
Definition Math_round (q : Q) : Z := Qfloor (Qplus q (1 # 2)).

(** [Math.floor]. *)
Definition Math_floor (q : Q) : Z := Qfloor q.

(** *** Double-precision arithmetic *)

(** 2^k, for an exponent of either sign. *)
Definition pow2 (k : Z) : Q := Qpower 2 k.

(** floor(log2 q) of a positive number: the exponent of its binade. *)
Definition ilog2 (q : Q) : Z :=
  let k := Z.log2 (Qnum q) - Z.log2 (Z.pos (Qden q)) in
  if Qle_bool (pow2 k) q then k else k - 1.

(** The nearest integer, the even one of two nearest. *)
Definition rne (x : Q) : Z :=
  let f := Qfloor x in
  match Qcompare (x - inject_Z f) (1 # 2) with
  | Lt => f
  | Gt => f + 1
  | Eq => if Z.even f then f else f + 1
  end.

(** The exponent of the last place of a double near [q]: 53 significant
    bits, and never below 2^-1074 (subnormal numbers). *)
Definition ulpExp (q : Q) : Z := Z.max (-1074) (ilog2 q - 52).

Definition round64pos (q : Q) : Q :=
  (inject_Z (rne (q / pow2 (ulpExp q))) * pow2 (ulpExp q))%Q.

(** The double nearest to [q] (round to nearest, ties to even), in lowest
    terms. *)
Definition round64 (q : Q) : Q :=
  let q := Qred q in
  Qred (match Qcompare q 0 with
        | Gt => round64pos q
        | Lt => - round64pos (- q)
        | Eq => 0
        end).

(** [a * b], [a / b] (for [b] not 0), [a + b] and [a - b] on doubles. *)
Definition fmul (a b : Q) : Q := round64 (a * b).
Definition fdiv (a b : Q) : Q := round64 (a / b).
Definition fadd (a b : Q) : Q := round64 (a + b).
Definition fsub (a b : Q) : Q := round64 (a - b).

(** The value of a decimal literal of the source, such as [3.6]. *)
Definition num (q : Q) : Q := round64 q.

(** [x || 0] on an optional number: undefined and 0 both give 0. *)
Definition or0 (o : option Q) : Q :=
  match o with
  | Some q => q
  | None => 0%Q
  end.

(** Truthiness of an optional number (undefined and 0 are falsy). *)
Definition truthy (o : option Q) : bool :=
  match o with
  | Some q => negb (Qeq_bool q 0)
  | None => false
  end.

End JS.

Import JS.

Notation "'try!' x := r 'in' k" := (bind r (fun x => k))
  (at level 10, x name, r at level 100, k at level 200).

(** ** FlexPolylineDecoder *)

Module FlexPolylineDecoder.

Definition DECODING_TABLE : list Z :=
  [ 62; -1; -1; 52; 53; 54; 55; 56; 57; 58; 59; 60; 61; -1; -1; -1; -1; -1; -1; -1;
    0; 1; 2; 3; 4; 5; 6; 7; 8; 9; 10; 11; 12; 13; 14; 15; 16; 17; 18; 19; 20; 21;
    22; 23; 24; 25; -1; -1; -1; -1; 63; -1; 26; 27; 28; 29; 30; 31; 32; 33; 34; 35;
    36; 37; 38; 39; 40; 41; 42; 43; 44; 45; 46; 47; 48; 49; 50; 51 ].

(** [DECODING_TABLE[charCode - 45]]: undefined outside the table. *)
Definition decodeChar (char : Z) : option Z :=
  let idx := char - 45 in
  if idx <? 0 then None else DECODING_TABLE !! Z.to_nat idx.

(** Accumulators of [decodeUnsignedValues]: [result], [shift], [resList]. *)
Record VarintState := mkVarint {
  vs_result : Z;
  vs_shift : Z;
  vs_resList : list Z
}.

(** Body of the [forEach] callback. *)
Definition varintStep (st : VarintState) (char : Z) : VarintState :=
  let value := decodeChar char in
  let result := or32 (vs_result st) (shl32 (Z.land (int32_of value) 31) (vs_shift st)) in
  if Z.land (int32_of value) 32 =? 0
  then mkVarint 0 0 (vs_resList st ++ [result])
  else mkVarint result (vs_shift st + 5) (vs_resList st).

Definition varintRun (encoded : jsstring) : VarintState :=
  fold_left varintStep encoded (mkVarint 0 0 []).

Definition decodeUnsignedValues (encoded : jsstring) : result (list Z) :=
  let st := varintRun encoded in
  if 0 <? vs_shift st then Throw InvalidEncoding else Ok (vs_resList st).

Record Header := mkHeader {
  precision : Z;
  thirdDim : Z;
  thirdDimPrecision : Z
}.

Definition FORMAT_VERSION : Z := 1.

Definition decodeHeader (version encodedHeader : option Z) : result Header :=
  if decide (version = Some FORMAT_VERSION) then
    let headerNumber := int32_of encodedHeader in
    Ok (mkHeader (Z.land headerNumber 15)
                 (Z.land (Z.shiftr headerNumber 4) 7)
                 (Z.land (Z.shiftr headerNumber 7) 15))
  else Throw InvalidFormatVersion.

(** [toSigned(val)]; [val] is undefined when read past the end of the
    array. *)
Definition toSigned (val : option Z) : Z :=
  let res := int32_of val in
  let res := if Z.land res 1 =? 0 then res else Z.lnot res in
  Z.shiftr res 1.

(** A decoded coordinate is the array pushed on [res]: two or three
    numbers. *)
Definition Coordinate := list Q.

(** [a / b] on two integers: the double nearest to the quotient. *)
Definition quot (a b : Z) : Q := fdiv (inject_Z a) (inject_Z b).

(** Loop state of [decodePolyline]: [i], [lastLat], [lastLng], [lastZ],
    [res]. *)
Record LoopState := mkLoop {
  ls_i : nat;
  ls_lastLat : Z;
  ls_lastLng : Z;
  ls_lastZ : Z;
  ls_res : list Coordinate
}.

(** One iteration of the body of [for (; i < decoder.length;)]. *)
Definition loopBody (decoder : list Z) (thirdDim factorDegree factorZ : Z)
    (st : LoopState) : LoopState :=
  let i := ls_i st in
  let deltaLat := toSigned (decoder !! i) in
  let deltaLng := toSigned (decoder !! (i + 1)%nat) in
  let lastLat := ls_lastLat st + deltaLat in
  let lastLng := ls_lastLng st + deltaLng in
  if thirdDim =? 0 then
    mkLoop (i + 2) lastLat lastLng (ls_lastZ st)
           (ls_res st ++ [[quot lastLat factorDegree; quot lastLng factorDegree]])
  else
    let deltaZ := toSigned (decoder !! (i + 2)%nat) in
    let lastZ := ls_lastZ st + deltaZ in
    mkLoop (i + 3) lastLat lastLng lastZ
           (ls_res st ++ [[quot lastLat factorDegree; quot lastLng factorDegree;
                            quot lastZ factorZ]]).

(** The loop, bounded by [fuel] iterations; it stops earlier as soon as
    [i < decoder.length] is false. *)
Fixpoint decodeLoop (fuel : nat) (decoder : list Z) (thirdDim factorDegree factorZ : Z)
    (st : LoopState) : LoopState :=
  match fuel with
  | O => st
  | S fuel' =>
      if (ls_i st <? length decoder)%nat
      then decodeLoop fuel' decoder thirdDim factorDegree factorZ
             (loopBody decoder thirdDim factorDegree factorZ st)
      else st
  end.

(** [decodePolyline] on the decoded integers.  Every iteration advances
    [i] by at least 2, so [length decoder] iterations always reach the exit
    of the loop (lemma [decodeLoop_exits]). *)
Definition decodeIntegers (decoder : list Z) : result (list Coordinate) :=
  try! header := decodeHeader (decoder !! 0%nat) (decoder !! 1%nat) in
  let factorDegree := 10 ^ precision header in
  let factorZ := 10 ^ thirdDimPrecision header in
  let st := decodeLoop (length decoder) decoder (thirdDim header) factorDegree factorZ
              (mkLoop 2 0 0 0 []) in
  if decide (ls_i st = length decoder) then Ok (ls_res st) else Throw PrematureEnding.

Definition decodePolyline (encoded : jsstring) : result (list Coordinate) :=
  try! decoder := decodeUnsignedValues encoded in
  decodeIntegers decoder.

Definition decode (encoded : jsstring) : result (list Coordinate) :=
  decodePolyline encoded.

End FlexPolylineDecoder.

(** ** APIManager: the manual polyline encoder *)

Module APIManager.

(** Loop state of [encodeUnsignedVarintHERE]: [value], [result]. *)
Record VarintEnc := mkEnc {
  ve_value : Z;
  ve_result : jsstring
}.

(** [while (value >= 32) { ... }], bounded by [fuel] iterations.  In
    [(value & 0x1F) | 0x20 + 63] the sum binds tighter than the bitwise or,
    so the right operand of [|] is [0x20 + 63]. *)
Fixpoint varintWhile (fuel : nat) (st : VarintEnc) : VarintEnc :=
  match fuel with
  | O => st
  | S fuel' =>
      if 32 <=? ve_value st
      then varintWhile fuel'
             (mkEnc (shr32 (ve_value st) 5)
                    (ve_result st ++ fromCharCode (or32 (and32 (ve_value st) 31) (32 + 63))))
      else st
  end.

(** After the first [>>>= 5] the value is below 2^27, so the loop body runs
    at most 6 times (lemma [varintWhile_exits]). *)
Definition encodeUnsignedVarintHERE (value : Z) : jsstring :=
  let st := varintWhile 7 (mkEnc value []) in
  ve_result st ++ fromCharCode (ve_value st + 63).

Definition encodeSignedVarintHERE (value : Z) : jsstring :=
  let unsignedValue :=
    if value <? 0 then or32 (shl32 (- value - 1) 1) 1 else shl32 value 1 in
  encodeUnsignedVarintHERE unsignedValue.

(** Accumulators of the [for] loop of [encodeFlexPolyline]. *)
Record EncState := mkEncState {
  es_result : jsstring;
  es_prevLat : Z;
  es_prevLng : Z
}.

(** Loop body; an entry with fewer than two components is skipped
    ([continue]). *)
Definition encodeCoord (st : EncState) (coord : list Q) : EncState :=
  match coord with
  | c0 :: c1 :: _ =>
      let lat := Math_round (fmul c0 (inject_Z 100000)) in
      let lng := Math_round (fmul c1 (inject_Z 100000)) in
      let deltaLat := lat - es_prevLat st in
      let deltaLng := lng - es_prevLng st in
      mkEncState (es_result st ++ encodeSignedVarintHERE deltaLat
                               ++ encodeSignedVarintHERE deltaLng)
                 lat lng
  | _ => st
  end.

Definition encodeFlexPolyline (coordinates : list (list Q)) : jsstring :=
  match coordinates with
  | [] => []
  | _ =>
      let precision := 5 in
      let version := 1 in
      let headerByte := or32 (shl32 version 4) precision in
      let result := fromCharCode (headerByte + 63) in
      es_result (fold_left encodeCoord coordinates (mkEncState result 0 0))
  end.

End APIManager.

(** ** Randomness

    [Math.random()] is modelled by a stream [rnd] of numbers and a counter
    of the draws made so far; a computation that draws is a function of
    both that returns its value and the new counter. *)

Module Random.

Definition Rand (A : Type) : Type := (nat -> Q) -> nat -> A * nat.

Definition ret {A} (a : A) : Rand A := fun _ n => (a, n).

Definition bindR {A B} (m : Rand A) (k : A -> Rand B) : Rand B :=
  fun rnd n => let (a, n') := m rnd n in k a rnd n'.

Definition Math_random : Rand Q := fun rnd n => (rnd n, S n).

Fixpoint mapR {A B} (f : A -> Rand B) (l : list A) : Rand (list B) :=
  match l with
  | [] => ret []
  | a :: l' => bindR (f a) (fun b => bindR (mapR f l') (fun bs => ret (b :: bs)))
  end.

End Random.

Import Random.

Notation "'draw!' x := m 'in' k" := (bindR m (fun x => k))
  (at level 10, x name, m at level 100, k at level 200).

(** ** WeatherManager: forecast selection and demo weather *)

Module WeatherManager.

(** [a > b] on numbers. *)
Definition Qgtb (a b : Q) : bool := negb (Qle_bool a b).

(** An entry of the provider payload: the [current] object and the
    elements of [hourly[]].  [e_description] is [weather[0].description];
    the optional members are [None] when the provider omits them
    ([e_rain_1h] is [rain?.['1h']], and so on). *)
Record Entry := mkEntry {
  e_dt : Z;
  e_temp : Q;
  e_description : string;
  e_humidity : Q;
  e_wind_speed : option Q;
  e_visibility : option Q;
  e_pop : option Q;
  e_rain_1h : option Q;
  e_rain_3h : option Q;
  e_snow_1h : option Q;
  e_snow_3h : option Q;
  e_feels_like : option Q;
  e_wind_gust : option Q;
  e_wind_deg : option Q
}.

(** An element of [minutely[]]. *)
Record Minute := mkMinute {
  m_dt : Z;
  m_precipitation : option Q
}.

(** An element of [daily[]]; [d_temp_day] is [temp.day], [d_rain] the
    daily rain amount (a number in the provider payload),
    [d_feels_like_day] is [feels_like?.day]. *)
Record Day := mkDay {
  d_dt : Z;
  d_temp_day : Q;
  d_description : string;
  d_humidity : Q;
  d_wind_speed : option Q;
  d_pop : option Q;
  d_rain : option Q;
  d_feels_like_day : option Q;
  d_wind_gust : option Q;
  d_wind_deg : option Q
}.

Record ApiResponse := mkApi {
  current : Entry;
  minutely : option (list Minute);
  hourly : option (list Entry);
  daily : option (list Day)
}.

(** The object built by the selection functions.  A member that the
    function does not set is [None]. *)
Record Sample := mkSample {
  temperature : Q;
  description : option string;
  humidity : Q;
  windSpeed : Z;
  visibility : option Q;
  precipitation : Q;
  rainProbability : Q;
  timestamp : Z;
  isCurrentData : bool;
  feelsLike : option Q;
  windGust : option Z;
  windDeg : option Q;
  snow : option Q;
  rain : option Q
}.

(** [Math.round((x.wind_speed || 0) * 3.6)]. *)
Definition kmh (wind_speed : option Q) : Z :=
  Math_round (fmul (or0 wind_speed) (num (36 # 10))).

(** [(x.visibility || 0) / 1000]. *)
Definition km (visibility : option Q) : Q :=
  fdiv (or0 visibility) (inject_Z 1000).

(** [typeof g === 'number' ? Math.round(g * 3.6) : (member not set)]. *)
Definition gustKmh (wind_gust : option Q) : option Z :=
  match wind_gust with
  | Some g => Some (Math_round (fmul g (num (36 # 10))))
  | None => None
  end.

(** [a || b] on optional numbers. *)
Definition orElse (a b : option Q) : option Q :=
  if truthy a then a else b.

(** First member that is a number: [typeof a === 'number' ? a : b]. *)
Definition firstNumber (a b : option Q) : option Q :=
  match a with
  | Some _ => a
  | None => b
  end.

(** Branch 1 of [selectWeatherUpTo48Hours]: the sample built from
    [apiResponse.current]. *)
Definition instantSample (cur : Entry) : Sample :=
  let precip := or0 (orElse (e_rain_1h cur) (e_rain_3h cur)) in
  {| temperature := e_temp cur;
     description := Some (e_description cur);
     humidity := e_humidity cur;
     windSpeed := kmh (e_wind_speed cur);
     visibility := Some (km (e_visibility cur));
     precipitation := precip;
     rainProbability := if Qgtb precip 0 then inject_Z 90 else 0%Q;
     timestamp := e_dt cur;
     isCurrentData := true;
     feelsLike := e_feels_like cur;
     windGust := gustKmh (e_wind_gust cur);
     windDeg := e_wind_deg cur;
     snow := firstNumber (e_snow_1h cur) (e_snow_3h cur);
     rain := firstNumber (e_rain_1h cur) (e_rain_3h cur) |}.

(** [arr.slice(startIdx, endIdx + 1)] for [0 <= startIdx]. *)
Definition slice {A} (arr : list A) (startIdx endIdx1 : Z) : list A :=
  take (Z.to_nat (endIdx1 - startIdx)) (drop (Z.to_nat startIdx) arr).

(** Rain probability of the minute band. *)
Definition minuteRainProbability (mins : list Minute) (minutelyIndex : Z)
    (precip : Q) : Q :=
  let startIdx := Z.max 0 (minutelyIndex - 15) in
  let endIdx := Z.min (Z.of_nat (length mins) - 1) (minutelyIndex + 15) in
  let surroundingMinutes := slice mins startIdx (endIdx + 1) in
  if Qgtb precip 0
  then Qmin (inject_Z 95) (fadd (inject_Z 60) (fmul precip (inject_Z 15)))
  else
    let precipSum :=
      fold_left (fun sum minute => fadd sum (or0 (m_precipitation minute)))
                surroundingMinutes 0%Q in
    let minutesWithRain :=
      Z.of_nat (length (List.filter (fun minute => Qgtb (or0 (m_precipitation minute)) 0)
                                    surroundingMinutes)) in
    if Qgtb precipSum 1
    then Qmin (inject_Z 80) (fadd (inject_Z 25) (fmul precipSum (inject_Z 12)))
    else if 5 <? minutesWithRain then Qmin (inject_Z 60) (inject_Z (15 + minutesWithRain * 3))
    else if 0 <? minutesWithRain then Qmin (inject_Z 40) (inject_Z (minutesWithRain * 4))
    else 0%Q.

(** [apiResponse.minutely[minutelyIndex] || apiResponse.minutely[0]]. *)
Definition targetMinuteOf (mins : list Minute) (minutelyIndex : Z) : option Minute :=
  match mins !! Z.to_nat minutelyIndex with
  | Some m => Some m
  | None => mins !! 0%nat
  end.

(** The [source] of the non-precipitation members in the minute band. *)
Definition slowSource (api : ApiResponse) (minutesAhead : Z) : Entry :=
  if minutesAhead <? 30 then current api
  else match hourly api with
       | Some hs => match hs !! 1%nat with
                    | Some h => h
                    | None => current api
                    end
       | None => current api
       end.

(** Branch 2 of [selectWeatherUpTo48Hours]; reading [targetMinute.dt] of
    an undefined [targetMinute] throws. *)
Definition minuteSample (api : ApiResponse) (mins : list Minute) (diff : Z)
    : result Sample :=
  let minutelyIndex := diff / 60 in
  let minutesAhead := diff / 60 in
  let source := slowSource api minutesAhead in
  match targetMinuteOf mins minutelyIndex with
  | None => Throw TypeError
  | Some targetMinute =>
      let precip := or0 (m_precipitation targetMinute) in
      Ok {| temperature := e_temp source;
            description := Some (e_description source);
            humidity := e_humidity source;
            windSpeed := kmh (e_wind_speed source);
            visibility := Some (km (e_visibility source));
            precipitation := precip;
            rainProbability := minuteRainProbability mins minutelyIndex precip;
            timestamp := m_dt targetMinute;
            isCurrentData := false;
            feelsLike := e_feels_like source;
            windGust := gustKmh (e_wind_gust source);
            windDeg := e_wind_deg source;
            snow := e_snow_1h source;
            rain := e_rain_1h source |}
  end.

(** [formatHourlyData(chosen)]. *)
Definition formatHourlyData (chosen : Entry) : Sample :=
  {| temperature := e_temp chosen;
     description := Some (e_description chosen);
     humidity := e_humidity chosen;
     windSpeed := kmh (e_wind_speed chosen);
     visibility := Some (km (e_visibility chosen));
     precipitation := or0 (e_rain_1h chosen);
     rainProbability := inject_Z (Math_round (fmul (or0 (e_pop chosen)) (inject_Z 100)));
     timestamp := e_dt chosen;
     isCurrentData := false;
     feelsLike := e_feels_like chosen;
     windGust := gustKmh (e_wind_gust chosen);
     windDeg := e_wind_deg chosen;
     snow := e_snow_1h chosen;
     rain := e_rain_1h chosen |}.

(** [_formatCurrent(current, nextHour)]; [nextHour] may be undefined. *)
Definition _formatCurrent (cur : Entry) (nextHour : option Entry) : Sample :=
  let pop := match nextHour with Some h => e_pop h | None => None end in
  {| temperature := e_temp cur;
     description := Some (e_description cur);
     humidity := e_humidity cur;
     windSpeed := kmh (e_wind_speed cur);
     visibility := Some (km (e_visibility cur));
     precipitation := or0 (orElse (e_rain_1h cur) (e_rain_3h cur));
     rainProbability := inject_Z (Math_round (fmul (or0 pop) (inject_Z 100)));
     timestamp := e_dt cur;
     isCurrentData := true;
     feelsLike := e_feels_like cur;
     windGust := gustKmh (e_wind_gust cur);
     windDeg := e_wind_deg cur;
     snow := None;
     rain := None |}.

(** The fallback [this._formatCurrent(apiResponse.current,
    apiResponse.hourly[0])]: indexing an undefined [hourly] throws. *)
Definition currentFallback (api : ApiResponse) : result Sample :=
  match hourly api with
  | Some hs => Ok (_formatCurrent (current api) (hs !! 0%nat))
  | None => Throw TypeError
  end.

(** The search loop of branch 3: [prevHour] is overwritten by every entry
    not after the target, the first entry after the target becomes
    [nextHour] and ends the loop ([break]). *)
Fixpoint scanHours (hs : list Entry) (targetTimestamp : Z) (prevHour : option Entry)
    : option Entry * option Entry :=
  match hs with
  | [] => (prevHour, None)
  | h :: rest =>
      let prevHour := if e_dt h <=? targetTimestamp then Some h else prevHour in
      if targetTimestamp <? e_dt h then (prevHour, Some h)
      else scanHours rest targetTimestamp prevHour
  end.

(** The entry chosen by branch 3, if any. *)
Definition chooseHour (hs : list Entry) (targetTimestamp : Z) : option Entry :=
  match scanHours hs targetTimestamp None with
  | (Some prevHour, Some nextHour) =>
      let minutesIntoNextHour := (targetTimestamp - e_dt prevHour) / 60 in
      let useNext := 30 <? minutesIntoNextHour in
      Some (if useNext then nextHour else prevHour)
  | (Some prevHour, None) => Some prevHour
  | (None, Some nextHour) => Some nextHour
  | (None, None) => None
  end.

Definition selectWeatherUpTo48Hours (api : ApiResponse) (targetTimestamp : Z)
    : result Sample :=
  let now := e_dt (current api) in
  let diff := targetTimestamp - now in
  if diff <? 300 then Ok (instantSample (current api))
  else
    match (if (300 <=? diff) && (diff <=? 3600) then minutely api else None) with
    | Some mins => minuteSample api mins diff
    | None =>
        match (match hourly api with
               | Some (h :: hs) => chooseHour (h :: hs) targetTimestamp
               | _ => None
               end) with
        | Some chosen => Ok (formatHourlyData chosen)
        | None => currentFallback api
        end
    end.

(** The search loop of [selectWeatherAfter48Hours] over [daily[1..]]. *)
Definition closerDay (targetTimestamp : Z) (acc : Z * Day) (d : Day) : Z * Day :=
  let diff := Z.abs (targetTimestamp - d_dt d) in
  if diff <? fst acc then (diff, d) else acc.

Definition selectWeatherAfter48Hours (api : ApiResponse) (targetTimestamp : Z)
    : result Sample :=
  match daily api with
  | Some (d0 :: ds) =>
      let closestDay :=
        snd (fold_left (closerDay targetTimestamp) ds
                       (Z.abs (targetTimestamp - d_dt d0), d0)) in
      Ok {| temperature := d_temp_day closestDay;
            description := Some (d_description closestDay);
            humidity := d_humidity closestDay;
            windSpeed := kmh (d_wind_speed closestDay);
            visibility := None;
            precipitation := or0 (d_rain closestDay);
            rainProbability :=
              inject_Z (Math_round (fmul (or0 (d_pop closestDay)) (inject_Z 100)));
            timestamp := d_dt closestDay;
            isCurrentData := false;
            feelsLike := d_feels_like_day closestDay;
            windGust := gustKmh (d_wind_gust closestDay);
            windDeg := d_wind_deg closestDay;
            snow := None;
            rain := None |}
  | _ => currentFallback api
  end.

(** [arr[k]] for an integer [k]. *)
Definition index {A} (arr : list A) (k : Z) : option A :=
  if k <? 0 then None else arr !! Z.to_nat k.

(** [generateDemoWeatherPoint()]; [clock] is [Date.now()] in
    milliseconds.  The draws are made in the order of the source.  The
    product with 4 in the index of the description is a change of
    exponent, which no rounding follows. *)
Definition generateDemoWeatherPoint (clock : Z) : Rand Sample :=
  draw! r1 := Math_random in
  draw! r2 := Math_random in
  draw! r3 := Math_random in
  draw! r4 := Math_random in
  draw! r5 := Math_random in
  draw! r6 := Math_random in
  draw! precip := (if Qgtb (num (3 # 10)) r6
                   then draw! r := Math_random in ret (fmul r (inject_Z 5))
                   else ret 0%Q) in
  draw! r8 := Math_random in
  draw! r9 := Math_random in
  draw! r10 := Math_random in
  draw! gust := (if Qgtb r10 (num (2 # 10))
                 then draw! r := Math_random in
                      ret (Some (Math_round (fadd (inject_Z 8) (fmul r (inject_Z 17)))))
                 else ret None) in
  draw! r12 := Math_random in
  draw! deg := (if Qgtb r12 (num (1 # 10))
                then draw! r := Math_random in
                     ret (Some (inject_Z (Math_round (fmul r (inject_Z 360)))))
                else ret None) in
  ret {| temperature := fadd (inject_Z 10) (fmul r1 (inject_Z 15));
         description :=
           index ["Clear sky"; "Partly cloudy"; "Cloudy"; "Light rain"]%string
                 (Math_floor (r2 * inject_Z 4)%Q);
         humidity := fadd (inject_Z 50) (fmul r3 (inject_Z 40));
         windSpeed := Math_round (fadd (inject_Z 5) (fmul r4 (inject_Z 20)));
         visibility := Some (fadd (inject_Z 8) (fmul r5 (inject_Z 7)));
         precipitation := precip;
         rainProbability := inject_Z (Math_round (fmul r8 (inject_Z 100)));
         timestamp := clock / 1000;
         isCurrentData := true;
         feelsLike := Some (inject_Z (Math_round (fadd (inject_Z 10) (fmul r9 (inject_Z 15)))));
         windGust := gust;
         windDeg := deg;
         snow := None;
         rain := None |}.

(** What [await fetch(url)] and [await response.json()] deliver: the fetch
    is rejected, or there is a response with its [ok] flag and a body that
    is a forecast payload or not ([None]: [json()] rejects, or the object
    has no [current]). *)
Inductive FetchOutcome :=
| FetchRejected
| Response (ok : bool) (json : option ApiResponse).

(** The body of the [try] block of [getWeatherAtPoint]. *)
Definition fetchAndSelect (outcome : FetchOutcome) (timestamp : Z) : result Sample :=
  match outcome with
  | FetchRejected => Throw FetchError
  | Response ok json =>
      if negb ok then Throw FetchError
      else match json with
           | None => Throw TypeError
           | Some api =>
               let now := e_dt (current api) in
               if timestamp - now <=? 3600 * 48
               then selectWeatherUpTo48Hours api timestamp
               else if 3600 * 48 <? timestamp - now
               then selectWeatherAfter48Hours api timestamp
               else
                 try! weatherData := currentFallback api in
                 Ok {| temperature := temperature weatherData;
                       description := description weatherData;
                       humidity := humidity weatherData;
                       windSpeed := windSpeed weatherData;
                       visibility := visibility weatherData;
                       precipitation := precipitation weatherData;
                       rainProbability := rainProbability weatherData;
                       timestamp := now;
                       isCurrentData := isCurrentData weatherData;
                       feelsLike := feelsLike weatherData;
                       windGust := windGust weatherData;
                       windDeg := windDeg weatherData;
                       snow := snow weatherData;
                       rain := rain weatherData |}
           end
  end.

(** [getWeatherAtPoint(lat, lng, targetTime)] for numeric [lat], [lng]:
    [try { ... } catch (error) { return this.generateDemoWeatherPoint(); }].
    The cache is only written (its lookup is commented out in the source)
    and does not reach the returned sample. *)
Definition getWeatherAtPoint (outcome : FetchOutcome) (targetTime : option Z)
    (clock : Z) : Rand Sample :=
  let timestamp := match targetTime with Some t => t | None => clock / 1000 end in
  match fetchAndSelect outcome timestamp with
  | Ok weatherData => ret weatherData
  | Throw _ => generateDemoWeatherPoint clock
  end.

(** A waypoint handed to the weather lookups. *)
Record TimedPoint := mkTimedPoint {
  tp_lat : Q;
  tp_lng : Q;
  tp_estimatedArrivalTime : option Z
}.

(** [getWeatherAlongRouteWithTiming]: [Promise.all] over one lookup per
    waypoint; [net] is the answer of the network to the request for a
    position.  The lookups draw from the stream in list order. *)
Definition getWeatherAlongRouteWithTiming (net : Q -> Q -> FetchOutcome) (clock : Z)
    (waypointsWithTiming : list TimedPoint) : Rand (list Sample) :=
  mapR (fun waypoint =>
          getWeatherAtPoint (net (tp_lat waypoint) (tp_lng waypoint))
                            (tp_estimatedArrivalTime waypoint) clock)
       waypointsWithTiming.

(** The route handed to [calculateWaypointTimings] of this class. *)
Record Route := mkRoute {
  durationMin : Q;
  routeWaypoints : list (Q * Q)
}.

(** The object pushed per waypoint; [ip_estimatedArrivalTime] is [None]
    when it is NaN. *)
Record IndexedPoint := mkIndexedPoint {
  ip_lat : Q;
  ip_lng : Q;
  ip_estimatedArrivalTime : option Q;
  ip_index : nat
}.

(** [index / (route.waypoints.length - 1)]: for a single waypoint this is
    0 / 0, which is NaN ([None]). *)
Definition indexProgress (idx len : nat) : option Q :=
  if (len =? 1)%nat then None
  else Some (fdiv (inject_Z (Z.of_nat idx)) (inject_Z (Z.of_nat len - 1))).

(** [calculateWaypointTimings(route, departureTime)] of this class (only
    called by [getTimedWeatherForRoute], which nothing calls): progress by
    index, arrival time not rounded.  [departureTime] is
    [departure.getTime()]. *)
Definition calculateWaypointTimings (route : Route) (departureTime : Z)
    : list IndexedPoint :=
  let departureTimestamp := departureTime / 1000 in
  let totalDurationSeconds := fmul (durationMin route) (inject_Z 60) in
  imap (fun idx waypoint =>
          let progress := indexProgress idx (length (routeWaypoints route)) in
          let arrivalSeconds :=
            match progress with
            | Some p => Some (fadd (inject_Z departureTimestamp) (fmul totalDurationSeconds p))
            | None => None
            end in
          mkIndexedPoint (fst waypoint) (snd waypoint) arrivalSeconds idx)
       (routeWaypoints route).

(** *** Travel analysis *)

(** An element of the array given to [analyzeWeatherForTravel]: a weather
    sample and the members its callers add ([name], [isMixedMode],
    [mode]). *)
Record TravelPoint := mkTravelPoint {
  tv_sample : Sample;
  tv_name : option string;
  tv_isMixedMode : bool;
  tv_mode : option string
}.

(** [data.name || `Waypoint ${index + 1}`]. *)
Inductive Place :=
| Named (name : string)
| Numbered (number : nat).

Definition placeOf (data : TravelPoint) (idx : nat) : Place :=
  match tv_name data with
  | Some (String c name) => Named (String c name)
  | _ => Numbered (idx + 1)
  end.

(** An entry of [analysis.risks] or [analysis.alerts]: its [type],
    [location] and [severity] (alerts have none).  The [time] and
    [message] members are display texts and are left out. *)
Record Notice := mkNotice {
  n_type : string;
  n_location : Place;
  n_severity : option string
}.

(** An entry of [analysis.mixedModeConsiderations]. *)
Record MixedNote := mkMixedNote {
  mn_location : Place;
  mn_mode : option string
}.

(** What the callback of [weatherData.forEach] works on: the local
    [pointScore] and the lists of [analysis] it pushes to. *)
Record Scoring := mkScoring {
  pointScore : Q;
  sc_risks : list Notice;
  sc_alerts : list Notice;
  sc_mixed : list MixedNote
}.

Definition penalize (st : Scoring) (penalty : Q) : Scoring :=
  mkScoring (pointScore st - penalty) (sc_risks st) (sc_alerts st) (sc_mixed st).

Definition pushRisk (st : Scoring) (r : Notice) : Scoring :=
  mkScoring (pointScore st) (sc_risks st ++ [r]) (sc_alerts st) (sc_mixed st).

Definition pushAlert (st : Scoring) (a : Notice) : Scoring :=
  mkScoring (pointScore st) (sc_risks st) (sc_alerts st ++ [a]) (sc_mixed st).

Section ScoringStages.

Variables (data : TravelPoint) (idx : nat).

Let here : Place := placeOf data idx.
Let risk (type severity : string) : Notice := mkNotice type here (Some severity).

(** Temperature analysis. *)
Definition temperatureStage (st : Scoring) : Scoring :=
  let t := temperature (tv_sample data) in
  if Qgtb (inject_Z (-5)) t then pushRisk (penalize st (inject_Z 30)) (risk "extreme_cold" "high")
  else if Qgtb 0 t then pushRisk (penalize st (inject_Z 20)) (risk "cold" "medium")
  else if Qgtb t (inject_Z 35)
       then pushRisk (penalize st (inject_Z 25)) (risk "extreme_heat" "high")
  else st.

(** Precipitation analysis. *)
Definition precipitationStage (st : Scoring) : Scoring :=
  let precipitationPenalty := if tv_isMixedMode data then (13 # 10)%Q else 1%Q in
  let p := precipitation (tv_sample data) in
  if Qgtb p (inject_Z 20)
  then pushRisk (penalize st (inject_Z 40 * precipitationPenalty)%Q) (risk "heavy_rain" "high")
  else if Qgtb p (inject_Z 10)
  then pushRisk (penalize st (inject_Z 25 * precipitationPenalty)%Q)
                (risk "moderate_rain" "medium")
  else if Qgtb p (inject_Z 2) then penalize st (inject_Z 10 * precipitationPenalty)%Q
  else st.

(** Rain probability analysis. *)
Definition rainProbabilityStage (st : Scoring) : Scoring :=
  let rainProbPenalty := if tv_isMixedMode data then (12 # 10)%Q else 1%Q in
  let rp := rainProbability (tv_sample data) in
  if Qgtb rp (inject_Z 80)
  then pushRisk (penalize st (inject_Z 25 * rainProbPenalty)%Q)
                (risk "very_high_rain_probability" "high")
  else if Qgtb rp (inject_Z 60)
  then pushRisk (penalize st (inject_Z 15 * rainProbPenalty)%Q)
                (risk "high_rain_probability" "medium")
  else if Qgtb rp (inject_Z 40)
  then pushAlert (penalize st (inject_Z 8 * rainProbPenalty)%Q)
                 (mkNotice "moderate_rain_probability" here None)
  else if Qgtb rp (inject_Z 20) then penalize st (inject_Z 3 * rainProbPenalty)%Q
  else st.

(** Wind analysis. *)
Definition windStage (st : Scoring) : Scoring :=
  let windPenalty :=
    if bool_decide (tv_mode data = Some "bicycle"%string) || tv_isMixedMode data
    then (12 # 10)%Q else 1%Q in
  let w := windSpeed (tv_sample data) in
  if 25 <? w
  then pushRisk (penalize st (inject_Z 30 * windPenalty)%Q) (risk "strong_wind" "high")
  else if 15 <? w
  then pushRisk (penalize st (inject_Z 15 * windPenalty)%Q) (risk "moderate_wind" "medium")
  else st.

(** Visibility analysis; a missing visibility compares false. *)
Definition visibilityStage (st : Scoring) : Scoring :=
  match visibility (tv_sample data) with
  | Some v =>
      if Qgtb 1 v then pushRisk (penalize st (inject_Z 35)) (risk "poor_visibility" "high")
      else if Qgtb (inject_Z 5) v
      then pushRisk (penalize st (inject_Z 20)) (risk "reduced_visibility" "medium")
      else st
  | None => st
  end.

(** Mixed-mode specific considerations. *)
Definition mixedModeStage (st : Scoring) : Scoring :=
  if tv_isMixedMode data
  then mkScoring (pointScore st) (sc_risks st) (sc_alerts st)
                 (sc_mixed st ++ [mkMixedNote here (tv_mode data)])
  else st.

(** High humidity penalty. *)
Definition humidityStage (st : Scoring) : Scoring :=
  let h := humidity (tv_sample data) in
  if Qgtb h (inject_Z 85) && Qgtb (temperature (tv_sample data)) (inject_Z 25)
  then pushAlert (penalize st (inject_Z 10)) (mkNotice "high_humidity" here None)
  else if Qgtb h (inject_Z 90) then penalize st (inject_Z 5)
  else st.

(** "Feels like" temperature analysis. *)
Definition feelsLikeStage (st : Scoring) : Scoring :=
  match feelsLike (tv_sample data) with
  | Some fl =>
      let feelsDiff := Qabs (fl - temperature (tv_sample data)) in
      if Qgtb feelsDiff (inject_Z 5) then
        if Qgtb (inject_Z (-5)) fl || Qgtb fl (inject_Z 35) then penalize st (inject_Z 15)
        else if Qgtb 0 fl || Qgtb fl (inject_Z 30) then penalize st (inject_Z 8)
        else st
      else st
  | None => st
  end.

(** The stages of the callback, in the order of the source. *)
Definition scorePoint (st : Scoring) : Scoring :=
  feelsLikeStage
    (humidityStage
       (mixedModeStage
          (visibilityStage
             (windStage
                (rainProbabilityStage
                   (precipitationStage (temperatureStage st))))))).

End ScoringStages.

(** Accumulators of [analyzeWeatherForTravel]: [totalScore], [pointCount]
    (which is also the index of the next element) and the lists of
    [analysis]. *)
Record AnalysisState := mkAnalysisState {
  totalScore : Q;
  pointCount : nat;
  as_risks : list Notice;
  as_alerts : list Notice;
  as_mixed : list MixedNote
}.

(** The callback of [weatherData.forEach((data, index) => ...)]. *)
Definition analyzePoint (st : AnalysisState) (data : TravelPoint) : AnalysisState :=
  let sc := scorePoint data (pointCount st)
              (mkScoring (inject_Z 100) (as_risks st) (as_alerts st) (as_mixed st)) in
  mkAnalysisState (totalScore st + Qmax 0 (pointScore sc))%Q (S (pointCount st))
                  (sc_risks sc) (sc_alerts sc) (sc_mixed sc).

(** The recommendations chosen from the overall score; the score is
    [None] when it is NaN, and then every comparison is false. *)
Definition recommendationsFor (overallScore : option Z) (hasMixedMode : bool)
    : list string :=
  let atLeast (n : Z) :=
    match overallScore with Some s => n <=? s | None => false end in
  let mixed (text : string) : list string := if hasMixedMode then [text] else [] in
  (if atLeast 85 then
     ["Excellent conditions for travel"%string]
     ++ mixed "Good conditions for both cycling and walking segments"%string
   else if atLeast 70 then
     ["Good conditions for travel"%string; "Check weather updates before departure"%string]
     ++ mixed "Generally good for mixed-mode segments"%string
   else if atLeast 55 then
     ["Fair conditions - travel with caution"%string; "Consider postponing non-essential travel"%string]
     ++ mixed "Mixed-mode route may be more challenging in these conditions"%string
   else if atLeast 40 then
     ["Poor conditions - avoid travel if possible"%string;
      "If travel is necessary, take extra precautions"%string]
     ++ mixed "Mixed-mode travel not recommended in these conditions"%string
   else
     ["Very poor conditions - strongly avoid travel"%string; "Wait for weather to improve"%string]
     ++ mixed "Mixed-mode travel dangerous in these conditions"%string)%list.

Record Analysis := mkAnalysis {
  overallScore : option Z;
  risks : list Notice;
  recommendations : list string;
  alerts : list Notice;
  mixedModeConsiderations : list MixedNote
}.

(** [analyzeWeatherForTravel(weatherData)]; [totalScore / pointCount] is
    NaN for an empty array. *)
Definition analyzeWeatherForTravel (weatherData : list TravelPoint) : Analysis :=
  let st := fold_left analyzePoint weatherData (mkAnalysisState 0 0 [] [] []) in
  let score :=
    match pointCount st with
    | O => None
    | S _ => Some (Math_round (totalScore st / inject_Z (Z.of_nat (pointCount st)))%Q)
    end in
  let hasMixedMode := existsb tv_isMixedMode weatherData in
  mkAnalysis score (as_risks st) (recommendationsFor score hasMixedMode)
             (as_alerts st) (as_mixed st).

End WeatherManager.

(** ** RouteManager: waypoint timings and deduplication *)

Module RouteManager.

(** A waypoint as built by [extractWaypointsFromRoute]; [distance] may be
    missing on waypoints that come from other builders. *)
Record Waypoint := mkWaypoint {
  lat : Q;
  lng : Q;
  index : Z;
  distance : option Q;
  type : string
}.

(** The object returned per waypoint by [calculateWaypointTimings]: the
    spread [...waypoint] and the added members (the formatted clock time,
    a locale-dependent string, is left out). *)
Record TimedWaypoint := mkTimed {
  base : Waypoint;
  estimatedArrivalTime : Z;
  progress : Q
}.

(** [waypoints[waypoints.length - 1].distance > 0]; a missing distance
    compares false. *)
Definition lastDistancePositive (waypoints : list Waypoint) : option Q :=
  match last waypoints with
  | Some w => match distance w with
              | Some d => if WeatherManager.Qgtb d 0 then Some d else None
              | None => None
              end
  | None => None
  end.

(** The progress of the waypoint at position [idx]. *)
Definition progressOf (waypoints : list Waypoint) (idx : nat) (waypoint : Waypoint) : Q :=
  match distance waypoint, lastDistancePositive waypoints with
  | Some d, Some total => fdiv d total
  | _, _ =>
      fdiv (inject_Z (Z.of_nat idx)) (inject_Z (Z.max 1 (Z.of_nat (length waypoints) - 1)))
  end.

(** [calculateWaypointTimings(waypoints, totalDuration, departureTime)];
    [totalDuration] is [None] when it is not a number,
    [departureTime] is [departureTime.getTime()], in milliseconds. *)
Definition calculateWaypointTimings (waypoints : list Waypoint)
    (totalDuration : option Q) (departureTime : Z) : list TimedWaypoint :=
  let departureTimestamp := departureTime / 1000 in
  let totalDurationSeconds := match totalDuration with Some t => t | None => 0%Q end in
  imap (fun idx waypoint =>
          let progress := progressOf waypoints idx waypoint in
          let arrivalTimestamp :=
            departureTimestamp + Math_round (fmul totalDurationSeconds progress) in
          mkTimed waypoint arrivalTimestamp progress)
       waypoints.

(** *** Deduplication *)

(** The characters between the brackets of the literal
    [/^[...]\s*/], as code units. *)
Definition GLYPHS : list Z :=
  [ 0xF8FF; 0xFC; 0xF6; 0xA9; 0xF8FF; 0xFC; 0xE8; 0xC5; 0xF8FF; 0xFC; 0xEC; 0xE7;
    0xD4; 0xF8; 0x3A9 ].

(** The class [\s], which is also what [trim()] removes. *)
Definition isSpace (c : Z) : bool :=
  bool_decide (c ∈ [ 9; 10; 11; 12; 13; 32; 0xA0; 0x1680; 0x2028; 0x2029; 0x202F;
                     0x205F; 0x3000; 0xFEFF ])
  || ((0x2000 <=? c) && (c <=? 0x200A)).

Fixpoint dropSpaces (s : jsstring) : jsstring :=
  match s with
  | c :: s' => if isSpace c then dropSpaces s' else s
  | [] => []
  end.

(** [s.replace(/^[...]\s*/, '')]: one glyph at the start of the string and
    the white space after it. *)
Definition stripGlyph (s : jsstring) : jsstring :=
  match s with
  | c :: s' => if bool_decide (c ∈ GLYPHS) then dropSpaces s' else s
  | [] => []
  end.

Definition trim (s : jsstring) : jsstring :=
  rev (dropSpaces (rev (dropSpaces s))).

Definition clean (s : jsstring) : jsstring := trim (stripGlyph s).

(** [a || b] on strings: the empty string and undefined are falsy. *)
Definition orString (a : option jsstring) (b : jsstring) : jsstring :=
  match a with
  | Some (c :: a') => c :: a'
  | _ => b
  end.

(** An element of [weatherData.waypoints]: the members read by
    [deduplicateWaypoints]; the weather members spread into the object are
    carried along untouched. *)
Record RoutePoint := mkRoutePoint {
  waypoint : option Waypoint;
  locationName : option jsstring;
  location : option jsstring;
  distanceFromStart : Q
}.

Record Summary := mkSummary {
  totalWaypoints : nat;
  deduplicationApplied : bool;
  originalWaypointCount : option nat;
  removedDuplicates : option Z
}.

Record WeatherData := mkWeatherData {
  waypoints : list RoutePoint;
  summary : Summary
}.

Section Dedup.

(** Conversion of a number to a string in a template literal. *)
Variable numberToString : Q -> jsstring.

(** [`${waypoint.waypoint?.lat}_${waypoint.waypoint?.lng}`]. *)
Definition coordinateKey (w : RoutePoint) : jsstring :=
  match waypoint w with
  | Some p => numberToString (lat p) ++ lit "_" ++ numberToString (lng p)
  | None => lit "undefined_undefined"
  end.

(** [waypoint.waypoint?.type === 'origin' || ... === 'destination']. *)
Definition isEndpoint (w : RoutePoint) : bool :=
  match waypoint w with
  | Some p => bool_decide (type p = "origin"%string)
              || bool_decide (type p = "destination"%string)
  | None => false
  end.

Definition cleanLocationKey (w : RoutePoint) : jsstring :=
  clean (orString (locationName w) (orString (location w) (coordinateKey w))).

(** The key computed inside the [find] callback. *)
Definition prevCleanKey (wp : RoutePoint) : jsstring :=
  clean (orString (locationName wp) (orString (location wp) [])).

(** State of the [forEach]: [uniqueWaypoints] and [seenLocations]. *)
Record DedupState := mkDedup {
  uniqueWaypoints : list RoutePoint;
  seenLocations : gset (list Z)
}.

(** Body of the [forEach] callback. *)
Definition dedupStep (st : DedupState) (w : RoutePoint) : DedupState :=
  if isEndpoint w then mkDedup (uniqueWaypoints st ++ [w]) (seenLocations st)
  else
    let key := cleanLocationKey w in
    if bool_decide (key ∈ seenLocations st) then
      match List.find (fun wp => bool_decide (prevCleanKey wp = key)) (uniqueWaypoints st) with
      | Some previousWaypoint =>
          let distanceDiff :=
            Qabs (fsub (distanceFromStart w) (distanceFromStart previousWaypoint)) in
          if WeatherManager.Qgtb distanceDiff (inject_Z 2000)
          then mkDedup (uniqueWaypoints st ++ [w]) (seenLocations st)
          else st
      | None => st
      end
    else mkDedup (uniqueWaypoints st ++ [w]) ({[ key ]} ∪ seenLocations st).

Definition dedupRun (ws : list RoutePoint) : DedupState :=
  fold_left dedupStep ws (mkDedup [] ∅).

Definition deduplicateWaypoints (weatherData : WeatherData) : WeatherData :=
  match waypoints weatherData with
  | [] => weatherData
  | ws =>
      let unique := uniqueWaypoints (dedupRun ws) in
      mkWeatherData unique
        (mkSummary (length unique) true (Some (length ws))
                   (Some (Z.of_nat (length ws) - Z.of_nat (length unique))))
  end.

End Dedup.

(** *** Score display helpers *)

(** [score >= n] for a score that may be NaN ([None]). *)
Definition scoreAtLeast (score : option Z) (n : Z) : bool :=
  match score with
  | Some s => n <=? s
  | None => false
  end.

Definition getScoreColor (score : option Z) : string :=
  if scoreAtLeast score 85 then "#4ade80"
  else if scoreAtLeast score 70 then "#facc15"
  else if scoreAtLeast score 55 then "#f97316"
  else if scoreAtLeast score 40 then "#ef4444"
  else "#dc2626".

Definition getScoreDescription (score : option Z) : string :=
  if scoreAtLeast score 85 then "Excellent conditions for travel"
  else if scoreAtLeast score 70 then "Good conditions for travel"
  else if scoreAtLeast score 55 then "Fair conditions - travel with caution"
  else if scoreAtLeast score 40 then "Poor conditions - avoid travel if possible"
  else "Very poor conditions - strongly avoid travel".

(** *** Overall score of segment weather *)

(** The members of a weather object read by
    [calculateOverallWeatherScore]; each may be undefined. *)
Record ScoreInput := mkScoreInput {
  si_temperature : option Q;
  si_windSpeed : option Q;
  si_rainProbability : option Q
}.

(** The score of one object with a defined temperature [temp]. *)
Definition weatherScore (temp : Q) (weather : ScoreInput) : Z :=
  let score := 50 in
  let score :=
    if Qle_bool (inject_Z 15) temp && Qle_bool temp (inject_Z 25) then score + 20
    else if Qle_bool (inject_Z 10) temp && Qle_bool temp (inject_Z 15) then score + 10
    else if WeatherManager.Qgtb 0 temp || WeatherManager.Qgtb temp (inject_Z 10)
    then score - 20
    else score in
  let score :=
    match si_windSpeed weather with
    | Some w => if WeatherManager.Qgtb (inject_Z 5) w then score + 10
                else if WeatherManager.Qgtb w (inject_Z 15) then score - 10
                else score
    | None => score
    end in
  let score :=
    match si_rainProbability weather with
    | Some r => if WeatherManager.Qgtb (inject_Z 20) r then score + 15
                else if WeatherManager.Qgtb r (inject_Z 60) then score - 15
                else score
    | None => score
    end in
  Z.max 0 (Z.min 100 score).

(** The callback of the [forEach]: [totalScore] and [validScores]. *)
Definition addWeatherScore (acc : Z * Z) (weather : ScoreInput) : Z * Z :=
  match si_temperature weather with
  | Some temp => (fst acc + weatherScore temp weather, snd acc + 1)
  | None => acc
  end.

Definition calculateOverallWeatherScore (weatherData : list ScoreInput) : Z :=
  match weatherData with
  | [] => 0
  | _ =>
      let acc := fold_left addWeatherScore weatherData (0, 0) in
      if 0 <? snd acc then Math_round (fdiv (inject_Z (fst acc)) (inject_Z (snd acc))) else 0
  end.

(** *** Decoding and validating a route polyline *)

Inductive CoordinateError :=
| InvalidCoordinatesArray      (* new Error('Invalid coordinates array') *)
| NoValidCoordinates.          (* new Error('No valid coordinates found after validation') *)

(** The loop body of [validateAndFixCoordinates] on an array coordinate:
    [parseFloat] of a number is that number and of a missing component is
    NaN; a coordinate with NaN or outside the ranges is skipped. *)
Definition keepCoordinate (validCoordinates : list FlexPolylineDecoder.Coordinate)
    (coord : FlexPolylineDecoder.Coordinate) : list FlexPolylineDecoder.Coordinate :=
  match coord with
  | lat :: lng :: _ =>
      if WeatherManager.Qgtb (inject_Z (-90)) lat || WeatherManager.Qgtb lat (inject_Z 90)
         || WeatherManager.Qgtb (inject_Z (-180)) lng || WeatherManager.Qgtb lng (inject_Z 180)
      then validCoordinates
      else validCoordinates ++ [[lat; lng]]
  | _ => validCoordinates
  end.

Definition validateAndFixCoordinates (coordinates : list FlexPolylineDecoder.Coordinate)
    : CoordinateError + list FlexPolylineDecoder.Coordinate :=
  match coordinates with
  | [] => inl InvalidCoordinatesArray
  | _ =>
      match fold_left keepCoordinate coordinates [] with
      | [] => inl NoValidCoordinates
      | validCoordinates => inr validCoordinates
      end
  end.

(** [decodePolyline(polyline)] for a string argument, with the polyline
    decoder class loaded ([window.FlexPolylineDecoder]): [null] ([None])
    for a blank string and whenever anything is thrown inside the [try]. *)
Definition decodePolyline (polyline : jsstring)
    : option (list FlexPolylineDecoder.Coordinate) :=
  match trim polyline with
  | [] => None
  | _ =>
      match FlexPolylineDecoder.decode polyline with
      | Ok (c :: result) =>
          match validateAndFixCoordinates (c :: result) with
          | inr validCoordinates => Some validCoordinates
          | inl _ => None
          end
      | _ => None
      end
  end.

(** *** Waypoints of a single-mode route *)

Section Extraction.

(** [calculateDistance(coord1, coord2)]: the great-circle distance in
    metres, computed with trigonometric functions on floating-point
    numbers; it is a parameter here. *)
Variable calculateDistance : Q * Q -> Q * Q -> Q.

(** Body of the loop of [calculateDistanceFromStart]. *)
Definition addLeg (coordinates : list (Q * Q)) (totalDistance : Q) (i : nat) : Q :=
  match coordinates !! i, coordinates !! S i with
  | Some coord1, Some coord2 => fadd totalDistance (calculateDistance coord1 coord2)
  | _, _ => totalDistance
  end.

(** [for (let i = 0; i < targetIndex && i < coordinates.length - 1; i++)]. *)
Definition calculateDistanceFromStart (coordinates : list (Q * Q)) (targetIndex : Z) : Q :=
  fold_left (addLeg coordinates)
            (seq 0 (Z.to_nat (Z.min targetIndex (Z.of_nat (length coordinates) - 1))))
            0%Q.

(** The intermediate waypoint pushed for loop counter [i]. *)
Definition intermediateWaypoint (coordinates : list (Q * Q)) (step : Z) (i : Z)
    : option Waypoint :=
  let idx := Z.min (i * step) (Z.of_nat (length coordinates) - 1) in
  match coordinates !! Z.to_nat idx with
  | Some c =>
      Some (mkWaypoint (fst c) (snd c) idx
                       (Some (calculateDistanceFromStart coordinates idx)) "intermediate")
  | None => None
  end.

(** [extractWaypointsFromRouteSingleMode(coordinates, totalDistance)] (the
    second definition in the class, which is the one in effect).  Reading
    a coordinate outside the array would throw; the loop never does
    (lemma [intermediateWaypoint_defined]), and [omap] drops nothing. *)
Definition extractWaypointsFromRouteSingleMode (coordinates : list (Q * Q))
    (totalDistance : Q) : list Waypoint :=
  match coordinates, last coordinates with
  | first :: _, Some final =>
      let numWaypoints := Z.max 3 (Qceiling (totalDistance / inject_Z 1000)) in
      let step := Z.max 1 (Z.of_nat (length coordinates) / (numWaypoints - 1)) in
      [mkWaypoint (fst first) (snd first) 0 (Some 0%Q) "origin"]
      ++ omap (fun i => intermediateWaypoint coordinates step (Z.of_nat i))
              (seq 1 (Z.to_nat (numWaypoints - 2)))
      ++ [mkWaypoint (fst final) (snd final) (Z.of_nat (length coordinates) - 1)
                     (Some totalDistance) "destination"]
  | _, _ => []
  end.

End Extraction.

End RouteManager.

(** ** Vocabulary of the properties *)

Import FlexPolylineDecoder.

(** The continuation bit (0x20) of the value that a symbol decodes to. *)
Definition continuationBit (char : Z) : bool :=
  negb (Z.land (int32_of (decodeChar char)) 32 =? 0).

(** The third-dimension field of the header word of an integer stream. *)
Definition streamThirdDim (decoder : list Z) : Z :=
  Z.land (Z.shiftr (int32_of (decoder !! 1%nat)) 4) 7.

(** The precision field of the header word. *)
Definition streamPrecision (decoder : list Z) : Z :=
  Z.land (int32_of (decoder !! 1%nat)) 15.

(** Integers per coordinate: 2 without a third dimension, 3 with one. *)
Definition groupSize (decoder : list Z) : nat :=
  if streamThirdDim decoder =? 0 then 2%nat else 3%nat.

(** Valid geographic bounds of a coordinate. *)
Definition inBounds (c : Coordinate) : Prop :=
  match c with
  | lat :: lng :: _ =>
      (inject_Z (-90) <= lat <= inject_Z 90 /\ inject_Z (-180) <= lng <= inject_Z 180)%Q
  | _ => False
  end.

(** Running sums of a list of (lat, lng) deltas. *)
Fixpoint runningSums (lastLat lastLng : Z) (deltas : list (Z * Z)) : list (Z * Z) :=
  match deltas with
  | [] => []
  | (dLat, dLng) :: rest =>
      (lastLat + dLat, lastLng + dLng) :: runningSums (lastLat + dLat) (lastLng + dLng) rest
  end.

(** The flat integer stream of a list of pairs. *)
Definition flattenPairs (pairs : list (Z * Z)) : list Z :=
  flat_map (fun p => [fst p; snd p]) pairs.

(** Running sums of a list of (lat, lng, z) deltas. *)
Fixpoint runningSums3 (lastLat lastLng lastZ : Z) (deltas : list (Z * Z * Z))
    : list (Z * Z * Z) :=
  match deltas with
  | [] => []
  | (dLat, dLng, dZ) :: rest =>
      (lastLat + dLat, lastLng + dLng, lastZ + dZ)
        :: runningSums3 (lastLat + dLat) (lastLng + dLng) (lastZ + dZ) rest
  end.

Definition flattenTriples (triples : list (Z * Z * Z)) : list Z :=
  flat_map (fun t => [fst (fst t); snd (fst t); snd t]) triples.

(** [toSigned] on the components of a group. *)
Definition signedPair (p : Z * Z) : Z * Z :=
  (toSigned (Some (fst p)), toSigned (Some (snd p))).

Definition signedTriple (t : Z * Z * Z) : Z * Z * Z :=
  (toSigned (Some (fst (fst t))), toSigned (Some (snd (fst t))), toSigned (Some (snd t))).

(** The coordinate made of accumulated sums. *)
Definition coordinate2 (factorDegree : Z) (s : Z * Z) : Coordinate :=
  [quot (fst s) factorDegree; quot (snd s) factorDegree].

Definition coordinate3 (factorDegree factorZ : Z) (s : Z * Z * Z) : Coordinate :=
  [quot (fst (fst s)) factorDegree; quot (snd (fst s)) factorDegree; quot (snd s) factorZ].

(** An index clamped to the bounds of an array of [len] elements. *)
Definition clampIndex (len : nat) (k : Z) : nat :=
  Z.to_nat (Z.max 0 (Z.min k (Z.of_nat len - 1))).

(** The index the minute band reads: [k] inside the array, 0 outside. *)
Definition minuteIndex (len : nat) (k : Z) : nat :=
  if k <? Z.of_nat len then Z.to_nat k else 0%nat.

(** Weather retrieval fails: the fetch is rejected, the response is not
    [ok], or its body is not a forecast payload. *)
Definition retrievalFails (outcome : WeatherManager.FetchOutcome) : Prop :=
  match outcome with
  | WeatherManager.FetchRejected => True
  | WeatherManager.Response ok json => ok = false \/ json = None
  end.

(** The ranges of the synthetic sample, as written in the generator
    (10-25 degrees, 50-90 % humidity, 5-25 km/h wind, 8-15 km visibility,
    0-5 mm precipitation, 0-100 % rain probability, 8-25 km/h gusts,
    0-360 degrees wind direction). *)
Definition demoRanges (clock : Z) (s : WeatherManager.Sample) : Prop :=
  (inject_Z 10 <= WeatherManager.temperature s <= inject_Z 25)%Q
  /\ (exists d, WeatherManager.description s = Some d
                /\ d ∈ ["Clear sky"; "Partly cloudy"; "Cloudy"; "Light rain"]%string)
  /\ (inject_Z 50 <= WeatherManager.humidity s <= inject_Z 90)%Q
  /\ 5 <= WeatherManager.windSpeed s <= 25
  /\ (exists v, WeatherManager.visibility s = Some v /\ (inject_Z 8 <= v <= inject_Z 15)%Q)
  /\ (0 <= WeatherManager.precipitation s <= inject_Z 5)%Q
  /\ (0 <= WeatherManager.rainProbability s <= inject_Z 100)%Q
  /\ (exists f, WeatherManager.feelsLike s = Some f /\ (inject_Z 10 <= f <= inject_Z 25)%Q)
  /\ (forall g, WeatherManager.windGust s = Some g -> 8 <= g <= 25)
  /\ (forall d, WeatherManager.windDeg s = Some d -> (0 <= d <= inject_Z 360)%Q)
  /\ WeatherManager.timestamp s = clock / 1000
  /\ WeatherManager.isCurrentData s = true.


(** *** Vocabulary of the deduplication rule *)












(** *** Sample payloads *)

Module Samples.

Import WeatherManager.

(** A provider entry at time [dt] with wind speed [wind] m/s and 10 km of
    visibility. *)
Definition entryAt (dt : Z) (wind : Q) : Entry :=
  {| e_dt := dt; e_temp := inject_Z 12; e_description := "clear sky";
     e_humidity := inject_Z 60; e_wind_speed := Some wind;
     e_visibility := Some (inject_Z 10000); e_pop := None;
     e_rain_1h := None; e_rain_3h := None; e_snow_1h := None; e_snow_3h := None;
     e_feels_like := None; e_wind_gust := None; e_wind_deg := None |}.

Definition T0 : Z := 1700000000.

(** Sixty one-minute entries from [T0] on: dry for half an hour, then
    1.5 mm. *)
Definition sixtyMinutes : list Minute :=
  map (fun k : nat =>
         mkMinute (T0 + 60 * Z.of_nat k)
                  (Some (if (k <? 30)%nat then 0%Q else (3 # 2)%Q)))
      (seq 0 60).

Definition minutePayload : ApiResponse :=
  {| current := entryAt T0 1; minutely := Some sixtyMinutes;
     hourly := Some [entryAt T0 1; entryAt (T0 + 3600) 2]; daily := None |}.

(** Hourly entries two and three hours ahead, no minute data. *)
Definition hourPayload : ApiResponse :=
  {| current := entryAt T0 1; minutely := None;
     hourly := Some [entryAt (T0 + 7200) 2; entryAt (T0 + 10800) 3]; daily := None |}.

Definition dayAt (dt : Z) (wind : Q) : Day :=
  {| d_dt := dt; d_temp_day := inject_Z 15; d_description := "few clouds";
     d_humidity := inject_Z 55; d_wind_speed := Some wind; d_pop := Some (1 # 2);
     d_rain := None; d_feels_like_day := None; d_wind_gust := None;
     d_wind_deg := None |}.

Definition dayPayload : ApiResponse :=
  {| current := entryAt T0 1; minutely := None; hourly := None;
     daily := Some [dayAt (T0 + 86400) 2; dayAt (T0 + 2 * 86400) 3;
                    dayAt (T0 + 3 * 86400) 4] |}.

(** Waypoints of a route through one town: origin, three intermediate
    points that resolve to the same name, destination. *)
Definition routePoint (type : string) (name : string) (dist : Z) : RouteManager.RoutePoint :=
  {| RouteManager.waypoint :=
       Some (RouteManager.mkWaypoint (inject_Z 52) (inject_Z 13) 0 (Some (inject_Z dist)) type);
     RouteManager.locationName := Some (lit name);
     RouteManager.location := None;
     RouteManager.distanceFromStart := inject_Z dist |}.


Definition townRoute : list RouteManager.RoutePoint :=
  [ routePoint "origin" "Potsdam" 0;
    routePoint "intermediate" "Berlin" 500;
    routePoint "intermediate" "Berlin" 1800;
    routePoint "intermediate" "Berlin" 3000;
    routePoint "destination" "Berlin" 3500 ].

(** The text of a whole number, as a template literal shows it (the
    coordinates of the sample waypoints are whole numbers). *)
Fixpoint showDigits (fuel : nat) (n : Z) (shown : jsstring) : jsstring :=
  match fuel with
  | O => shown
  | S fuel' =>
      let shown := (48 + n mod 10) :: shown in
      if n / 10 =? 0 then shown else showDigits fuel' (n / 10) shown
  end.

Definition showNumber (q : Q) : jsstring :=
  let n := Qfloor q in
  if n <? 0 then 45 :: showDigits 20 (- n) [] else showDigits 20 n [].

End Samples.

(** *** Vocabulary of the further properties *)

(** The 64 symbols of the polyline alphabet, in the order of their
    values. *)
Definition ALPHABET : jsstring :=
  lit "ABCDEFGHIJKLMNOPQRSTUVWXYZabcdefghijklmnopqrstuvwxyz0123456789-_".

(** The five value bits that a symbol contributes to an integer. *)
Definition lowBits (char : Z) : Z := Z.land (int32_of (decodeChar char)) 31.

(** The integer spelled by the symbols of one group, least significant
    five bits first. *)
Fixpoint groupValue (group : jsstring) : Z :=
  match group with
  | [] => 0
  | c :: rest => lowBits c + 32 * groupValue rest
  end.

(** A group of symbols of one integer: the continuation bit is set on all
    symbols but the last, and there are at most six of them. *)
Definition wellFormedGroup (group : jsstring) : Prop :=
  exists cs c,
    group = cs ++ [c]
    /\ Forall (fun x => continuationBit x = true) cs
    /\ continuationBit c = false
    /\ (length group <= 6)%nat.

(** The unsigned integer that the manual encoder computes for a signed
    value before it writes the symbols. *)
Definition zigzag (value : Z) : Z :=
  if value <? 0 then or32 (shl32 (- value - 1) 1) 1 else shl32 value 1.

(** A coordinate of exactly two components inside the geographic
    bounds. *)
Definition validPair (c : Coordinate) : Prop :=
  length c = 2%nat /\ inBounds c.

(** The first two components of a decoded coordinate. *)
Definition latLng (c : Coordinate) : Coordinate := take 2 c.

(** A point that triggers none of the penalties of the travel
    analysis. *)
Definition benign (data : WeatherManager.TravelPoint) : Prop :=
  let w := WeatherManager.tv_sample data in
  (0 <= WeatherManager.temperature w <= inject_Z 35)%Q
  /\ (WeatherManager.precipitation w <= inject_Z 2)%Q
  /\ (WeatherManager.rainProbability w <= inject_Z 20)%Q
  /\ WeatherManager.windSpeed w <= 15
  /\ (forall v, WeatherManager.visibility w = Some v -> (inject_Z 5 <= v)%Q)
  /\ (WeatherManager.humidity w <= inject_Z 85)%Q
  /\ (forall fl, WeatherManager.feelsLike w = Some fl ->
                 (Qabs (fl - WeatherManager.temperature w) <= inject_Z 5)%Q).

(** ** Rounding to double precision *)

Section Rounding.

Local Open Scope Q_scope.

Lemma pow2_pos (k : Z) : 0 < pow2 k.
Proof. apply Qpower_0_lt. reflexivity. Qed.

Lemma pow2_add (a b : Z) : pow2 (a + b) == pow2 a * pow2 b.
Proof. apply Qpower_plus. discriminate. Qed.

Lemma pow2_le (a b : Z) : (a <= b)%Z -> pow2 a <= pow2 b.
Proof. intros H. apply Qpower_le_compat_l; [exact H|discriminate]. Qed.

Lemma pow2_lt_inv (a b : Z) : pow2 a < pow2 b -> (a < b)%Z.
Proof. intros H. eapply Qpower_lt_compat_l_inv; [exact H|reflexivity]. Qed.

Lemma pow2_Z (k : Z) : (0 <= k)%Z -> pow2 k == inject_Z (2 ^ k).
Proof. intros H. unfold pow2. now rewrite Zpower_Qpower. Qed.

(** [ilog2 q] is the exponent of the binade of [q]. *)
Lemma ilog2_spec (q : Q) : 0 < q -> pow2 (ilog2 q) <= q < pow2 (ilog2 q + 1).
Proof.
  intros Hq. destruct q as [n d]. unfold ilog2. cbn [Qnum Qden].
  assert (Hn : (0 < n)%Z) by (unfold Qlt in Hq; cbn in Hq; lia).
  set (a := Z.log2 n). set (b := Z.log2 (Z.pos d)).
  destruct (Z.log2_spec n Hn) as [Ha1 Ha2]. fold a in Ha1, Ha2.
  destruct (Z.log2_spec (Z.pos d) ltac:(lia)) as [Hb1 Hb2]. fold b in Hb1, Hb2.
  assert (Ha0 : (0 <= a)%Z) by apply Z.log2_nonneg.
  assert (Hb0 : (0 <= b)%Z) by apply Z.log2_nonneg.
  assert (Hnd : n # d == inject_Z n / inject_Z (Z.pos d)) by apply Qmake_Qdiv.
  assert (Hd : 0 < inject_Z (Z.pos d)) by reflexivity.
  assert (HA1 : pow2 a <= inject_Z n) by (rewrite pow2_Z by lia; now rewrite <- Zle_Qle).
  assert (HA2 : inject_Z n < pow2 (a + 1))
    by (rewrite pow2_Z by lia; rewrite <- Zlt_Qlt; now rewrite <- Z.add_1_r in Ha2).
  assert (HB1 : pow2 b <= inject_Z (Z.pos d)) by (rewrite pow2_Z by lia; now rewrite <- Zle_Qle).
  assert (HB2 : inject_Z (Z.pos d) < pow2 (b + 1))
    by (rewrite pow2_Z by lia; rewrite <- Zlt_Qlt; now rewrite <- Z.add_1_r in Hb2).
  assert (Hmul : (n # d) * inject_Z (Z.pos d) == inject_Z n).
  { rewrite Hnd. field. lra. }
  pose proof (pow2_pos (a - b)) as Hk. pose proof (pow2_pos (a - b - 1)) as Hk1.
  pose proof (pow2_pos (a - b + 1)) as Hk2. pose proof (pow2_pos b) as Hpb.
  assert (E1 : pow2 (a + 1) == pow2 (a - b + 1) * pow2 b)
    by (rewrite <- pow2_add; apply Qpower_comp; [reflexivity|lia]).
  assert (E2 : pow2 a == pow2 (a - b - 1) * pow2 (b + 1))
    by (rewrite <- pow2_add; apply Qpower_comp; [reflexivity|lia]).
  set (x := n # d) in *. set (D := inject_Z (Z.pos d)) in *. set (N := inject_Z n) in *.
  destruct (Qle_bool (pow2 (a - b)) x) eqn:Hc.
  - apply Qle_bool_iff in Hc. split; [exact Hc|].
    (* x * D = N < pow2 (a+1) = K * pow2 b <= K * D *)
    apply Qnot_le_lt. intros Hge.
    assert (pow2 (a - b + 1) * D <= x * D) by (apply Qmult_le_compat_r; lra).
    assert (pow2 (a - b + 1) * pow2 b <= pow2 (a - b + 1) * D)
      by (apply Qmult_le_l; lra).
    lra.
  - assert (Hlt : x < pow2 (a - b)).
    { apply Qnot_le_lt. intros Hle. apply Qle_bool_iff in Hle. congruence. }
    replace (a - b - 1 + 1)%Z with (a - b)%Z by lia. split; [|exact Hlt].
    apply Qnot_lt_le. intros Hlt'.
    assert (x * D < pow2 (a - b - 1) * D) by (apply Qmult_lt_compat_r; lra).
    assert (pow2 (a - b - 1) * D < pow2 (a - b - 1) * pow2 (b + 1))
      by (apply Qmult_lt_l; lra).
    lra.
Qed.

Lemma ilog2_mono (a b : Q) : 0 < a -> a <= b -> (ilog2 a <= ilog2 b)%Z.
Proof.
  intros Ha Hab.
  destruct (ilog2_spec a Ha) as [Ha1 _].
  destruct (ilog2_spec b ltac:(lra)) as [_ Hb2].
  assert (H : pow2 (ilog2 a) < pow2 (ilog2 b + 1)) by lra.
  apply pow2_lt_inv in H. lia.
Qed.

Lemma rne_bounds (x : Q) : (Qfloor x <= rne x <= Qfloor x + 1)%Z.
Proof.
  unfold rne. destruct (Qcompare _ _); [destruct (Z.even _)| |]; lia.
Qed.

Lemma rne_Z (z : Z) : rne (inject_Z z) = z.
Proof.
  unfold rne. rewrite Qfloor_Z.
  assert (H : inject_Z z - inject_Z z < 1 # 2) by lra.
  rewrite Qlt_alt in H. now rewrite H.
Qed.

Lemma rne_mono (x y : Q) : x <= y -> (rne x <= rne y)%Z.
Proof.
  intros Hxy. pose proof (Qfloor_resp_le x y Hxy) as Hf.
  pose proof (rne_bounds x) as Hx. pose proof (rne_bounds y) as Hy.
  destruct (Z.eq_dec (Qfloor x) (Qfloor y)) as [Heq|Hne]; [|lia].
  unfold rne in *. rewrite <- Heq in *. clear Hx Hy Hf.
  destruct (Qcompare_spec (x - inject_Z (Qfloor x)) (1 # 2)) as [Hx|Hx|Hx];
    destruct (Qcompare_spec (y - inject_Z (Qfloor x)) (1 # 2)) as [Hy|Hy|Hy];
    try destruct (Z.even (Qfloor x)); try lia; lra.
Qed.

Lemma rne_comp (x y : Q) : x == y -> rne x = rne y.
Proof.
  intros H. apply Z.le_antisymm; apply rne_mono; rewrite H; apply Qle_refl.
Qed.

Lemma round64pos_nonneg (q : Q) : 0 <= q -> 0 <= round64pos q.
Proof.
  intros Hq. unfold round64pos. pose proof (pow2_pos (ulpExp q)) as Hp.
  apply Qmult_le_0_compat; [|lra].
  change 0 with (inject_Z 0). rewrite <- Zle_Qle, <- (rne_Z 0). apply rne_mono.
  apply Qle_shift_div_l; [assumption|]. change (inject_Z 0) with 0. lra.
Qed.

Lemma round64pos_mono (a b : Q) : 0 < a -> a <= b -> round64pos a <= round64pos b.
Proof.
  intros Ha Hab. assert (Hb : 0 < b) by lra.
  pose proof (ilog2_mono a b Ha Hab) as Hlog.
  unfold round64pos.
  set (ea := ulpExp a). set (eb := ulpExp b).
  pose proof (pow2_pos ea) as Hpa. pose proof (pow2_pos eb) as Hpb.
  assert (Hle : (ea <= eb)%Z) by (unfold ea, eb, ulpExp; lia).
  destruct (Z.eq_dec ea eb) as [Heq|Hne].
  - rewrite <- Heq. apply Qmult_le_compat_r; [|lra].
    rewrite <- Zle_Qle. apply rne_mono.
    apply Qle_shift_div_l; [assumption|].
    assert (a / pow2 ea * pow2 ea == a) by (field; lra). lra.
  - (* different binades *)
    apply Qle_trans with (pow2 (ea + 53)).
    + destruct (ilog2_spec a Ha) as [_ Ha2].
      assert (H1 : pow2 (ilog2 a + 1) <= pow2 (ea + 53))
        by (apply pow2_le; unfold ea, ulpExp; lia).
      rewrite (pow2_add ea 53), (Qmult_comm (pow2 ea)).
      apply Qmult_le_compat_r; [|lra].
      rewrite (pow2_Z 53) by lia. rewrite <- Zle_Qle, <- (rne_Z (2 ^ 53)).
      apply rne_mono. rewrite <- (pow2_Z 53) by lia.
      apply Qle_shift_div_r; [assumption|].
      rewrite (Qmult_comm (pow2 53)), <- pow2_add. lra.
    + apply Qle_trans with (pow2 (eb + 52)); [apply pow2_le; lia|].
      destruct (ilog2_spec b Hb) as [Hb1 _].
      assert (Heb : (eb + 52 = ilog2 b)%Z).
      { unfold ea, eb, ulpExp in *. lia. }
      rewrite (pow2_add eb 52), (Qmult_comm (pow2 eb)).
      apply Qmult_le_compat_r; [|lra].
      rewrite (pow2_Z 52) by lia. rewrite <- Zle_Qle, <- (rne_Z (2 ^ 52)).
      apply rne_mono. rewrite <- (pow2_Z 52) by lia.
      apply Qle_shift_div_l; [assumption|].
      rewrite (Qmult_comm (pow2 52)), <- pow2_add, Heb. exact Hb1.
Qed.

(** Rounding to double precision is monotone. *)
Lemma round64_mono (a b : Q) : a <= b -> round64 a <= round64 b.
Proof.
  intros Hab. unfold round64. cbv zeta. set (x := Qred a). set (y := Qred b).
  assert (Hxy : x <= y) by (subst x y; now rewrite !Qred_correct).
  clearbody x y. rewrite !Qred_correct.
  destruct (Qcompare_spec x 0) as [Hx|Hx|Hx];
    destruct (Qcompare_spec y 0) as [Hy|Hy|Hy]; try lra.
  - pose proof (round64pos_nonneg y ltac:(lra)). lra.
  - pose proof (round64pos_nonneg (- x) ltac:(lra)). lra.
  - pose proof (round64pos_mono (- y) (- x) ltac:(lra) ltac:(lra)). lra.
  - pose proof (round64pos_nonneg (- x) ltac:(lra)).
    pose proof (round64pos_nonneg y ltac:(lra)). lra.
  - apply round64pos_mono; lra.
Qed.

(** Equal numbers have the same double, whatever their representation. *)
Lemma round64_comp (a b : Q) : a == b -> round64 a = round64 b.
Proof. intros H. unfold round64. now rewrite (Qred_complete a b H). Qed.

Lemma round64_0 : round64 0 = 0%Q.
Proof. reflexivity. Qed.

Lemma round64_1 : round64 1 = 1%Q.
Proof. reflexivity. Qed.

Lemma round64pos_Z (n : Z) : (0 < n < 2 ^ 53)%Z -> round64pos (inject_Z n) == inject_Z n.
Proof.
  intros Hn. unfold round64pos. set (e := ulpExp (inject_Z n)).
  assert (Hn0 : 0 < inject_Z n) by (change 0 with (inject_Z 0); rewrite <- Zlt_Qlt; lia).
  destruct (ilog2_spec (inject_Z n) Hn0) as [Hlo _].
  assert (Hlog : (ilog2 (inject_Z n) < 53)%Z).
  { apply pow2_lt_inv. eapply Qle_lt_trans; [exact Hlo|].
    rewrite (pow2_Z 53) by lia. rewrite <- Zlt_Qlt. lia. }
  assert (He : (e <= 0)%Z) by (unfold e, ulpExp; lia).
  pose proof (pow2_pos e) as Hpe.
  assert (Hinv : pow2 e * pow2 (- e) == 1).
  { rewrite <- pow2_add. replace (e + - e)%Z with 0%Z by lia. reflexivity. }
  assert (Hint : inject_Z n / pow2 e == inject_Z (n * 2 ^ (- e))).
  { rewrite inject_Z_mult, <- (pow2_Z (- e)) by lia.
    set (a := pow2 e) in *. set (b := pow2 (- e)) in *.
    assert (inject_Z n / a == inject_Z n * b * (a * / a) ) by (field_simplify_eq; [nra|lra]).
    field_simplify_eq; [|lra]. nra. }
  rewrite (rne_comp _ _ Hint), rne_Z, inject_Z_mult, <- (pow2_Z (- e)) by lia.
  set (a := pow2 e) in *. set (b := pow2 (- e)) in *. nra.
Qed.

(** A whole number below 2^53 is a double. *)
Lemma round64_Z (z : Z) : (Z.abs z < 2 ^ 53)%Z -> round64 (inject_Z z) == inject_Z z.
Proof.
  intros Hz. unfold round64. cbv zeta. rewrite Qred_correct.
  assert (Hred : Qred (inject_Z z) = inject_Z z).
  { apply Qcanon.Qred_identity. cbn. apply Z.gcd_1_r. }
  rewrite Hred.
  destruct (Qcompare_spec (inject_Z z) 0) as [H|H|H].
  - now rewrite H.
  - assert (Hneg : (z < 0)%Z) by (change 0 with (inject_Z 0) in H; now rewrite <- Zlt_Qlt in H).
    rewrite <- inject_Z_opp, round64pos_Z by lia. rewrite inject_Z_opp. ring.
  - assert (Hpos : (0 < z)%Z) by (change 0 with (inject_Z 0) in H; now rewrite <- Zlt_Qlt in H).
    apply round64pos_Z. lia.
Qed.

Lemma ilog2_unique (q : Q) (k : Z) : pow2 k <= q < pow2 (k + 1) -> ilog2 q = k.
Proof.
  intros [Hlo Hhi]. assert (Hq : 0 < q) by (pose proof (pow2_pos k); lra).
  destruct (ilog2_spec q Hq) as [Hlo' Hhi'].
  assert (H1 : pow2 k < pow2 (ilog2 q + 1)) by lra.
  assert (H2 : pow2 (ilog2 q) < pow2 (k + 1)) by lra.
  apply pow2_lt_inv in H1, H2. lia.
Qed.

(** The value [m * 2^e] of a significand of at most 53 bits, at or above
    the smallest exponent, is a double. *)
Lemma round64pos_significand (m e : Z) :
  (0 < m <= 2 ^ 53)%Z -> (-1074 <= e)%Z ->
  (e = -1074 \/ 2 ^ 52 <= m)%Z ->
  round64pos (inject_Z m * pow2 e) == inject_Z m * pow2 e.
Proof.
  intros Hm He Hnorm. set (v := inject_Z m * pow2 e).
  pose proof (pow2_pos e) as Hpe.
  assert (Hm0 : 0 < inject_Z m) by (change 0 with (inject_Z 0); rewrite <- Zlt_Qlt; lia).
  destruct (Z.log2_spec m ltac:(lia)) as [Hl1 Hl2]. set (l := Z.log2 m) in *.
  assert (Hl0 : (0 <= l)%Z) by apply Z.log2_nonneg.
  assert (Hl53 : (l <= 53)%Z).
  { unfold l. rewrite <- (Z.log2_pow2 53) by lia. apply Z.log2_le_mono. lia. }
  assert (Hlog : ilog2 v = (l + e)%Z).
  { apply ilog2_unique. unfold v. split.
    - rewrite pow2_add, (pow2_Z l) by lia. apply Qmult_le_compat_r; [|lra].
      now rewrite <- Zle_Qle.
    - replace (l + e + 1)%Z with ((l + 1) + e)%Z by lia.
      rewrite pow2_add, (pow2_Z (l + 1)) by lia. apply Qmult_lt_compat_r; [lra|].
      rewrite <- Zlt_Qlt. now rewrite <- Z.add_1_r in Hl2. }
  unfold round64pos, ulpExp. rewrite Hlog.
  destruct (Z.eq_dec m (2 ^ 53)%Z) as [Htop|Hlt].
  - (* the significand 2^53 is 2^52 at the next exponent *)
    assert (Hl : l = 53%Z) by (subst m; unfold l; now rewrite Z.log2_pow2 by lia).
    replace (Z.max (-1074) (l + e - 52)) with (e + 1)%Z by lia.
    assert (Hint : v / pow2 (e + 1) == inject_Z (2 ^ 52)).
    { unfold v. subst m. rewrite (pow2_add e 1). pose proof (pow2_pos 1).
      change (pow2 1) with 2 in *. change (inject_Z (2 ^ 53)) with (inject_Z (2 ^ 52) * 2).
      field. lra. }
    rewrite (rne_comp _ _ Hint), rne_Z. unfold v. subst m. rewrite (pow2_add e 1).
    change (pow2 1) with 2. change (inject_Z (2 ^ 53)) with (inject_Z (2 ^ 52) * 2). ring.
  - assert (Hl : (l <= 52)%Z).
    { assert (Hm53 : (m < 2 ^ 53)%Z) by lia. apply Z.log2_lt_pow2 in Hm53; [|lia].
      fold l in Hm53. lia. }
    assert (Hexp : Z.max (-1074) (l + e - 52) = e).
    { destruct Hnorm as [->|Hbig]; [lia|].
      assert (52 <= l)%Z.
      { unfold l. rewrite <- (Z.log2_pow2 52) by lia. now apply Z.log2_le_mono. }
      lia. }
    rewrite Hexp.
    assert (Hint : v / pow2 e == inject_Z m) by (unfold v; field; lra).
    rewrite (rne_comp _ _ Hint), rne_Z. reflexivity.
Qed.

(** What [round64pos] returns has such a significand. *)
Lemma round64pos_shape (q : Q) :
  0 < q ->
  let m := rne (q / pow2 (ulpExp q)) in
  (0 <= m <= 2 ^ 53)%Z /\ (ulpExp q = -1074 \/ 2 ^ 52 <= m)%Z.
Proof.
  intros Hq m. subst m. set (e := ulpExp q). pose proof (pow2_pos e) as Hpe.
  destruct (ilog2_spec q Hq) as [Hlo Hhi].
  assert (Hdiv : q / pow2 e * pow2 e == q) by (field; lra).
  split; [split|].
  - rewrite <- (rne_Z 0). apply rne_mono. apply Qle_shift_div_l; [assumption|].
    change (inject_Z 0) with 0. lra.
  - rewrite <- (rne_Z (2 ^ 53)). apply rne_mono. rewrite <- (pow2_Z 53) by lia.
    apply Qle_shift_div_r; [assumption|]. rewrite (Qmult_comm (pow2 53)), <- pow2_add.
    assert (pow2 (ilog2 q + 1) <= pow2 (e + 53)) by (apply pow2_le; unfold e, ulpExp; lia).
    lra.
  - destruct (Z.eq_dec e (-1074)%Z) as [|Hne]; [now left|right].
    assert (He : (e + 52 = ilog2 q)%Z) by (unfold e, ulpExp in *; lia).
    rewrite <- (rne_Z (2 ^ 52)). apply rne_mono. rewrite <- (pow2_Z 52) by lia.
    apply Qle_shift_div_l; [assumption|].
    rewrite (Qmult_comm (pow2 52)), <- pow2_add, He. exact Hlo.
Qed.

Lemma round64pos_idem (q : Q) : 0 < q -> 0 < round64pos q ->
  round64pos (round64pos q) == round64pos q.
Proof.
  intros Hq Hpos. destruct (round64pos_shape q Hq) as [[Hm0 Hm] Hnorm].
  unfold round64pos at 2 3. unfold round64pos in Hpos.
  set (m := rne (q / pow2 (ulpExp q))) in *.
  assert (Hmpos : (0 < m)%Z).
  { destruct (Z.eq_dec m 0%Z) as [Hz|]; [|lia]. rewrite Hz in Hpos.
    change (inject_Z 0) with 0 in Hpos. lra. }
  apply round64pos_significand; [lia| unfold ulpExp; lia |assumption].
Qed.

Lemma round64pos_comp (a b : Q) : 0 < a -> a == b -> round64pos a == round64pos b.
Proof.
  intros Ha Hab. apply Qle_antisym; apply round64pos_mono; lra.
Qed.

Lemma round64_pos_eq (q : Q) : 0 < q -> round64 q == round64pos q.
Proof.
  intros Hq. unfold round64. cbv zeta. rewrite Qred_correct.
  pose proof (Qred_correct q) as Hred.
  destruct (Qcompare_spec (Qred q) 0) as [H|H|H]; try lra.
  apply round64pos_comp; lra.
Qed.

Lemma round64_neg_eq (q : Q) : q < 0 -> round64 q == - round64pos (- q).
Proof.
  intros Hq. unfold round64. cbv zeta. rewrite Qred_correct.
  pose proof (Qred_correct q) as Hred.
  destruct (Qcompare_spec (Qred q) 0) as [H|H|H]; try lra.
  apply Qopp_comp. apply round64pos_comp; lra.
Qed.

(** The result of an operation is a double: rounding it again changes
    nothing. *)
Lemma round64_idem (q : Q) : round64 (round64 q) = round64 q.
Proof.
  assert (Hfix : forall x, round64 x = Qred (round64 x)).
  { intros x. unfold round64. cbv zeta. now rewrite Qcanon.Qred_involutive. }
  transitivity (Qred (round64 (round64 q))); [apply Hfix|].
  transitivity (Qred (round64 q)); [|symmetry; apply Hfix].
  apply Qred_complete.
  destruct (Qlt_le_dec 0 q) as [Hpos|Hle].
  - pose proof (round64_pos_eq q Hpos) as Hr.
    pose proof (round64pos_nonneg q ltac:(lra)) as H0.
    destruct (Qlt_le_dec 0 (round64pos q)) as [Hp|Hz].
    + assert (Hrpos : 0 < round64 q) by lra.
      pose proof (round64_pos_eq _ Hrpos) as H1.
      pose proof (round64pos_comp _ _ Hrpos Hr) as H2.
      pose proof (round64pos_idem q Hpos Hp) as H3. lra.
    + assert (Hzero : round64 q == 0) by lra.
      rewrite (round64_comp _ _ Hzero), round64_0. lra.
  - destruct (Qeq_dec q 0) as [Hq0|Hq0].
    + rewrite (round64_comp _ _ Hq0), round64_0. reflexivity.
    + assert (Hneg : q < 0) by (destruct (Qlt_le_dec q 0); [assumption|]; exfalso; apply Hq0; lra).
      pose proof (round64_neg_eq q Hneg) as Hr.
      assert (Hnq : 0 < - q) by lra.
      pose proof (round64pos_nonneg (- q) ltac:(lra)) as H0.
      destruct (Qlt_le_dec 0 (round64pos (- q))) as [Hp|Hz].
      * assert (Hrneg : round64 q < 0) by lra.
        pose proof (round64_neg_eq _ Hrneg) as H1.
        assert (Hopp : - round64 q == round64pos (- q)) by lra.
        assert (Hopos : 0 < - round64 q) by lra.
        pose proof (round64pos_comp _ _ Hopos Hopp) as H2.
        pose proof (round64pos_idem (- q) Hnq Hp) as H3. lra.
      * assert (Hzero : round64 q == 0) by lra.
        rewrite (round64_comp _ _ Hzero), round64_0. lra.
Qed.

Lemma round64_lower (x : Q) (lo : Z) :
  (Z.abs lo < 2 ^ 53)%Z -> inject_Z lo <= x -> inject_Z lo <= round64 x.
Proof.
  intros Hlo Hx. rewrite <- (round64_Z lo Hlo). now apply round64_mono.
Qed.

Lemma round64_upper (x : Q) (hi : Z) :
  (Z.abs hi < 2 ^ 53)%Z -> x <= inject_Z hi -> round64 x <= inject_Z hi.
Proof.
  intros Hhi Hx. rewrite <- (round64_Z hi Hhi). now apply round64_mono.
Qed.

Lemma round64_between (x : Q) (lo hi : Z) :
  (Z.abs lo < 2 ^ 53)%Z -> (Z.abs hi < 2 ^ 53)%Z ->
  inject_Z lo <= x <= inject_Z hi -> inject_Z lo <= round64 x <= inject_Z hi.
Proof.
  intros Hlo Hhi [H1 H2]. split; [now apply round64_lower|now apply round64_upper].
Qed.

Lemma fdiv_eq (a b c : Q) : a / b == c -> fdiv a b = round64 c.
Proof. apply round64_comp. Qed.

Lemma fmul_eq (a b c : Q) : a * b == c -> fmul a b = round64 c.
Proof. apply round64_comp. Qed.

End Rounding.

(** ** The varint stream decoder *)

Section Varint.

Lemma snoc_cases {A} (l : list A) : l = [] \/ exists pre c, l = pre ++ [c].
Proof.
  induction l as [|c pre _] using rev_ind; [now left|right; eauto].
Qed.

Lemma varintRun_snoc (pre : jsstring) (c : Z) :
  varintRun (pre ++ [c]) = varintStep (varintRun pre) c.
Proof. unfold varintRun. now rewrite fold_left_app. Qed.

Lemma varintStep_shift (st : VarintState) (c : Z) :
  vs_shift (varintStep st c) =
  if continuationBit c then vs_shift st + 5 else 0.
Proof.
  unfold varintStep, continuationBit.
  destruct (Z.land (int32_of (decodeChar c)) 32 =? 0); reflexivity.
Qed.

Lemma varintRun_shift_nonneg (encoded : jsstring) :
  0 <= vs_shift (varintRun encoded).
Proof.
  induction encoded as [|c pre IH] using rev_ind; [reflexivity|].
  rewrite varintRun_snoc, varintStep_shift.
  destruct (continuationBit c); lia.
Qed.

(** The shift at the end of the input is non-zero exactly when the last
    symbol carries the continuation bit. *)
Lemma varintRun_pending (pre : jsstring) (c : Z) :
  0 < vs_shift (varintRun (pre ++ [c])) <-> continuationBit c = true.
Proof.
  rewrite varintRun_snoc, varintStep_shift.
  pose proof (varintRun_shift_nonneg pre).
  destruct (continuationBit c); split; intros; try lia; congruence.
Qed.

Lemma decodeUnsignedValues_cases (encoded : jsstring) :
  (0 < vs_shift (varintRun encoded)
   /\ decodeUnsignedValues encoded = Throw InvalidEncoding)
  \/ (vs_shift (varintRun encoded) = 0
      /\ decodeUnsignedValues encoded = Ok (vs_resList (varintRun encoded))).
Proof.
  unfold decodeUnsignedValues.
  pose proof (varintRun_shift_nonneg encoded).
  destruct (Z.ltb_spec 0 (vs_shift (varintRun encoded))); [left|right]; split; auto; lia.
Qed.

Lemma decodeUnsignedValues_error (encoded : jsstring) (e : JsError) :
  decodeUnsignedValues encoded = Throw e -> e = InvalidEncoding.
Proof.
  destruct (decodeUnsignedValues_cases encoded) as [[_ He]|[_ He]]; rewrite He;
    congruence.
Qed.

(** C5. The unsigned varint stream decoder returns an integer list exactly
    when the input is empty or ends on a symbol whose continuation bit is
    clear, and throws its decoding error exactly when the input ends on a
    symbol whose continuation bit is set, which is exactly when the shift
    is non-zero at the end of the input; the empty input decodes to the
    empty list. *)
Theorem varint_stream_truncation (encoded : jsstring) :
  decodeUnsignedValues [] = Ok []
  /\ ((exists l, decodeUnsignedValues encoded = Ok l) <->
      (encoded = [] \/ exists pre c, encoded = pre ++ [c] /\ continuationBit c = false))
  /\ (decodeUnsignedValues encoded = Throw InvalidEncoding <->
      (exists pre c, encoded = pre ++ [c] /\ continuationBit c = true))
  /\ (decodeUnsignedValues encoded = Throw InvalidEncoding <->
      vs_shift (varintRun encoded) <> 0)
  /\ (forall e, decodeUnsignedValues encoded = Throw e -> e = InvalidEncoding).
Proof.
  split; [reflexivity|].
  destruct (decodeUnsignedValues_cases encoded) as [[Hs He]|[Hs He]]; rewrite He.
  - (* pending continuation *)
    assert (Hlast : exists pre c, encoded = pre ++ [c] /\ continuationBit c = true).
    { destruct (snoc_cases encoded) as [->|(pre & c & ->)]; [cbn in Hs; lia|].
      exists pre, c. split; [reflexivity|]. exact (proj1 (varintRun_pending pre c) Hs). }
    repeat split; try (intros; congruence); try (intros; lia); auto.
    + intros [l Hl]. discriminate.
    + intros [->|(pre & c & -> & Hc)]; [cbn in Hs; lia|].
      apply (proj1 (varintRun_pending _ _)) in Hs. congruence.
  - (* clean end *)
    repeat split; try (intros; discriminate).
    + intros _. destruct (snoc_cases encoded) as [->|(pre & c & ->)]; [now left|].
      right. exists pre, c. split; [reflexivity|].
      destruct (continuationBit c) eqn:Hc; [|reflexivity].
      apply (proj2 (varintRun_pending pre c)) in Hc. lia.
    + intros _. eauto.
    + intros (pre & c & -> & Hc). apply (proj2 (varintRun_pending pre c)) in Hc. lia.
    + intros Hne. lia.
Qed.

End Varint.

(** ** The coordinate loop of the polyline decoder *)

Section DecodeLoop.

Variables (decoder : list Z) (td factorDegree factorZ : Z).

Let step : nat := if td =? 0 then 2%nat else 3%nat.

Lemma loopBody_index (st : LoopState) :
  ls_i (loopBody decoder td factorDegree factorZ st) = (ls_i st + step)%nat.
Proof. unfold loopBody, step. destruct (td =? 0); reflexivity. Qed.

(** The index stays on the grid of whole groups. *)
Lemma decodeLoop_index (fuel : nat) (st : LoopState) :
  exists k : nat,
    ls_i (decodeLoop fuel decoder td factorDegree factorZ st) = (ls_i st + k * step)%nat.
Proof.
  revert st; induction fuel as [|fuel IH]; intros st; cbn [decodeLoop].
  - exists 0%nat. lia.
  - destruct (ls_i st <? length decoder)%nat.
    + destruct (IH (loopBody decoder td factorDegree factorZ st)) as [k Hk].
      exists (S k). rewrite Hk, loopBody_index. lia.
    + exists 0%nat. lia.
Qed.

(** With enough fuel the loop ends because its condition is false. *)
Lemma decodeLoop_exits (fuel : nat) (st : LoopState) :
  (length decoder <= ls_i st + 2 * fuel)%nat ->
  (length decoder <= ls_i (decodeLoop fuel decoder td factorDegree factorZ st))%nat.
Proof.
  revert st; induction fuel as [|fuel IH]; intros st Hfuel; cbn [decodeLoop].
  - lia.
  - destruct (Nat.ltb_spec (ls_i st) (length decoder)); [|assumption].
    apply IH. rewrite loopBody_index. unfold step. destruct (td =? 0); lia.
Qed.

End DecodeLoop.

Lemma decodeIntegers_loop_exits (decoder : list Z) (td fD fZ : Z) :
  (length decoder <=
   ls_i (decodeLoop (length decoder) decoder td fD fZ (mkLoop 2 0 0 0 [])))%nat.
Proof. apply decodeLoop_exits. cbn. lia. Qed.

Lemma decodeIntegers_version (decoder : list Z) (coords : list Coordinate) :
  decodeIntegers decoder = Ok coords -> decoder !! 0%nat = Some 1.
Proof.
  unfold decodeIntegers, decodeHeader.
  destruct (decide (decoder !! 0%nat = Some FORMAT_VERSION)); [auto|discriminate].
Qed.

Lemma decodeIntegers_valid_header (decoder : list Z) :
  decoder !! 0%nat = Some 1 ->
  decodeIntegers decoder =
  let st := decodeLoop (length decoder) decoder (streamThirdDim decoder)
              (10 ^ streamPrecision decoder)
              (10 ^ Z.land (Z.shiftr (int32_of (decoder !! 1%nat)) 7) 15)
              (mkLoop 2 0 0 0 []) in
  if decide (ls_i st = length decoder) then Ok (ls_res st) else Throw PrematureEnding.
Proof.
  intros Hv. unfold decodeIntegers, decodeHeader.
  destruct (decide (decoder !! 0%nat = Some FORMAT_VERSION)) as [_|Hne];
    [reflexivity|now destruct Hne].
Qed.

Lemma decodeIntegers_other_version (decoder : list Z) :
  decoder !! 0%nat <> Some 1 -> decodeIntegers decoder = Throw InvalidFormatVersion.
Proof.
  intros Hv. unfold decodeIntegers, decodeHeader.
  destruct (decide (decoder !! 0%nat = Some FORMAT_VERSION)) as [He|_];
    [now destruct Hv|reflexivity].
Qed.

(** C6 (as amended). When the integers that follow the two header integers
    do not make whole groups (of 2 without a third dimension, of 3 with
    one), the polyline decoder returns no coordinate list at all.  The
    error is the premature-ending one when the first integer is the
    supported format version 1, and the invalid-format-version one
    otherwise: the version is checked before the groups are read.  This
    holds for the decoder on integers and on the string they were decoded
    from. *)
Theorem premature_ending (decoder : list Z) :
  ((length decoder - 2) mod groupSize decoder)%nat <> 0%nat ->
  (forall coords, decodeIntegers decoder <> Ok coords)
  /\ (decoder !! 0%nat = Some 1 -> decodeIntegers decoder = Throw PrematureEnding)
  /\ (decoder !! 0%nat <> Some 1 -> decodeIntegers decoder = Throw InvalidFormatVersion)
  /\ (forall encoded, decodeUnsignedValues encoded = Ok decoder ->
        (forall coords, decodePolyline encoded <> Ok coords)
        /\ (decoder !! 0%nat = Some 1 -> decodePolyline encoded = Throw PrematureEnding)
        /\ (decoder !! 0%nat <> Some 1 ->
            decodePolyline encoded = Throw InvalidFormatVersion)).
Proof.
  intros Hmod.
  assert (Hlen : (2 < length decoder)%nat).
  { destruct (Nat.lt_ge_cases 2 (length decoder)) as [|Hle]; [assumption|exfalso].
    apply Hmod. replace (length decoder - 2)%nat with 0%nat by lia.
    unfold groupSize. now destruct (streamThirdDim decoder =? 0)%Z. }
  assert (Hv : decoder !! 0%nat = Some 1 -> decodeIntegers decoder = Throw PrematureEnding).
  { intros Hv. rewrite (decodeIntegers_valid_header _ Hv). cbv zeta.
    match goal with |- context [decodeLoop ?f ?d ?t ?a ?b ?st] =>
      destruct (decodeLoop_index d t a b f st) as [k Hk] end.
    destruct (decide _) as [Heq|]; [exfalso|reflexivity].
    rewrite Heq in Hk. cbn [ls_i] in Hk. apply Hmod.
    unfold groupSize.
    replace (length decoder - 2)%nat
      with (k * (if (streamThirdDim decoder =? 0)%Z then 2 else 3))%nat by lia.
    apply Nat.Div0.mod_mul. }
  assert (Hno : forall coords, decodeIntegers decoder <> Ok coords).
  { intros coords Hok. pose proof (decodeIntegers_version _ _ Hok) as Hver.
    rewrite (Hv Hver) in Hok. discriminate. }
  split; [exact Hno|]. split; [exact Hv|].
  split; [apply decodeIntegers_other_version|].
  intros encoded Henc. unfold decodePolyline. rewrite Henc. cbn [bind].
  split; [exact Hno|]. split; [exact Hv|apply decodeIntegers_other_version].
Qed.

Lemma premature_ending_witness :
  decodeIntegers [1; 0; 2; 4; 6] = Throw PrematureEnding.
Proof.
  apply (premature_ending [1; 0; 2; 4; 6]); [vm_compute; lia|reflexivity].
Defined.

(** C6 (as stated) fails: the stream 2, 0, 5 has one integer after the two
    header integers, which is no whole group of 2, and the decoder fails,
    but with the invalid-format-version error, not the premature-ending
    one.  The same holds for the string "CAF", which decodes to these
    integers. *)
Lemma partial_group_after_other_version :
  ((length [2; 0; 5]%Z - 2) mod groupSize [2; 0; 5]%Z)%nat <> 0%nat
  /\ decodeIntegers [2; 0; 5] = Throw InvalidFormatVersion
  /\ decodeIntegers [2; 0; 5] <> Throw PrematureEnding
  /\ decodeUnsignedValues (lit "CAF") = Ok [2; 0; 5]
  /\ decodePolyline (lit "CAF") = Throw InvalidFormatVersion.
Proof.
  split; [vm_compute; lia|]. split; [reflexivity|]. split; [discriminate|].
  split; vm_compute; reflexivity.
Qed.

(** ** What the decoder returns: running sums, unchecked *)

Section DecodeSums.

Variables (factorDegree factorZ : Z).

Lemma lookup_after (pre : list Z) (a : Z) (post : list Z) :
  (pre ++ a :: post) !! length pre = Some a.
Proof. apply list_lookup_middle. reflexivity. Qed.

Lemma lookup_after1 (pre : list Z) (a b : Z) (post : list Z) :
  (pre ++ a :: b :: post) !! (length pre + 1)%nat = Some b.
Proof.
  replace (pre ++ a :: b :: post) with ((pre ++ [a]) ++ b :: post)
    by now rewrite <- app_assoc.
  apply list_lookup_middle. rewrite length_app. reflexivity.
Qed.

Lemma lookup_after2 (pre : list Z) (a b c : Z) (post : list Z) :
  (pre ++ a :: b :: c :: post) !! (length pre + 2)%nat = Some c.
Proof.
  replace (pre ++ a :: b :: c :: post) with ((pre ++ [a; b]) ++ c :: post)
    by now rewrite <- app_assoc.
  apply list_lookup_middle. rewrite length_app. reflexivity.
Qed.

(** Without a third dimension, the loop appends one coordinate per pair:
    the running sums of the signed deltas over [factorDegree]. *)
Lemma decodeLoop_pairs (pairs : list (Z * Z)) :
  forall (pre : list Z) (fuel : nat) (lastLat lastLng lastZ : Z) (res : list Coordinate),
  (length pairs <= fuel)%nat ->
  exists lat' lng',
    decodeLoop fuel (pre ++ flattenPairs pairs) 0 factorDegree factorZ
               (mkLoop (length pre) lastLat lastLng lastZ res)
    = mkLoop (length pre + 2 * length pairs) lat' lng' lastZ
             (res ++ map (coordinate2 factorDegree)
                         (runningSums lastLat lastLng (map signedPair pairs))).
Proof.
  induction pairs as [|[u v] pairs IH]; intros pre fuel lastLat lastLng lastZ res Hfuel.
  - exists lastLat, lastLng. cbn [flattenPairs flat_map map runningSums length].
    rewrite !app_nil_r, Nat.add_0_r.
    destruct fuel; cbn [decodeLoop ls_i]; [reflexivity|].
    now rewrite Nat.ltb_irrefl.
  - destruct fuel as [|fuel]; [cbn in Hfuel; lia|].
    cbn [flattenPairs flat_map fst snd app]. fold (flattenPairs pairs).
    cbn [decodeLoop ls_i].
    assert (Hlt : (length pre <? length (pre ++ u :: v :: flattenPairs pairs))%nat = true).
    { apply Nat.ltb_lt. rewrite length_app. cbn. lia. }
    rewrite Hlt. unfold loopBody. cbn [ls_i ls_lastLat ls_lastLng ls_lastZ ls_res].
    rewrite lookup_after, lookup_after1. cbn [Z.eqb].
    replace (pre ++ u :: v :: flattenPairs pairs)
      with ((pre ++ [u; v]) ++ flattenPairs pairs) by now rewrite <- app_assoc.
    replace (length pre + 2)%nat with (length (pre ++ [u; v]))
      by (rewrite length_app; reflexivity).
    destruct (IH (pre ++ [u; v]) fuel (lastLat + toSigned (Some u))
                 (lastLng + toSigned (Some v)) lastZ
                 (res ++ [[quot (lastLat + toSigned (Some u)) factorDegree;
                            quot (lastLng + toSigned (Some v)) factorDegree]]))
      as (lat' & lng' & Heq); [cbn in Hfuel; lia|].
    exists lat', lng'. rewrite Heq. f_equal.
    + rewrite length_app. cbn [length]. lia.
    + rewrite <- app_assoc. reflexivity.
Qed.

(** With a third dimension, one coordinate per triple. *)
Lemma decodeLoop_triples (td : Z) (triples : list (Z * Z * Z)) :
  td <> 0 ->
  forall (pre : list Z) (fuel : nat) (lastLat lastLng lastZ : Z) (res : list Coordinate),
  (length triples <= fuel)%nat ->
  exists lat' lng' z',
    decodeLoop fuel (pre ++ flattenTriples triples) td factorDegree factorZ
               (mkLoop (length pre) lastLat lastLng lastZ res)
    = mkLoop (length pre + 3 * length triples) lat' lng' z'
             (res ++ map (coordinate3 factorDegree factorZ)
                         (runningSums3 lastLat lastLng lastZ (map signedTriple triples))).
Proof.
  intros Htd.
  assert (Htdb : (td =? 0) = false) by now apply Z.eqb_neq.
  induction triples as [|[[u v] w] triples IH];
    intros pre fuel lastLat lastLng lastZ res Hfuel.
  - exists lastLat, lastLng, lastZ.
    cbn [flattenTriples flat_map map runningSums3 length].
    rewrite !app_nil_r, Nat.add_0_r.
    destruct fuel; cbn [decodeLoop ls_i]; [reflexivity|].
    now rewrite Nat.ltb_irrefl.
  - destruct fuel as [|fuel]; [cbn in Hfuel; lia|].
    cbn [flattenTriples flat_map fst snd app]. fold (flattenTriples triples).
    cbn [decodeLoop ls_i].
    assert (Hlt : (length pre <? length (pre ++ u :: v :: w :: flattenTriples triples))%nat
                  = true).
    { apply Nat.ltb_lt. rewrite length_app. cbn. lia. }
    rewrite Hlt. unfold loopBody. cbn [ls_i ls_lastLat ls_lastLng ls_lastZ ls_res].
    rewrite lookup_after, lookup_after1, lookup_after2, Htdb.
    replace (pre ++ u :: v :: w :: flattenTriples triples)
      with ((pre ++ [u; v; w]) ++ flattenTriples triples) by now rewrite <- app_assoc.
    replace (length pre + 3)%nat with (length (pre ++ [u; v; w]))
      by (rewrite length_app; reflexivity).
    destruct (IH (pre ++ [u; v; w]) fuel (lastLat + toSigned (Some u))
                 (lastLng + toSigned (Some v)) (lastZ + toSigned (Some w))
                 (res ++ [[quot (lastLat + toSigned (Some u)) factorDegree;
                            quot (lastLng + toSigned (Some v)) factorDegree;
                            quot (lastZ + toSigned (Some w)) factorZ]]))
      as (lat' & lng' & z' & Heq); [cbn in Hfuel; lia|].
    exists lat', lng', z'. rewrite Heq. f_equal.
    + rewrite length_app. cbn [length]. lia.
    + rewrite <- app_assoc. reflexivity.
Qed.

End DecodeSums.

Lemma flattenPairs_length (pairs : list (Z * Z)) :
  length (flattenPairs pairs) = (2 * length pairs)%nat.
Proof.
  unfold flattenPairs. induction pairs as [|p pairs IH]; [reflexivity|].
  cbn [flat_map app length]. rewrite IH. lia.
Qed.

Lemma flattenTriples_length (triples : list (Z * Z * Z)) :
  length (flattenTriples triples) = (3 * length triples)%nat.
Proof.
  unfold flattenTriples. induction triples as [|p triples IH]; [reflexivity|].
  cbn [flat_map app length]. rewrite IH. lia.
Qed.

Lemma decodePolyline_errors (encoded : jsstring) (e : JsError) :
  decodePolyline encoded = Throw e ->
  e = InvalidEncoding \/ e = InvalidFormatVersion \/ e = PrematureEnding.
Proof.
  unfold decodePolyline, decodeUnsignedValues.
  destruct (0 <? vs_shift (varintRun encoded)); cbn [bind].
  - intros [= <-]. now left.
  - unfold decodeIntegers, decodeHeader.
    destruct (decide _); cbn [bind].
    + destruct (decide _); [discriminate|]. intros [= <-]. now right; right.
    + intros [= <-]. now right; left.
Qed.

(** C4 (as amended). The decoder checks no geographic bounds.  For a header
    of version 1 it returns, for every list of whole groups, the running
    sums of the signed deltas divided by the power of ten of the header
    precision, whatever their magnitude; and the only errors it can throw
    are the invalid-encoding, format-version and premature-ending ones. *)
Theorem decode_returns_unchecked_sums (h : Z) :
  (forall pairs,
     Z.land (Z.shiftr (ToInt32 h) 4) 7 = 0 ->
     decodeIntegers (1 :: h :: flattenPairs pairs)
     = Ok (map (coordinate2 (10 ^ Z.land (ToInt32 h) 15))
               (runningSums 0 0 (map signedPair pairs))))
  /\ (forall triples,
        Z.land (Z.shiftr (ToInt32 h) 4) 7 <> 0 ->
        decodeIntegers (1 :: h :: flattenTriples triples)
        = Ok (map (coordinate3 (10 ^ Z.land (ToInt32 h) 15)
                               (10 ^ Z.land (Z.shiftr (ToInt32 h) 7) 15))
                  (runningSums3 0 0 0 (map signedTriple triples))))
  /\ (forall encoded decoder,
        decodeUnsignedValues encoded = Ok decoder ->
        decodePolyline encoded = decodeIntegers decoder)
  /\ (forall encoded e,
        decodePolyline encoded = Throw e ->
        e = InvalidEncoding \/ e = InvalidFormatVersion \/ e = PrematureEnding).
Proof.
  repeat split.
  - intros pairs Htd.
    rewrite decodeIntegers_valid_header by reflexivity. cbv zeta.
    unfold streamThirdDim, streamPrecision. cbn [lookup list_lookup int32_of].
    rewrite Htd.
    destruct (decodeLoop_pairs (10 ^ Z.land (ToInt32 h) 15)
                (10 ^ Z.land (Z.shiftr (ToInt32 h) 7) 15) pairs [1; h]
                (length (1 :: h :: flattenPairs pairs)) 0 0 0 [])
      as (lat' & lng' & Heq).
    { cbn [length]. rewrite flattenPairs_length. lia. }
    cbn [app] in Heq. change (length [1; h]) with 2%nat in Heq.
    rewrite Heq. cbn [ls_i ls_res app length].
    rewrite flattenPairs_length.
    destruct (decide _) as [_|Hne]; [reflexivity|lia].
  - intros triples Htd.
    rewrite decodeIntegers_valid_header by reflexivity. cbv zeta.
    unfold streamThirdDim, streamPrecision. cbn [lookup list_lookup int32_of].
    destruct (decodeLoop_triples (10 ^ Z.land (ToInt32 h) 15)
                (10 ^ Z.land (Z.shiftr (ToInt32 h) 7) 15) _ triples Htd [1; h]
                (length (1 :: h :: flattenTriples triples)) 0 0 0 [])
      as (lat' & lng' & z' & Heq).
    { cbn [length]. rewrite flattenTriples_length. lia. }
    cbn [app] in Heq. change (length [1; h]) with 2%nat in Heq.
    rewrite Heq. cbn [ls_i ls_res app length].
    rewrite flattenTriples_length.
    destruct (decide _) as [_|Hne]; [reflexivity|lia].
  - intros encoded decoder Hd. unfold decodePolyline. now rewrite Hd.
  - apply decodePolyline_errors.
Qed.

Lemma decode_returns_unchecked_sums_witness :
  decodeIntegers (1 :: 0 :: flattenPairs [(182, 0)])
  = Ok (map (coordinate2 (10 ^ Z.land (ToInt32 0) 15))
            (runningSums 0 0 (map signedPair [(182, 0)]))).
Proof.
  apply (proj1 (decode_returns_unchecked_sums 0) [(182, 0)]). reflexivity.
Defined.

(** C4 (as stated) fails: the string "BA2FA" decodes, without error, to a
    latitude of 91 degrees. *)
Lemma decode_out_of_bounds :
  exists coords,
    decodePolyline (lit "BA2FA") = Ok coords /\ ~ Forall inBounds coords.
Proof.
  exists [[(91 # 1)%Q; (0 # 1)%Q]]. split; [vm_compute; reflexivity|].
  intros Hall. inversion Hall as [|c cs Hc _]; subst.
  destruct Hc as [[_ Hle] _]. vm_compute in Hle. now apply Hle.
Qed.

(** ** The manual encoder against the decoder *)

Section Encoder.

Import APIManager.

(** The [while] loop of the unsigned varint encoder ends on its condition:
    seven iterations are never used up. *)
Lemma varintWhile_bound (fuel : nat) :
  forall (value : Z) (result : jsstring),
  value < 32 ^ Z.of_nat fuel ->
  ve_value (varintWhile fuel (mkEnc value result)) < 32.
Proof.
  induction fuel as [|fuel IH]; intros value result Hv.
  - cbn in *. lia.
  - cbn [varintWhile ve_value ve_result].
    destruct (Z.leb_spec 32 value) as [Hge|Hlt]; [|cbn; lia].
    apply IH. unfold shr32, ToUint32. change (5 mod 2 ^ 32 mod 32) with 5.
    rewrite Z.shiftr_div_pow2 by lia.
    rewrite Nat2Z.inj_succ, Z.pow_succ_r in Hv by lia.
    apply Z.div_lt_upper_bound; [lia|].
    pose proof (Z.mod_le value (2 ^ 32) ltac:(lia) ltac:(lia)). change (2 ^ 5) with 32. lia.
Qed.

Lemma varintWhile_S (fuel : nat) (st : VarintEnc) :
  varintWhile (S fuel) st =
  if 32 <=? ve_value st
  then varintWhile fuel
         (mkEnc (shr32 (ve_value st) 5)
                (ve_result st ++ fromCharCode (or32 (and32 (ve_value st) 31) (32 + 63))))
  else st.
Proof. reflexivity. Qed.

Lemma varintWhile_exits (value : Z) :
  ve_value (varintWhile 7 (mkEnc value [])) < 32.
Proof.
  rewrite (varintWhile_S 6). cbn [ve_value ve_result].
  destruct (Z.leb_spec 32 value) as [Hge|Hlt]; [|cbn [ve_value]; lia].
  apply varintWhile_bound. unfold shr32, ToUint32. change (5 mod 2 ^ 32 mod 32) with 5.
  rewrite Z.shiftr_div_pow2 by lia.
  apply Z.div_lt_upper_bound; [lia|].
  pose proof (Z.mod_pos_bound value (2 ^ 32) ltac:(lia)). lia.
Qed.

(** The loop over the coordinates only appends to [result]. *)
Lemma encodeCoord_prefix (coordinates : list (list Q)) (st : EncState) :
  exists more,
    es_result (fold_left encodeCoord coordinates st) = es_result st ++ more.
Proof.
  revert st; induction coordinates as [|coord cs IH]; intros st; cbn [fold_left].
  - exists []. now rewrite app_nil_r.
  - destruct (IH (encodeCoord st coord)) as [more Hmore]. rewrite Hmore.
    unfold encodeCoord. destruct coord as [|c0 [|c1 rest]]; try (now exists more).
    cbn [es_result]. eexists. rewrite <- !app_assoc. reflexivity.
Qed.

(** Every non-empty output of the encoder starts with the symbol 'T'
    (code 84): the header byte (1 << 4 | 5) plus 63. *)
Lemma encodeFlexPolyline_header (coordinates : list (list Q)) :
  coordinates <> [] ->
  exists more, encodeFlexPolyline coordinates = 84 :: more.
Proof.
  destruct coordinates as [|c cs]; [congruence|intros _].
  unfold encodeFlexPolyline.
  destruct (encodeCoord_prefix (c :: cs)
              (mkEncState (fromCharCode (or32 (shl32 1 4) 5 + 63)) 0 0)) as [more Hmore].
  exists more. rewrite Hmore. reflexivity.
Qed.

(** The decoder only appends to [resList]. *)
Lemma varintStep_resList (encoded : jsstring) (st : VarintState) :
  exists more,
    vs_resList (fold_left varintStep encoded st) = vs_resList st ++ more.
Proof.
  revert st; induction encoded as [|c cs IH]; intros st; cbn [fold_left].
  - exists []. now rewrite app_nil_r.
  - destruct (IH (varintStep st c)) as [more Hmore]. rewrite Hmore.
    unfold varintStep.
    destruct (Z.land (int32_of (decodeChar c)) 32 =? 0); cbn [vs_resList].
    + eexists. rewrite <- app_assoc. reflexivity.
    + now exists more.
Qed.

(** The symbol 'T' decodes to the integer 19, which the decoder then reads
    as the format version. *)
Lemma decode_after_header (more : jsstring) (decoder : list Z) :
  decodeUnsignedValues (84 :: more) = Ok decoder -> decoder !! 0%nat = Some 19.
Proof.
  unfold decodeUnsignedValues, varintRun. cbn [fold_left].
  change (varintStep (mkVarint 0 0 []) 84) with (mkVarint 0 0 [19]).
  destruct (varintStep_resList more (mkVarint 0 0 [19])) as [l Hl].
  destruct (0 <? _); [discriminate|]. intros [= <-]. now rewrite Hl.
Qed.

Lemma roundtrip_never_succeeds (coordinates : list (list Q)) :
  decodePolyline (encodeFlexPolyline coordinates) = Throw InvalidEncoding
  \/ decodePolyline (encodeFlexPolyline coordinates) = Throw InvalidFormatVersion.
Proof.
  destruct coordinates as [|c cs]; [right; reflexivity|].
  destruct (encodeFlexPolyline_header (c :: cs)) as [more Hmore]; [congruence|].
  rewrite Hmore. unfold decodePolyline.
  destruct (decodeUnsignedValues (84 :: more)) as [decoder|e] eqn:Hd; cbn [bind].
  - right. apply decode_after_header in Hd.
    unfold decodeIntegers, decodeHeader. rewrite Hd.
    destruct (decide _) as [Heq|_]; [discriminate Heq|reflexivity].
  - left. f_equal. now apply (decodeUnsignedValues_error (84 :: more)).
Qed.

(** C1. The round trip fails on the code.  Encoding the single coordinate
    (52.5, 13.4) gives "T____I____A", which the decoder rejects with the
    format-version error; no output of the encoder is ever decoded
    successfully; and the encoder maps different coordinates to the same
    string, so that no decoder could recover them. *)
Theorem roundtrip_fails :
  encodeFlexPolyline [[(525 # 10)%Q; (134 # 10)%Q]] = lit "T____I____A"
  /\ decodePolyline (encodeFlexPolyline [[(525 # 10)%Q; (134 # 10)%Q]])
     = Throw InvalidFormatVersion
  /\ (forall coordinates coords,
        decodePolyline (encodeFlexPolyline coordinates) <> Ok coords)
  /\ encodeFlexPolyline [[1%Q; 0%Q]] = encodeFlexPolyline [[(100001 # 100000)%Q; 0%Q]].
Proof.
  split; [vm_compute; reflexivity|].
  split; [vm_compute; reflexivity|].
  split; [|vm_compute; reflexivity].
  intros coordinates coords Hok.
  destruct (roundtrip_never_succeeds coordinates) as [H|H]; rewrite H in Hok; discriminate.
Qed.

End Encoder.

(** ** Forecast band selection *)

Section Bands.

Import WeatherManager.

Variable api : ApiResponse.
Variable target : Z.

Let diff : Z := target - e_dt (current api).

Lemma select_instant :
  diff < 300 ->
  selectWeatherUpTo48Hours api target = Ok (instantSample (current api)).
Proof.
  intros Hd. unfold selectWeatherUpTo48Hours. fold diff.
  destruct (Z.ltb_spec diff 300); [reflexivity|lia].
Qed.

Lemma select_minute (mins : list Minute) :
  300 <= diff <= 3600 ->
  minutely api = Some mins ->
  selectWeatherUpTo48Hours api target = minuteSample api mins diff.
Proof.
  intros Hd Hm. unfold selectWeatherUpTo48Hours. fold diff.
  destruct (Z.ltb_spec diff 300); [lia|].
  destruct (Z.leb_spec 300 diff); [|lia].
  destruct (Z.leb_spec diff 3600); [|lia].
  cbn [andb]. now rewrite Hm.
Qed.

Lemma select_hour :
  3600 < diff \/ (300 <= diff /\ minutely api = None) ->
  selectWeatherUpTo48Hours api target =
  match (match hourly api with
         | Some hs => chooseHour hs target
         | None => None
         end) with
  | Some chosen => Ok (formatHourlyData chosen)
  | None => currentFallback api
  end.
Proof.
  intros Hd. unfold selectWeatherUpTo48Hours. fold diff.
  destruct (Z.ltb_spec diff 300); [lia|].
  assert (Hgate : (if (300 <=? diff) && (diff <=? 3600) then minutely api else None) = None).
  { destruct Hd as [Hd|[Hd Hm]].
    - destruct (Z.leb_spec diff 3600); [lia|]. now rewrite andb_false_r.
    - rewrite Hm. now destruct (_ && _). }
  rewrite Hgate. now destruct (hourly api) as [[|h hs]|].
Qed.

Lemma targetMinuteOf_index (mins : list Minute) (k : Z) :
  0 <= k ->
  targetMinuteOf mins k = mins !! minuteIndex (length mins) k.
Proof.
  intros Hk. unfold targetMinuteOf, minuteIndex.
  destruct (Z.ltb_spec k (Z.of_nat (length mins))) as [Hlt|Hge].
  - destruct (mins !! Z.to_nat k) eqn:Hl; [reflexivity|].
    apply lookup_ge_None in Hl. lia.
  - rewrite (proj2 (lookup_ge_None mins (Z.to_nat k))) by lia. reflexivity.
Qed.

(** C2 (as amended). A target less than 300 seconds ahead of [now] (or in
    the past) gets the sample built from the instant band, marked current.
    For 300 <= target - now <= 3600 with a non-empty minutely array, the
    precipitation (and time stamp) of the sample come from the minutely
    entry at index floor((target - now) / 60) when that index lies inside
    the array, and from the first entry otherwise. *)
Theorem instant_and_minute_bands :
  (diff < 300 ->
   selectWeatherUpTo48Hours api target = Ok (instantSample (current api))
   /\ isCurrentData (instantSample (current api)) = true)
  /\ (forall mins,
        300 <= diff <= 3600 ->
        minutely api = Some mins ->
        mins <> [] ->
        exists s m,
          selectWeatherUpTo48Hours api target = Ok s
          /\ mins !! minuteIndex (length mins) (diff / 60) = Some m
          /\ precipitation s = or0 (m_precipitation m)
          /\ timestamp s = m_dt m
          /\ isCurrentData s = false).
Proof.
  split.
  - intros Hd. split; [now apply select_instant|reflexivity].
  - intros mins Hd Hm Hne.
    rewrite (select_minute mins Hd Hm). unfold minuteSample.
    assert (Hk : 0 <= diff / 60) by (apply Z.div_pos; lia).
    rewrite (targetMinuteOf_index mins _ Hk).
    destruct (mins !! minuteIndex (length mins) (diff / 60)) as [m|] eqn:Hl.
    + eexists. exists m. repeat split; reflexivity.
    + exfalso. apply lookup_ge_None in Hl. unfold minuteIndex in Hl.
      destruct mins as [|m0 mins]; [congruence|]. cbn [length] in Hl.
      destruct (Z.ltb_spec (diff / 60) (Z.of_nat (S (length mins)))); lia.
Qed.

End Bands.

Lemma instant_and_minute_bands_witness :
  exists s m,
    WeatherManager.selectWeatherUpTo48Hours Samples.minutePayload (Samples.T0 + 3600) = Ok s
    /\ Samples.sixtyMinutes !! 0%nat = Some m
    /\ WeatherManager.precipitation s = or0 (WeatherManager.m_precipitation m)
    /\ WeatherManager.timestamp s = WeatherManager.m_dt m
    /\ WeatherManager.isCurrentData s = false.
Proof.
  apply (proj2 (instant_and_minute_bands Samples.minutePayload (Samples.T0 + 3600))
               Samples.sixtyMinutes).
  - vm_compute. split; discriminate.
  - reflexivity.
  - discriminate.
Defined.

(** C2 (as stated) fails in its second part: with sixty minutely entries
    and a target exactly one hour ahead, the index 60 is outside the array;
    the sample takes the precipitation of entry 0 (none), not that of the
    entry at the clamped index 59 (1.5 mm). *)
Lemma minute_index_not_clamped :
  exists s mClamped,
    WeatherManager.selectWeatherUpTo48Hours Samples.minutePayload (Samples.T0 + 3600) = Ok s
    /\ Samples.sixtyMinutes !! clampIndex (length Samples.sixtyMinutes) (3600 / 60)
       = Some mClamped
    /\ ~ (WeatherManager.precipitation s
          == or0 (WeatherManager.m_precipitation mClamped))%Q.
Proof.
  eexists _, _. split; [vm_compute; reflexivity|].
  split; [vm_compute; reflexivity|].
  vm_compute. discriminate.
Qed.

(** ** The hour band *)

Section HourBand.

Import WeatherManager.

Variable target : Z.

Let notAfter (h : Entry) : Prop := e_dt h <= target.

(** Entries not after the target are passed over; the last of them is
    remembered as [prevHour]. *)
Lemma scanHours_skip (pre rest : list Entry) :
  forall prevHour,
  Forall notAfter pre ->
  scanHours (pre ++ rest) target prevHour =
  scanHours rest target (match last pre with Some h => Some h | None => prevHour end).
Proof.
  induction pre as [|h pre IH]; intros prevHour Hall; [reflexivity|].
  inversion Hall as [|? ? Hh Hpre]; subst. unfold notAfter in Hh.
  cbn [app scanHours].
  destruct (Z.leb_spec (e_dt h) target); [|lia].
  destruct (Z.ltb_spec target (e_dt h)); [lia|].
  rewrite (IH _ Hpre), last_cons. now destruct (last pre).
Qed.

Lemma chooseHour_straddle (pre post : list Entry) (p n : Entry) :
  Forall notAfter pre ->
  e_dt p <= target < e_dt n ->
  chooseHour (pre ++ p :: n :: post) target =
  Some (if 30 <? (target - e_dt p) / 60 then n else p).
Proof.
  intros Hpre [Hp Hn]. unfold chooseHour.
  rewrite (scanHours_skip pre _ None Hpre). cbn [scanHours].
  destruct (Z.leb_spec (e_dt p) target); [|lia].
  destruct (Z.ltb_spec target (e_dt p)); [lia|].
  destruct (Z.leb_spec (e_dt n) target); [lia|].
  destruct (Z.ltb_spec target (e_dt n)); [|lia].
  reflexivity.
Qed.

Lemma chooseHour_only_previous (hs : list Entry) (p : Entry) :
  Forall notAfter hs -> last hs = Some p -> chooseHour hs target = Some p.
Proof.
  intros Hall Hlast. unfold chooseHour.
  rewrite <- (app_nil_r hs), (scanHours_skip hs [] None Hall), Hlast.
  reflexivity.
Qed.

Lemma chooseHour_only_next (n : Entry) (post : list Entry) :
  target < e_dt n -> chooseHour (n :: post) target = Some n.
Proof.
  intros Hn. unfold chooseHour. cbn [scanHours].
  destruct (Z.leb_spec (e_dt n) target); [lia|].
  destruct (Z.ltb_spec target (e_dt n)); [|lia].
  reflexivity.
Qed.

Lemma whole_minutes_over_30 (elapsed : Z) :
  (30 <? elapsed / 60) = true <-> 1860 <= elapsed.
Proof.
  rewrite Z.ltb_lt. split; intros H.
  - destruct (Z.lt_ge_cases elapsed 1860) as [Hlt|]; [|assumption].
    assert (elapsed / 60 < 31) by (apply Z.div_lt_upper_bound; lia). lia.
  - assert (31 <= elapsed / 60) by (apply Z.div_le_lower_bound; lia). lia.
Qed.

Variable api : ApiResponse.

(** C7 (as amended). For a target more than one hour ahead, or at least
    five minutes ahead with no minute data, and hourly entries [hs]:
    when two consecutive entries straddle the target (and no earlier entry
    lies after it), the later one is chosen exactly when the whole minutes
    elapsed since the earlier entry, floor((target - earlier) / 60), exceed
    30, that is, when the target is at least 1860 seconds past it, and the
    earlier one otherwise; when every entry is at or before the target the
    last entry is used; when the first entry is after the target it is
    used. *)
Theorem hour_band_choice (hs : list Entry) :
  3600 < target - e_dt (current api)
  \/ (300 <= target - e_dt (current api) /\ minutely api = None) ->
  hourly api = Some hs ->
  (forall pre p n post,
     hs = pre ++ p :: n :: post ->
     Forall (fun h => e_dt h <= target) pre ->
     e_dt p <= target < e_dt n ->
     selectWeatherUpTo48Hours api target =
       Ok (formatHourlyData (if 30 <? (target - e_dt p) / 60 then n else p))
     /\ ((30 <? (target - e_dt p) / 60) = true <-> 1860 <= target - e_dt p))
  /\ (forall p,
        Forall (fun h => e_dt h <= target) hs ->
        last hs = Some p ->
        selectWeatherUpTo48Hours api target = Ok (formatHourlyData p))
  /\ (forall n post,
        hs = n :: post ->
        target < e_dt n ->
        selectWeatherUpTo48Hours api target = Ok (formatHourlyData n)).
Proof.
  intros Hd Hh. rewrite (select_hour api target Hd), Hh. repeat split.
  - subst hs. now rewrite (chooseHour_straddle pre post p n H0 H1).
  - apply whole_minutes_over_30.
  - apply whole_minutes_over_30.
  - intros p Hall Hlast. now rewrite (chooseHour_only_previous hs p Hall Hlast).
  - intros n post -> Hn. now rewrite (chooseHour_only_next n post Hn).
Qed.

End HourBand.

Lemma hour_band_choice_witness :
  WeatherManager.selectWeatherUpTo48Hours Samples.hourPayload (Samples.T0 + 7200 + 1860)
  = Ok (WeatherManager.formatHourlyData (Samples.entryAt (Samples.T0 + 10800) 3)).
Proof.
  apply (proj1 (hour_band_choice (Samples.T0 + 7200 + 1860) Samples.hourPayload
                  [Samples.entryAt (Samples.T0 + 7200) 2;
                   Samples.entryAt (Samples.T0 + 10800) 3]
                  ltac:(left; vm_compute; reflexivity) eq_refl)
               [] (Samples.entryAt (Samples.T0 + 7200) 2)
               (Samples.entryAt (Samples.T0 + 10800) 3) [] eq_refl
               ltac:(constructor)
               ltac:(vm_compute; split; [discriminate|reflexivity])).
Defined.

(** C7 (as stated) fails: 30 minutes and 30 seconds past the earlier
    entry is more than 30 minutes past it, yet the earlier entry is
    chosen. *)
Lemma half_minute_past_thirty :
  let earlier := Samples.entryAt (Samples.T0 + 7200) 2 in
  let later := Samples.entryAt (Samples.T0 + 10800) 3 in
  let target := Samples.T0 + 7200 + 1830 in
  WeatherManager.hourly Samples.hourPayload = Some [earlier; later]
  /\ 30 * 60 < target - WeatherManager.e_dt earlier
  /\ WeatherManager.selectWeatherUpTo48Hours Samples.hourPayload target
     = Ok (WeatherManager.formatHourlyData earlier)
  /\ WeatherManager.selectWeatherUpTo48Hours Samples.hourPayload target
     <> Ok (WeatherManager.formatHourlyData later).
Proof.
  cbv zeta. split; [reflexivity|]. split; [vm_compute; reflexivity|].
  split; [vm_compute; reflexivity|]. vm_compute. discriminate.
Qed.

(** ** Units of wind speed and visibility *)

Section Units.

Import WeatherManager.

Lemma scanHours_in (target : Z) (hs : list Entry) :
  forall prevHour p n,
  scanHours hs target prevHour = (p, n) ->
  (p = prevHour \/ exists x, p = Some x /\ x ∈ hs)
  /\ (n = None \/ exists x, n = Some x /\ x ∈ hs).
Proof.
  induction hs as [|h hs IH]; intros prevHour p n; cbn [scanHours].
  - intros [= <- <-]. split; now left.
  - destruct (target <? e_dt h).
    + intros [= <- <-]. split.
      * destruct (e_dt h <=? target); [right; exists h; split; [reflexivity|left]|now left].
      * right. exists h. split; [reflexivity|left].
    + intros Hscan. apply IH in Hscan as [Hp Hn]. split.
      * destruct Hp as [->|(x & -> & Hx)].
        -- destruct (e_dt h <=? target); [right; exists h; split; [reflexivity|left]|now left].
        -- right. exists x. split; [reflexivity|now right].
      * destruct Hn as [->|(x & -> & Hx)]; [now left|].
        right. exists x. split; [reflexivity|now right].
Qed.

Lemma chooseHour_in (target : Z) (hs : list Entry) (chosen : Entry) :
  chooseHour hs target = Some chosen -> chosen ∈ hs.
Proof.
  unfold chooseHour.
  destruct (scanHours hs target None) as [p n] eqn:Hscan.
  apply scanHours_in in Hscan as [Hp Hn].
  assert (Hp' : forall x, p = Some x -> x ∈ hs).
  { intros x ->. destruct Hp as [Hp|(y & [= ->] & Hy)]; [discriminate|assumption]. }
  assert (Hn' : forall x, n = Some x -> x ∈ hs).
  { intros x ->. destruct Hn as [Hn|(y & [= ->] & Hy)]; [discriminate|assumption]. }
  destruct p as [p|], n as [n|]; try discriminate.
  - intros [= <-]. destruct (30 <? _); auto.
  - intros [= <-]. auto.
  - intros [= <-]. auto.
Qed.

Lemma slowSource_in (api : ApiResponse) (minutesAhead : Z) :
  slowSource api minutesAhead = current api
  \/ exists hs, hourly api = Some hs /\ slowSource api minutesAhead ∈ hs.
Proof.
  unfold slowSource. destruct (minutesAhead <? 30); [now left|].
  destruct (hourly api) as [hs|]; [|now left].
  destruct (hs !! 1%nat) as [h|] eqn:Hl; [|now left].
  right. exists hs. split; [reflexivity|]. eapply list_elem_of_lookup_2. exact Hl.
Qed.

Lemma closestDay_in (target : Z) (ds : list Day) :
  forall acc, snd (fold_left (closerDay target) ds acc) = snd acc
              \/ snd (fold_left (closerDay target) ds acc) ∈ ds.
Proof.
  induction ds as [|d ds IH]; intros acc; cbn [fold_left]; [now left|].
  destruct (IH (closerDay target acc d)) as [Heq|Hin].
  - rewrite Heq. unfold closerDay. destruct (_ <? _); [right; left|now left].
  - right. now right.
Qed.

(** C9 (as amended). In every sample built from the instant, minute or
    hour band the wind speed is the source record's wind speed (0 when
    absent) times 3.6, the product of the two doubles, rounded to the
    nearest integer, and the visibility is the source record's visibility
    (0 when absent) divided by 1000; the source record is the current entry
    or an hourly entry.  A sample built from the day band has the same
    rounded wind speed, taken from a daily entry, and no visibility
    member. *)
Theorem wind_and_visibility_units (api : ApiResponse) (target : Z) (s : Sample) :
  (selectWeatherUpTo48Hours api target = Ok s ->
   exists src,
     (src = current api \/ exists hs, hourly api = Some hs /\ src ∈ hs)
     /\ windSpeed s = Math_round (fmul (or0 (e_wind_speed src)) (num (36 # 10)))
     /\ visibility s = Some (fdiv (or0 (e_visibility src)) (inject_Z 1000)))
  /\ (selectWeatherAfter48Hours api target = Ok s ->
      (exists ds d,
         daily api = Some ds /\ d ∈ ds
         /\ windSpeed s = Math_round (fmul (or0 (d_wind_speed d)) (num (36 # 10)))
         /\ visibility s = None)
      \/ ((daily api = None \/ daily api = Some [])
          /\ windSpeed s
             = Math_round (fmul (or0 (e_wind_speed (current api))) (num (36 # 10)))
          /\ visibility s
             = Some (fdiv (or0 (e_visibility (current api))) (inject_Z 1000)))).
Proof.
  assert (Hfallback : forall s', currentFallback api = Ok s' ->
            windSpeed s'
            = Math_round (fmul (or0 (e_wind_speed (current api))) (num (36 # 10)))
            /\ visibility s'
               = Some (fdiv (or0 (e_visibility (current api))) (inject_Z 1000))).
  { intros s'. unfold currentFallback. destruct (hourly api); [|discriminate].
    intros [= <-]. split; reflexivity. }
  split.
  - unfold selectWeatherUpTo48Hours.
    destruct (_ <? 300).
    { intros [= <-]. exists (current api). repeat split. now left. }
    destruct (if (_ && _) then minutely api else None) as [mins|].
    { unfold minuteSample. destruct (targetMinuteOf _ _); [|discriminate].
      intros [= <-]. exists (slowSource api ((target - e_dt (current api)) / 60)).
      split; [apply slowSource_in|split; reflexivity]. }
    destruct (hourly api) as [[|h hs]|] eqn:Hh.
    + intros Hs. exists (current api). split; [now left|]. now apply Hfallback.
    + destruct (chooseHour (h :: hs) target) as [chosen|] eqn:Hc.
      * intros [= <-]. exists chosen. split; [|split; reflexivity].
        right. exists (h :: hs). split; [reflexivity|]. now apply chooseHour_in in Hc.
      * intros Hs. exists (current api). split; [now left|]. now apply Hfallback.
    + unfold currentFallback. rewrite Hh. discriminate.
  - unfold selectWeatherAfter48Hours.
    destruct (daily api) as [[|d0 ds]|] eqn:Hd.
    + intros Hs. right. split; [now right|]. now apply Hfallback.
    + intros [= <-]. left. eexists. eexists. split; [reflexivity|].
      split; [|split; reflexivity].
      destruct (closestDay_in target ds (Z.abs (target - d_dt d0), d0)) as [Heq|Hin].
      * rewrite Heq. left.
      * now right.
    + intros Hs. right. split; [now left|]. now apply Hfallback.
Qed.

End Units.

Lemma wind_and_visibility_units_witness :
  exists src,
    (src = WeatherManager.current Samples.minutePayload
     \/ exists hs, WeatherManager.hourly Samples.minutePayload = Some hs /\ src ∈ hs)
    /\ WeatherManager.windSpeed (WeatherManager.instantSample (Samples.entryAt Samples.T0 1))
       = Math_round (fmul (or0 (WeatherManager.e_wind_speed src)) (num (36 # 10)))
    /\ WeatherManager.visibility (WeatherManager.instantSample (Samples.entryAt Samples.T0 1))
       = Some (fdiv (or0 (WeatherManager.e_visibility src)) (inject_Z 1000)).
Proof.
  apply (proj1 (wind_and_visibility_units Samples.minutePayload Samples.T0
                  (WeatherManager.instantSample (Samples.entryAt Samples.T0 1)))).
  reflexivity.
Defined.

(** Doubles at work: 0.6944444444444444 m/s times 3.6 is 2.5 in doubles,
    which rounds to 3; the exact product of the two doubles is below 2.5
    and would round to 2. *)
Example wind_speed_doubles :
  let w := num (6944444444444444 # 10000000000000000) in
  WeatherManager.kmh (Some w) = 3
  /\ fmul w (num (36 # 10)) = (5 # 2)%Q
  /\ Math_round (w * num (36 # 10))%Q = 2.
Proof. cbv zeta. repeat split; vm_compute; reflexivity. Qed.

(** C9 (as stated) fails: a wind of 1 m/s gives a wind speed of 4 in the
    sample, not 3.6, and the sample of the day band has no visibility. *)
Lemma wind_speed_is_rounded :
  exists s d,
    WeatherManager.selectWeatherUpTo48Hours Samples.minutePayload Samples.T0 = Ok s
    /\ WeatherManager.e_wind_speed (WeatherManager.current Samples.minutePayload) = Some 1%Q
    /\ WeatherManager.windSpeed s = 4
    /\ ~ (inject_Z (WeatherManager.windSpeed s) == 1 * (36 # 10))%Q
    /\ WeatherManager.selectWeatherAfter48Hours Samples.dayPayload (Samples.T0 + 200000) = Ok d
    /\ WeatherManager.visibility d = None.
Proof.
  eexists. eexists. split; [vm_compute; reflexivity|].
  split; [reflexivity|]. split; [vm_compute; reflexivity|].
  split; [vm_compute; discriminate|].
  split; [vm_compute; reflexivity|reflexivity].
Qed.

(** ** The synthetic fallback sample *)

Section Demo.

Import WeatherManager.

Lemma Math_round_bounds (q : Q) (a b : Z) :
  (inject_Z a <= q)%Q -> (q < inject_Z b + (1 # 2))%Q -> a <= Math_round q <= b.
Proof.
  intros Ha Hb. unfold Math_round. split.
  - rewrite <- (Qfloor_Z a). apply Qfloor_resp_le. lra.
  - assert (H : (inject_Z (Qfloor (q + (1 # 2))) < inject_Z (b + 1))%Q).
    { eapply Qle_lt_trans; [apply Qfloor_le|]. rewrite inject_Z_plus.
      change (inject_Z 1) with 1%Q. lra. }
    rewrite <- Zlt_Qlt in H. lia.
Qed.

Lemma Math_round_bounds_Q (q : Q) (a b : Z) :
  (inject_Z a <= q)%Q -> (q < inject_Z b + (1 # 2))%Q ->
  (inject_Z a <= inject_Z (Math_round q) <= inject_Z b)%Q.
Proof.
  intros Ha Hb. destruct (Math_round_bounds q a b Ha Hb).
  split; now rewrite <- Zle_Qle.
Qed.

Lemma description_index (r : Q) :
  (0 <= r < 1)%Q ->
  exists d,
    index ["Clear sky"; "Partly cloudy"; "Cloudy"; "Light rain"]%string
          (Math_floor (r * inject_Z 4)%Q) = Some d
    /\ d ∈ ["Clear sky"; "Partly cloudy"; "Cloudy"; "Light rain"]%string.
Proof.
  intros Hr. unfold Math_floor.
  assert (Hlo : 0 <= Qfloor (r * inject_Z 4)).
  { rewrite <- (Qfloor_Z 0). apply Qfloor_resp_le. unfold inject_Z. lra. }
  assert (Hhi : Qfloor (r * inject_Z 4) < 4).
  { rewrite Zlt_Qlt. eapply Qle_lt_trans; [apply Qfloor_le|]. unfold inject_Z. lra. }
  assert (Hk : Qfloor (r * inject_Z 4) = 0 \/ Qfloor (r * inject_Z 4) = 1
               \/ Qfloor (r * inject_Z 4) = 2 \/ Qfloor (r * inject_Z 4) = 3) by lia.
  destruct Hk as [-> | [-> | [-> | ->]]]; eexists; (split; [reflexivity|]);
    repeat first [apply list_elem_of_here | apply list_elem_of_further].
Qed.

Variable rnd : nat -> Q.
Hypothesis rnd_unit : forall k, (0 <= rnd k < 1)%Q.

Lemma qgtb_true (a b : Q) : Qgtb a b = true -> (b < a)%Q.
Proof.
  unfold Qgtb. intros H. apply Qnot_le_lt. intros Hle.
  apply Qle_bool_iff in Hle. rewrite Hle in H. discriminate.
Qed.

Lemma scaled_unit (r : Q) (k : Z) :
  (0 <= k < 2 ^ 53) -> (0 <= r < 1)%Q ->
  (0 <= fmul r (inject_Z k) <= inject_Z k)%Q.
Proof.
  intros Hk Hr. change 0%Q with (inject_Z 0) at 1.
  apply round64_between; [lia..|].
  assert (0 <= inject_Z k)%Q by (change 0%Q with (inject_Z 0); rewrite <- Zle_Qle; lia).
  change (inject_Z 0) with 0%Q. split; nra.
Qed.

Lemma shifted_unit (r : Q) (c k s : Z) :
  0 <= c -> (0 <= k) -> s = c + k -> s < 2 ^ 53 -> (0 <= r < 1)%Q ->
  (inject_Z c <= fadd (inject_Z c) (fmul r (inject_Z k)) <= inject_Z s)%Q.
Proof.
  intros Hc Hk -> Hs Hr. apply round64_between; [lia..|].
  destruct (scaled_unit r k ltac:(lia) Hr) as [H0 H1].
  rewrite inject_Z_plus. split; lra.
Qed.

Ltac unit_facts :=
  repeat match goal with
         | |- context [fadd (inject_Z ?c) (fmul (rnd ?i) (inject_Z ?k))] =>
             lazymatch goal with
             | _ : (inject_Z c <= fadd (inject_Z c) (fmul (rnd i) (inject_Z k)) <= _)%Q |- _ =>
                 fail
             | _ =>
                 let s := eval cbv in (c + k) in
                 pose proof (shifted_unit (rnd i) c k s ltac:(lia) ltac:(lia) eq_refl
                               ltac:(lia) (rnd_unit i))
             end
         | |- context [fmul (rnd ?i) (inject_Z ?k)] =>
             lazymatch goal with
             | _ : (0 <= fmul (rnd i) (inject_Z k) <= _)%Q |- _ => fail
             | _ => pose proof (scaled_unit (rnd i) k ltac:(lia) (rnd_unit i))
             end
         end.

Ltac q_bounds := unit_facts; unfold inject_Z in *; lra.

Ltac round_bounds :=
  unit_facts;
  first [ apply Math_round_bounds; unfold inject_Z in *; lra
        | apply Math_round_bounds_Q; unfold inject_Z in *; lra
        | change 0%Q with (inject_Z 0); apply Math_round_bounds_Q; unfold inject_Z in *; lra ].

Lemma generateDemoWeatherPoint_ranges (clock : Z) (n : nat) :
  demoRanges clock (fst (generateDemoWeatherPoint clock rnd n)).
Proof.
  unfold generateDemoWeatherPoint, bindR, Math_random, ret.
  destruct (Qgtb (num (3 # 10)) (rnd (S (S (S (S (S n))))))) eqn:Hp;
    match goal with |- context [Qgtb (rnd ?k) (num (2 # 10))] =>
      destruct (Qgtb (rnd k) (num (2 # 10))) eqn:Hg end;
    match goal with |- context [Qgtb (rnd ?k) (num (1 # 10))] =>
      destruct (Qgtb (rnd k) (num (1 # 10))) eqn:Hw end;
    cbn [fst temperature description humidity windSpeed visibility precipitation
         rainProbability feelsLike windGust windDeg timestamp isCurrentData];
    unfold demoRanges;
    cbn [fst temperature description humidity windSpeed visibility precipitation
         rainProbability feelsLike windGust windDeg timestamp isCurrentData];
    (split; [q_bounds|]);
    (split; [apply description_index; apply rnd_unit|]);
    (split; [q_bounds|]);
    (split; [round_bounds|]);
    (split; [eexists; split; [reflexivity|q_bounds]|]);
    (split; [q_bounds|]);
    (split; [round_bounds|]);
    (split; [eexists; split; [reflexivity|round_bounds]|]);
    (split; [first [intros g [= <-]; round_bounds | intros g Hg'; discriminate Hg']|]);
    (split; [first [intros d [= <-]; round_bounds | intros d Hd'; discriminate Hd']|]);
    split; reflexivity.
Qed.

Lemma retrievalFails_throws (outcome : FetchOutcome) (timestamp : Z) :
  retrievalFails outcome -> exists e, fetchAndSelect outcome timestamp = Throw e.
Proof.
  destruct outcome as [|ok json]; cbn [retrievalFails fetchAndSelect]; [eauto|].
  intros [-> | ->]; [eauto|]. destruct ok; cbn [negb]; eauto.
Qed.

Lemma getWeatherAtPoint_catch (outcome : FetchOutcome) (targetTime : option Z)
    (clock : Z) (e : JsError) :
  fetchAndSelect outcome (match targetTime with Some t => t | None => clock / 1000 end)
  = Throw e ->
  getWeatherAtPoint outcome targetTime clock = generateDemoWeatherPoint clock.
Proof. intros H. unfold getWeatherAtPoint. now rewrite H. Qed.

Lemma mapR_length {A B} (f : A -> Rand B) (l : list A) :
  forall n, length (fst (mapR f l rnd n)) = length l.
Proof.
  induction l as [|a l IH]; intros n; [reflexivity|].
  cbn [mapR]. unfold bindR at 1. destruct (f a rnd n) as [b n1].
  unfold bindR. specialize (IH n1). destruct (mapR f l rnd n1) as [bs n2].
  cbn in *. now rewrite IH.
Qed.

Lemma mapR_Forall {A B} (P : B -> Prop) (f : A -> Rand B) (l : list A) :
  (forall a n, a ∈ l -> P (fst (f a rnd n))) ->
  forall n, Forall P (fst (mapR f l rnd n)).
Proof.
  induction l as [|a l IH]; intros Hf n; [constructor|].
  cbn [mapR]. unfold bindR at 1.
  pose proof (Hf a n ltac:(left)) as Ha. destruct (f a rnd n) as [b n1].
  unfold bindR. 
  assert (IH' := IH (fun a' n' Hin => Hf a' n' (list_elem_of_further _ _ _ Hin)) n1).
  destruct (mapR f l rnd n1) as [bs n2]. cbn in *. now constructor.
Qed.

(** C8. When weather retrieval fails for a waypoint, and more generally
    whenever anything is thrown while the forecast is fetched and selected,
    the lookup returns the synthetic sample, whose members lie in the
    ranges of the generator; the per-route lookup returns one sample per
    waypoint, all of them synthetic and in range when every retrieval
    fails.  The lookup is a total function: it has no error result. *)
Theorem retrieval_failure_gives_demo_sample
    (outcome : FetchOutcome) (targetTime : option Z) (clock : Z) (n : nat) :
  (retrievalFails outcome ->
   getWeatherAtPoint outcome targetTime clock rnd n = generateDemoWeatherPoint clock rnd n
   /\ demoRanges clock (fst (getWeatherAtPoint outcome targetTime clock rnd n)))
  /\ (forall e,
        fetchAndSelect outcome
          (match targetTime with Some t => t | None => clock / 1000 end) = Throw e ->
        getWeatherAtPoint outcome targetTime clock rnd n
        = generateDemoWeatherPoint clock rnd n)
  /\ (forall net waypoints,
        length (fst (getWeatherAlongRouteWithTiming net clock waypoints rnd n))
        = length waypoints
        /\ ((forall lat lng, retrievalFails (net lat lng)) ->
            Forall (demoRanges clock)
                   (fst (getWeatherAlongRouteWithTiming net clock waypoints rnd n)))).
Proof.
  assert (Hfail : forall o t k, retrievalFails o ->
            getWeatherAtPoint o t clock rnd k = generateDemoWeatherPoint clock rnd k).
  { intros o t k Ho.
    destruct (retrievalFails_throws o (match t with Some x => x | None => clock / 1000 end) Ho)
      as [e He].
    now rewrite (getWeatherAtPoint_catch o t clock e He). }
  split; [|split].
  - intros Ho. split; [now apply Hfail|].
    rewrite (Hfail _ _ _ Ho). apply generateDemoWeatherPoint_ranges.
  - intros e He. now rewrite (getWeatherAtPoint_catch outcome targetTime clock e He).
  - intros net waypoints. split; [apply mapR_length|].
    intros Hnet. apply mapR_Forall. intros a k _.
    rewrite (Hfail _ _ _ (Hnet _ _)). apply generateDemoWeatherPoint_ranges.
Qed.

End Demo.

(** ** Waypoint timings *)

Section Timings.

Import RouteManager.

Lemma qgtb_false (a b : Q) : WeatherManager.Qgtb a b = false -> (a <= b)%Q.
Proof.
  unfold WeatherManager.Qgtb. intros H. apply Qle_bool_iff.
  now destruct (Qle_bool a b).
Qed.

Lemma lastDistancePositive_some (ws : list Waypoint) (wl : Waypoint) (L : Q) :
  last ws = Some wl -> distance wl = Some L -> (0 < L)%Q ->
  lastDistancePositive ws = Some L.
Proof.
  intros Hl Hd HL. unfold lastDistancePositive. rewrite Hl, Hd.
  destruct (WeatherManager.Qgtb L 0) eqn:Hg; [reflexivity|].
  apply qgtb_false in Hg. lra.
Qed.

Lemma lastDistancePositive_none (ws : list Waypoint) :
  (forall wl L, last ws = Some wl -> distance wl = Some L -> ~ (0 < L)%Q) ->
  lastDistancePositive ws = None.
Proof.
  intros H. unfold lastDistancePositive.
  destruct (last ws) as [wl|]; [|reflexivity].
  destruct (distance wl) as [L|] eqn:Hd; [|reflexivity].
  destruct (WeatherManager.Qgtb L 0) eqn:Hg; [|reflexivity].
  apply qgtb_true in Hg. now destruct (H wl L eq_refl Hd).
Qed.

Lemma timings_lookup (ws : list Waypoint) (totalDuration : option Q)
    (departureTime : Z) (i : nat) :
  calculateWaypointTimings ws totalDuration departureTime !! i =
  (fun w =>
     mkTimed w
       (departureTime / 1000
        + Math_round (fmul (match totalDuration with Some t => t | None => 0%Q end)
                           (progressOf ws i w)))
       (progressOf ws i w)) <$> ws !! i.
Proof. unfold calculateWaypointTimings. now rewrite list_lookup_imap. Qed.

(** The calculator of the same name in the weather class: progress by
    index, arrival time not rounded. *)
Lemma legacy_timings_lookup (route : WeatherManager.Route) (departureTime : Z)
    (i : nat) (p : Q * Q) :
  (2 <= length (WeatherManager.routeWaypoints route))%nat ->
  WeatherManager.routeWaypoints route !! i = Some p ->
  WeatherManager.calculateWaypointTimings route departureTime !! i
  = Some (WeatherManager.mkIndexedPoint (fst p) (snd p)
            (Some (fadd (inject_Z (departureTime / 1000))
                        (fmul (fmul (WeatherManager.durationMin route) (inject_Z 60))
                              (fdiv (inject_Z (Z.of_nat i))
                                    (inject_Z (Z.of_nat (length (WeatherManager.routeWaypoints
                                                                   route)) - 1))))))
            i).
Proof.
  intros Hn Hp. unfold WeatherManager.calculateWaypointTimings, WeatherManager.indexProgress.
  rewrite list_lookup_imap, Hp.
  destruct (Nat.eqb_spec (length (WeatherManager.routeWaypoints route)) 1); [lia|].
  reflexivity.
Qed.

(** C10 (as amended). For at least two waypoints the timing calculator of
    the route class returns one record per waypoint, in the original
    order, each carrying its waypoint unchanged; the progress of waypoint
    [i] is distance[i] / distance[last] when its distance is known and the
    last distance is positive, and i / (n - 1) otherwise; the estimated
    arrival is the departure epoch (whole seconds) plus the rounded product
    of total duration and progress; quotient and product are those of
    double arithmetic.  The calculator of the same name in the weather
    class also keeps the order, but always uses i / (n - 1) and adds the
    product to the departure epoch without rounding it. *)
Theorem waypoint_timings (ws : list Waypoint) (totalDurationSeconds : Q)
    (departureTime : Z) (route : WeatherManager.Route) :
  (2 <= length ws)%nat ->
  (2 <= length (WeatherManager.routeWaypoints route))%nat ->
  let timed := calculateWaypointTimings ws (Some totalDurationSeconds) departureTime in
  let legacy := WeatherManager.calculateWaypointTimings route departureTime in
  length timed = length ws
  /\ map base timed = ws
  /\ (forall i w,
        ws !! i = Some w ->
        exists tw,
          timed !! i = Some tw
          /\ base tw = w
          /\ (forall d wl L,
                distance w = Some d -> last ws = Some wl -> distance wl = Some L ->
                (0 < L)%Q ->
                progress tw = fdiv d L)
          /\ (distance w = None
              \/ (forall wl L, last ws = Some wl -> distance wl = Some L -> ~ (0 < L)%Q) ->
              progress tw
              = fdiv (inject_Z (Z.of_nat i)) (inject_Z (Z.of_nat (length ws) - 1)))
          /\ estimatedArrivalTime tw
             = departureTime / 1000
               + Math_round (fmul totalDurationSeconds (progress tw)))
  /\ length legacy = length (WeatherManager.routeWaypoints route)
  /\ (forall i p,
        WeatherManager.routeWaypoints route !! i = Some p ->
        exists tp,
          legacy !! i = Some tp
          /\ WeatherManager.ip_lat tp = fst p /\ WeatherManager.ip_lng tp = snd p
          /\ WeatherManager.ip_index tp = i
          /\ WeatherManager.ip_estimatedArrivalTime tp
             = Some (fadd (inject_Z (departureTime / 1000))
                          (fmul (fmul (WeatherManager.durationMin route) (inject_Z 60))
                                (fdiv (inject_Z (Z.of_nat i))
                                      (inject_Z (Z.of_nat (length (WeatherManager.routeWaypoints
                                                                     route)) - 1)))))).
Proof.
  intros Hn Hm timed legacy. subst timed legacy. split; [|split; [|split; [|split]]].
  - unfold calculateWaypointTimings. apply length_imap.
  - apply list_eq. intros i. rewrite list_lookup_fmap, timings_lookup.
    now destruct (ws !! i).
  - intros i w Hw. rewrite timings_lookup, Hw. cbn [fmap option_fmap option_map].
    eexists. split; [reflexivity|]. cbn [base progress estimatedArrivalTime].
    split; [reflexivity|]. split; [|split; [|reflexivity]].
    + intros d wl L Hd Hl HL Hpos. unfold progressOf.
      now rewrite Hd, (lastDistancePositive_some ws wl L Hl HL Hpos).
    + intros Hother. unfold progressOf.
      replace (Z.max 1 (Z.of_nat (length ws) - 1)) with (Z.of_nat (length ws) - 1) by lia.
      destruct Hother as [-> | Hlast]; [reflexivity|].
      rewrite (lastDistancePositive_none ws Hlast). now destruct (distance w).
  - unfold WeatherManager.calculateWaypointTimings. apply length_imap.
  - intros i p Hp. rewrite (legacy_timings_lookup route departureTime i p Hm Hp).
    eexists. split; [reflexivity|]. repeat split.
Qed.

End Timings.

Lemma waypoint_timings_witness :
  length (RouteManager.calculateWaypointTimings
            [ RouteManager.mkWaypoint 52 13 0 (Some 0%Q) "origin";
              RouteManager.mkWaypoint 53 14 7 (Some (inject_Z 2500)) "intermediate";
              RouteManager.mkWaypoint 54 15 9 (Some (inject_Z 10000)) "destination" ]
            (Some (inject_Z 3600)) 1700000000123)
  = 3%nat.
Proof.
  apply (waypoint_timings
           [ RouteManager.mkWaypoint 52 13 0 (Some 0%Q) "origin";
             RouteManager.mkWaypoint 53 14 7 (Some (inject_Z 2500)) "intermediate";
             RouteManager.mkWaypoint 54 15 9 (Some (inject_Z 10000)) "destination" ]
           (inject_Z 3600) 1700000000123
           (WeatherManager.mkRoute 60 [(52, 13); (53, 14); (54, 15)]%Q)).
  - cbn. lia.
  - cbn. lia.
Defined.

Example waypoint_timings_demo :
  map RouteManager.estimatedArrivalTime
      (RouteManager.calculateWaypointTimings
         [ RouteManager.mkWaypoint 52 13 0 (Some 0%Q) "origin";
           RouteManager.mkWaypoint 53 14 7 (Some (inject_Z 2500)) "intermediate";
           RouteManager.mkWaypoint 54 15 9 (Some (inject_Z 10000)) "destination" ]
         (Some (inject_Z 3600)) 1700000000123)
  = [1700000000; 1700000900; 1700003600].
Proof. vm_compute. reflexivity. Qed.

(** Doubles at work: 45 seconds and distances 0, 700 and 1000.  The
    quotient 700 / 1000 is the double just below 7/10, the product is
    31.499999999999996, and the second waypoint is reached 31 seconds after
    the departure, where the exact product 31.5 would round to 32. *)
Example waypoint_timings_doubles :
  map RouteManager.estimatedArrivalTime
      (RouteManager.calculateWaypointTimings
         [ RouteManager.mkWaypoint 52 13 0 (Some 0%Q) "origin";
           RouteManager.mkWaypoint 53 14 7 (Some (inject_Z 700)) "intermediate";
           RouteManager.mkWaypoint 54 15 9 (Some (inject_Z 1000)) "destination" ]
         (Some (inject_Z 45)) 1700000000000)
  = [1700000000; 1700000031; 1700000045]
  /\ Math_round (inject_Z 45 * (inject_Z 700 / inject_Z 1000))%Q = 32.
Proof. split; vm_compute; reflexivity. Qed.

(** C10 (as stated) fails for the calculator of the weather class, which
    the claim also cites: for a route of five waypoints and 1.5 minutes,
    the second waypoint (index 1, progress 1/4) gets the arrival time
    departure + 22.5, not departure + round(90 * 1/4) = departure + 23. *)
Lemma legacy_arrival_not_rounded :
  let route := WeatherManager.mkRoute (3 # 2) [(52, 13); (52, 14); (52, 15); (52, 16); (52, 17)]%Q in
  let departureTime := 1700000000000 in
  exists tp,
    WeatherManager.calculateWaypointTimings route departureTime !! 1%nat = Some tp
    /\ WeatherManager.ip_estimatedArrivalTime tp = Some (3400000045 # 2)%Q
    /\ departureTime / 1000
       + Math_round (fmul (fmul (3 # 2) (inject_Z 60)) (fdiv (inject_Z 1) (inject_Z 4)))
       = 1700000023
    /\ ~ (3400000045 # 2 == inject_Z 1700000023)%Q.
Proof.
  cbv zeta. eexists. split; [vm_compute; reflexivity|].
  split; [reflexivity|]. split; [vm_compute; reflexivity|].
  vm_compute. discriminate.
Qed.

Lemma retrieval_failure_gives_demo_sample_witness :
  demoRanges 1700000000123
    (fst (WeatherManager.getWeatherAtPoint WeatherManager.FetchRejected (Some 1700003600)
            1700000000123 (fun _ => (1 # 2)%Q) 0%nat)).
Proof.
  apply (proj1 (retrieval_failure_gives_demo_sample (fun _ => (1 # 2)%Q)
                  ltac:(intros k; unfold Qle, Qlt; cbn; lia)
                  WeatherManager.FetchRejected (Some 1700003600) 1700000000123 0%nat)).
  exact I.
Defined.

(** ** Deduplication of waypoints *)

Section Deduplication.

Import RouteManager.

Variable numberToString : Q -> jsstring.

Local Abbreviation key := (cleanLocationKey numberToString).
Local Abbreviation run := (dedupRun numberToString).
Local Abbreviation step := (dedupStep numberToString).

Lemma dedupRun_snoc (pre : list RoutePoint) (w : RoutePoint) :
  run (pre ++ [w]) = step (run pre) w.
Proof. unfold dedupRun. now rewrite fold_left_app. Qed.

(** The loop only appends to [uniqueWaypoints]. *)
Lemma dedupStep_extends (st : DedupState) (w : RoutePoint) :
  exists more, uniqueWaypoints (step st w) = uniqueWaypoints st ++ more.
Proof.
  unfold dedupStep.
  repeat match goal with
         | |- context [if ?b then _ else _] => destruct b
         | |- context [match ?o with Some _ => _ | None => _ end] => destruct o
         end; cbn [uniqueWaypoints];
    first [now exists [w] | exists []; now rewrite app_nil_r].
Qed.

Lemma dedupFold_extends (ws : list RoutePoint) (st : DedupState) :
  exists more,
    uniqueWaypoints (fold_left step ws st) = uniqueWaypoints st ++ more.
Proof.
  revert st; induction ws as [|w ws IH]; intros st; cbn [fold_left].
  - exists []. now rewrite app_nil_r.
  - destruct (IH (step st w)) as [more Hmore].
    destruct (dedupStep_extends st w) as [more0 Hmore0].
    exists (more0 ++ more). now rewrite Hmore, Hmore0, app_assoc.
Qed.




(** *** The normalization of a location text *)























End Deduplication.



Example dedup_demo :
  RouteManager.uniqueWaypoints (RouteManager.dedupRun Samples.showNumber Samples.townRoute)
  = [ Samples.routePoint "origin" "Potsdam" 0;
      Samples.routePoint "intermediate" "Berlin" 500;
      Samples.routePoint "intermediate" "Berlin" 3000;
      Samples.routePoint "destination" "Berlin" 3500 ].
Proof. vm_compute. reflexivity. Qed.

(** ** Further properties of the polyline decoder *)

Section DecoderFacts.

Lemma decodeChar_range (c v : Z) :
  decodeChar c = Some v -> 45 <= c <= 122 /\ DECODING_TABLE !! Z.to_nat (c - 45) = Some v.
Proof.
  unfold decodeChar. destruct (Z.ltb_spec (c - 45) 0); [discriminate|].
  intros Hl. split; [|exact Hl].
  apply lookup_lt_Some in Hl. change (length DECODING_TABLE) with 78%nat in Hl. lia.
Qed.

Lemma table_check :
  forallb (fun n : nat =>
             match DECODING_TABLE !! n with
             | Some v =>
                 (v =? -1)
                 || ((0 <=? v) && (v <=? 63)
                     && bool_decide (ALPHABET !! Z.to_nat v = Some (45 + Z.of_nat n)))
             | None => false
             end)
          (seq 0 78) = true.
Proof. vm_compute. reflexivity. Qed.

Lemma alphabet_check :
  forallb (fun n : nat =>
             match ALPHABET !! n with
             | Some c => bool_decide (decodeChar c = Some (Z.of_nat n))
             | None => false
             end)
          (seq 0 64) = true.
Proof. vm_compute. reflexivity. Qed.

(** The decoding table is the inverse of the alphabet A-Z a-z 0-9 - _ :
    a code unit decodes to a value v >= 0 exactly when it is the v-th symbol
    of the alphabet, and every other code unit gives -1 or undefined. *)
Theorem decodeChar_alphabet (c : Z) :
  (forall v, decodeChar c = Some v -> v = -1 \/ 0 <= v <= 63)
  /\ (forall v, 0 <= v -> (decodeChar c = Some v <-> ALPHABET !! Z.to_nat v = Some c)).
Proof.
  assert (Htab : forall v, decodeChar c = Some v ->
            v = -1 \/ (0 <= v <= 63 /\ ALPHABET !! Z.to_nat v = Some c)).
  { intros v Hv. apply decodeChar_range in Hv as [Hc Hl].
    pose proof table_check as Hall. rewrite forallb_forall in Hall.
    specialize (Hall (Z.to_nat (c - 45))). rewrite Hl in Hall.
    assert (Hin : In (Z.to_nat (c - 45)) (seq 0 78)) by (apply in_seq; lia).
    apply Hall in Hin. rewrite Z2Nat.id in Hin by lia.
    apply orb_true_iff in Hin as [Hm|Hok]; [left; lia|right].
    apply andb_true_iff in Hok as [Hr Ha]. apply andb_true_iff in Hr as [H0 H63].
    apply bool_decide_eq_true in Ha.
    replace (45 + (c - 45)) with c in Ha by lia. split; [lia|exact Ha]. }
  split.
  - intros v Hv. destruct (Htab v Hv) as [?|[? _]]; auto.
  - intros v Hv. split.
    + intros Hd. destruct (Htab v Hd) as [?|[_ Ha]]; [lia|exact Ha].
    + intros Ha. pose proof (lookup_lt_Some _ _ _ Ha) as Hlt.
      change (length ALPHABET) with 64%nat in Hlt.
      pose proof alphabet_check as Hall. rewrite forallb_forall in Hall.
      specialize (Hall (Z.to_nat v)). rewrite Ha in Hall.
      assert (Hin : In (Z.to_nat v) (seq 0 64)) by (apply in_seq; lia).
      apply Hall, bool_decide_eq_true in Hin. now rewrite Z2Nat.id in Hin by lia.
Qed.

Lemma decodeChar_alphabet_witness :
  decodeChar 84 = Some 19 <-> ALPHABET !! Z.to_nat 19 = Some 84.
Proof. apply (proj2 (decodeChar_alphabet 84) 19). lia. Defined.

Lemma land_mask_bounds (x : Z) (n : Z) :
  0 <= n -> 0 <= Z.land x (Z.ones n) < 2 ^ n.
Proof.
  intros Hn. rewrite Z.land_ones by assumption. apply Z.mod_pos_bound. lia.
Qed.

Lemma header_word_split (word : Z) :
  0 <= word < 2048 ->
  word = Z.land word 15 + 16 * Z.land (Z.shiftr word 4) 7
         + 128 * Z.land (Z.shiftr word 7) 15.
Proof.
  intros Hw.
  change 15 with (Z.ones 4). change 7 with (Z.ones 3) at 1.
  rewrite !Z.land_ones, !Z.shiftr_div_pow2 by lia.
  change (2 ^ 4) with 16. change (2 ^ 3) with 8. change (2 ^ 7) with 128.
  Z.to_euclidean_division_equations. lia.
Qed.

(** The header word is accepted only for format version 1; the fields
    read from it lie in 0..15, 0..7 and 0..15, and for a word below 2^11
    they determine it: word = precision + 16 * thirdDim
    + 128 * thirdDimPrecision. *)
Theorem decodeHeader_fields (version : option Z) (word : Z) :
  (version <> Some 1 -> decodeHeader version (Some word) = Throw InvalidFormatVersion)
  /\ (forall header,
        decodeHeader version (Some word) = Ok header ->
        version = Some 1
        /\ 0 <= precision header <= 15
        /\ 0 <= thirdDim header <= 7
        /\ 0 <= thirdDimPrecision header <= 15
        /\ (0 <= word < 2 ^ 11 ->
            word = precision header + 16 * thirdDim header
                   + 128 * thirdDimPrecision header)).
Proof.
  unfold decodeHeader, FORMAT_VERSION. split.
  - intros Hv. now destruct (decide (version = Some 1)).
  - intros header. destruct (decide (version = Some 1)) as [Hv|]; [|discriminate].
    intros [= <-]. cbn [precision thirdDim thirdDimPrecision int32_of].
    pose proof (land_mask_bounds (ToInt32 word) 4 ltac:(lia)) as H1.
    pose proof (land_mask_bounds (Z.shiftr (ToInt32 word) 4) 3 ltac:(lia)) as H2.
    pose proof (land_mask_bounds (Z.shiftr (ToInt32 word) 7) 4 ltac:(lia)) as H3.
    change (Z.ones 4) with 15 in *. change (Z.ones 3) with 7 in *.
    change (2 ^ 4) with 16 in *. change (2 ^ 3) with 8 in *.
    repeat split; try lia; try assumption.
    intros Hw.
    assert (Hi : ToInt32 word = word).
    { unfold ToInt32. change (2 ^ 11) with 2048 in Hw.
      rewrite Z.mod_small by lia. destruct (Z.leb_spec (2 ^ 31) word); lia. }
    rewrite Hi. apply header_word_split. change (2 ^ 11) with 2048 in Hw. lia.
Qed.

Lemma decodeHeader_fields_witness :
  decodeHeader (Some 2) (Some 5) = Throw InvalidFormatVersion.
Proof. apply (proj1 (decodeHeader_fields (Some 2) 5)). discriminate. Defined.

End DecoderFacts.

Section VarintValues.

(** The decoder emits one integer per symbol whose continuation bit is
    clear, so a decoded list is never longer than the input. *)
Lemma varintRun_count (encoded : jsstring) :
  length (vs_resList (varintRun encoded))
  = length (List.filter (fun c => negb (continuationBit c)) encoded).
Proof.
  induction encoded as [|c pre IH] using rev_ind; [reflexivity|].
  rewrite varintRun_snoc, List.filter_app, length_app, <- IH.
  unfold varintStep, continuationBit. cbn [List.filter].
  destruct (Z.land (int32_of (decodeChar c)) 32 =? 0); cbn [negb vs_resList length].
  - rewrite length_app. reflexivity.
  - lia.
Qed.

(** A successful run of the varint stream decoder returns exactly one
    integer per input symbol whose continuation bit is clear; the list of
    integers is therefore never longer than the input string. *)
Theorem decoded_integer_count (encoded : jsstring) (decoder : list Z) :
  decodeUnsignedValues encoded = Ok decoder ->
  length decoder = length (List.filter (fun c => negb (continuationBit c)) encoded)
  /\ (length decoder <= length encoded)%nat.
Proof.
  intros Hd.
  destruct (decodeUnsignedValues_cases encoded) as [[_ He]|[_ He]];
    rewrite He in Hd; [discriminate|]. injection Hd as <-.
  rewrite varintRun_count. split; [reflexivity|]. apply List.filter_length_le.
Qed.

Lemma decoded_integer_count_witness :
  length [1; 0; 182; 0] = length (List.filter (fun c => negb (continuationBit c)) (lit "BA2FA"))
  /\ (length [1; 0; 182; 0] <= length (lit "BA2FA"))%nat.
Proof. apply (decoded_integer_count (lit "BA2FA") [1; 0; 182; 0]). reflexivity. Defined.

Lemma ToInt32_small (x : Z) : - 2 ^ 31 <= x < 2 ^ 31 -> ToInt32 x = x.
Proof.
  intros Hx. unfold ToInt32.
  destruct (Z.lt_ge_cases x 0) as [Hneg|Hpos].
  - replace (x mod 2 ^ 32) with (x + 2 ^ 32).
    + destruct (Z.leb_spec (2 ^ 31) (x + 2 ^ 32)); lia.
    + apply Z.mod_unique with (q := -1); lia.
  - rewrite Z.mod_small by lia. destruct (Z.leb_spec (2 ^ 31) x); lia.
Qed.

Lemma lowBits_range (c : Z) : 0 <= lowBits c < 32.
Proof. unfold lowBits. apply (land_mask_bounds _ 5). lia. Qed.

(** Bits below [2 ^ n] and a multiple of [2 ^ n] do not overlap, so
    their bitwise or is their sum. *)
Lemma lor_disjoint (r x n : Z) :
  0 <= n -> 0 <= r < 2 ^ n -> Z.lor r (Z.shiftl x n) = r + x * 2 ^ n.
Proof.
  intros Hn Hr. rewrite <- Z.shiftl_mul_pow2 by assumption.
  rewrite <- Z.add_lor_land.
  assert (Hland : Z.land r (Z.shiftl x n) = 0).
  { apply Z.bits_inj'. intros k Hk. rewrite Z.land_spec, Z.bits_0.
    destruct (Z.lt_ge_cases k n) as [Hlt|Hge].
    - rewrite (Z.shiftl_spec_low x n k Hlt). apply andb_false_r.
    - assert (Hrk : Z.testbit r k = false).
      { destruct (Z.eq_dec r 0) as [->|Hr0]; [apply Z.bits_0|].
        apply Z.bits_above_log2; [lia|].
        apply Z.lt_le_trans with n; [|assumption].
        apply Z.log2_lt_pow2; lia. }
      now rewrite Hrk. }
  rewrite Hland. lia.
Qed.

(** One symbol added to an integer in progress. *)
Lemma varintStep_value (r shift : Z) (res : list Z) (c : Z) :
  0 <= shift <= 25 -> 0 <= r < 2 ^ shift ->
  varintStep (mkVarint r shift res) c =
  if continuationBit c
  then mkVarint (r + lowBits c * 2 ^ shift) (shift + 5) res
  else mkVarint 0 0 (res ++ [r + lowBits c * 2 ^ shift]).
Proof.
  intros Hs Hr. unfold varintStep, continuationBit. cbn [vs_result vs_shift vs_resList].
  fold (lowBits c). pose proof (lowBits_range c) as Hl.
  assert (Hpow : 2 ^ shift <= 2 ^ 25) by (apply Z.pow_le_mono_r; lia).
  assert (Hval : or32 r (shl32 (lowBits c) shift) = r + lowBits c * 2 ^ shift).
  { unfold or32, shl32, ToUint32.
    rewrite (ToInt32_small (lowBits c)) by lia.
    rewrite (Z.mod_small shift (2 ^ 32)) by lia. rewrite (Z.mod_small shift 32) by lia.
    assert (Hx : 0 <= Z.shiftl (lowBits c) shift < 2 ^ 30).
    { rewrite Z.shiftl_mul_pow2 by lia. change (2 ^ 30) with (32 * 2 ^ 25). nia. }
    rewrite !(ToInt32_small (Z.shiftl (lowBits c) shift)) by lia.
    rewrite (ToInt32_small r) by lia.
    apply lor_disjoint; lia. }
  rewrite Hval. now destruct (Z.land (int32_of (decodeChar c)) 32 =? 0).
Qed.

(** The symbols of one integer, read from any state between integers. *)
Lemma varint_group (cs : jsstring) :
  forall (c r shift : Z) (res : list Z),
  Forall (fun x => continuationBit x = true) cs ->
  continuationBit c = false ->
  0 <= shift -> shift + 5 * Z.of_nat (length cs) <= 25 ->
  0 <= r < 2 ^ shift ->
  fold_left varintStep (cs ++ [c]) (mkVarint r shift res)
  = mkVarint 0 0 (res ++ [r + groupValue (cs ++ [c]) * 2 ^ shift]).
Proof.
  induction cs as [|c0 cs IH]; intros c r shift res Hall Hc Hs Hlen Hr.
  - cbn [app fold_left groupValue]. rewrite varintStep_value by (cbn in Hlen; lia).
    rewrite Hc. do 3 f_equal. lia.
  - inversion Hall as [|? ? Hc0 Hcs]; subst.
    cbn [length] in Hlen. cbn [app fold_left groupValue].
    rewrite varintStep_value by lia. rewrite Hc0.
    pose proof (lowBits_range c0) as Hl.
    rewrite IH; try assumption; try lia.
    + do 3 f_equal. rewrite Z.pow_add_r by lia. change (2 ^ 5) with 32. ring.
    + rewrite Z.pow_add_r by lia. change (2 ^ 5) with 32. nia.
Qed.

(** A stream of well-formed groups decodes to the integers the groups
    spell in base 32, least significant symbol first. *)
Theorem varint_stream_values (groups : list jsstring) :
  Forall wellFormedGroup groups ->
  decodeUnsignedValues (concat groups) = Ok (map groupValue groups).
Proof.
  intros Hall.
  assert (Hrun : forall res,
            fold_left varintStep (concat groups) (mkVarint 0 0 res)
            = mkVarint 0 0 (res ++ map groupValue groups)).
  { induction Hall as [|g gs Hg Hgs IH]; intros res.
    - cbn. now rewrite app_nil_r.
    - destruct Hg as (cs & c & -> & Hcs & Hc & Hlen).
      cbn [concat map]. rewrite fold_left_app.
      rewrite length_app in Hlen. cbn [length] in Hlen.
      rewrite (varint_group cs c 0 0 res Hcs Hc) by (cbn; lia).
      rewrite IH, <- app_assoc. cbn [app]. do 3 f_equal. cbn. lia. }
  unfold decodeUnsignedValues, varintRun. rewrite Hrun. reflexivity.
Qed.

Lemma varint_stream_values_witness :
  decodeUnsignedValues (concat [lit "B"; lit "A"; lit "2F"; lit "A"])
  = Ok (map groupValue [lit "B"; lit "A"; lit "2F"; lit "A"]).
Proof.
  apply (varint_stream_values [lit "B"; lit "A"; lit "2F"; lit "A"]).
  repeat constructor.
  - exists [], 66. repeat split; [constructor|cbn; lia].
  - exists [], 65. repeat split; [constructor|cbn; lia].
  - exists [50], 70. repeat split; [repeat constructor|cbn; lia].
  - exists [], 65. repeat split; [constructor|cbn; lia].
Defined.

Lemma land_one (x : Z) : Z.land x 1 = x mod 2.
Proof. exact (Z.land_ones x 1 ltac:(lia)). Qed.

(** The decoder's [toSigned] undoes the mapping of signed to unsigned
    values that the manual encoder applies, for every value of at most 31
    bits. *)
Theorem toSigned_zigzag (value : Z) :
  APIManager.encodeSignedVarintHERE value = APIManager.encodeUnsignedVarintHERE (zigzag value)
  /\ (- 2 ^ 30 <= value < 2 ^ 30 ->
      0 <= zigzag value < 2 ^ 31 /\ toSigned (Some (zigzag value)) = value).
Proof.
  split; [reflexivity|]. intros Hv. unfold zigzag, toSigned, int32_of.
  destruct (Z.ltb_spec value 0) as [Hneg|Hpos].
  - assert (Hz : or32 (shl32 (- value - 1) 1) 1 = 2 * (- value - 1) + 1).
    { unfold or32, shl32, ToUint32. change (1 mod 2 ^ 32 mod 32) with 1.
      rewrite (ToInt32_small (- value - 1)) by lia.
      rewrite Z.shiftl_mul_pow2 by lia. change (2 ^ 1) with 2.
      rewrite (ToInt32_small ((- value - 1) * 2)) by lia.
      rewrite (ToInt32_small ((- value - 1) * 2)) by lia.
      rewrite (ToInt32_small 1) by lia.
      replace ((- value - 1) * 2) with (Z.shiftl (- value - 1) 1)
        by (rewrite Z.shiftl_mul_pow2; lia).
      rewrite Z.lor_comm, (lor_disjoint 1 (- value - 1) 1) by lia. lia. }
    rewrite Hz. split; [lia|].
    rewrite (ToInt32_small (2 * (- value - 1) + 1)) by lia.
    assert (Hodd : Z.land (2 * (- value - 1) + 1) 1 = 1).
    { rewrite land_one. Z.to_euclidean_division_equations. lia. }
    rewrite Hodd. cbn [Z.eqb].
    rewrite Z.shiftr_div_pow2 by lia. unfold Z.lnot. change (2 ^ 1) with 2.
    Z.to_euclidean_division_equations. lia.
  - assert (Hz : shl32 value 1 = 2 * value).
    { unfold shl32, ToUint32. change (1 mod 2 ^ 32 mod 32) with 1.
      rewrite (ToInt32_small value) by lia.
      rewrite Z.shiftl_mul_pow2 by lia. change (2 ^ 1) with 2.
      rewrite (ToInt32_small (value * 2)) by lia. lia. }
    rewrite Hz. split; [lia|].
    rewrite (ToInt32_small (2 * value)) by lia.
    assert (Heven : Z.land (2 * value) 1 = 0).
    { rewrite land_one. Z.to_euclidean_division_equations. lia. }
    rewrite Heven. cbn [Z.eqb].
    rewrite Z.shiftr_div_pow2 by lia. change (2 ^ 1) with 2.
    Z.to_euclidean_division_equations. lia.
Qed.

Lemma toSigned_zigzag_witness :
  0 <= zigzag (-5250000) < 2 ^ 31 /\ toSigned (Some (zigzag (-5250000))) = -5250000.
Proof. apply (proj2 (toSigned_zigzag (-5250000))). lia. Defined.

End VarintValues.

Section DecodeSuccess.

Variables (decoder : list Z) (td factorDegree factorZ : Z).

Let step : nat := if td =? 0 then 2%nat else 3%nat.

Lemma loopBody_trace (st : LoopState) :
  exists c,
    ls_res (loopBody decoder td factorDegree factorZ st) = ls_res st ++ [c]
    /\ length c = step.
Proof.
  unfold loopBody, step. destruct (td =? 0); cbn [ls_res]; eexists; split; reflexivity.
Qed.

(** The loop appends one coordinate of [step] components per iteration,
    and its last iteration starts inside the array. *)
Lemma decodeLoop_trace (fuel : nat) :
  forall st,
  exists (k : nat) (new : list Coordinate),
    ls_i (decodeLoop fuel decoder td factorDegree factorZ st) = (ls_i st + k * step)%nat
    /\ ls_res (decodeLoop fuel decoder td factorDegree factorZ st) = ls_res st ++ new
    /\ length new = k
    /\ Forall (fun c => length c = step) new
    /\ (k = 0%nat
        \/ (ls_i (decodeLoop fuel decoder td factorDegree factorZ st)
            < length decoder + step)%nat).
Proof.
  induction fuel as [|fuel IH]; intros st; cbn [decodeLoop].
  - exists 0%nat, []. rewrite app_nil_r. repeat split; auto; lia.
  - destruct (Nat.ltb_spec (ls_i st) (length decoder)) as [Hlt|Hge].
    + destruct (IH (loopBody decoder td factorDegree factorZ st))
        as (k & new & Hi & Hres & Hlen & Hall & Hlast).
      destruct (loopBody_trace st) as (c & Hc & Hclen).
      rewrite loopBody_index in Hi. fold step in Hi.
      exists (S k), (c :: new). rewrite Hi, Hres, Hc, <- app_assoc.
      repeat split; [lia|cbn; lia|now constructor|].
      right. destruct Hlast as [->|Hlast]; [|rewrite Hi in Hlast; lia]. lia.
    + exists 0%nat, []. rewrite app_nil_r. repeat split; auto; lia.
Qed.

End DecodeSuccess.

(** Decoding an integer stream succeeds exactly when its first integer is
    the format version 1, there are at least two integers, and the rest
    are whole groups; it then returns one coordinate per group, each with
    as many components as the group has integers. *)
Theorem decode_success_criterion (decoder : list Z) :
  ((exists coords, decodeIntegers decoder = Ok coords) <->
   (decoder !! 0%nat = Some 1 /\ (2 <= length decoder)%nat
    /\ ((length decoder - 2) mod groupSize decoder)%nat = 0%nat))
  /\ (forall coords,
        decodeIntegers decoder = Ok coords ->
        (length coords * groupSize decoder)%nat = (length decoder - 2)%nat
        /\ Forall (fun c => length c = groupSize decoder) coords).
Proof.
  assert (Hshape : forall coords, decodeIntegers decoder = Ok coords ->
            decoder !! 0%nat = Some 1 /\ (2 <= length decoder)%nat
            /\ (length coords * groupSize decoder)%nat = (length decoder - 2)%nat
            /\ Forall (fun c => length c = groupSize decoder) coords).
  { intros coords Hok. pose proof (decodeIntegers_version _ _ Hok) as Hv.
    rewrite (decodeIntegers_valid_header _ Hv) in Hok. cbv zeta in Hok.
    match type of Hok with context [decodeLoop ?f ?d ?t ?a ?b ?st] =>
      destruct (decodeLoop_trace d t a b f st) as (k & new & Hi & Hres & Hlen & Hall & _)
    end.
    destruct (decide _) as [Heq|]; [|discriminate]. injection Hok as <-.
    rewrite Heq in Hi. cbn [ls_i ls_res app] in Hi, Hres. rewrite Hres.
    unfold groupSize. repeat split; [assumption|lia|lia|exact Hall]. }
  split; [split|].
  - intros [coords Hok]. destruct (Hshape coords Hok) as (Hv & Hn & Hlen & _).
    repeat split; [assumption..|].
    rewrite <- Hlen. apply Nat.Div0.mod_mul.
  - intros (Hv & Hn & Hmod). rewrite (decodeIntegers_valid_header _ Hv). cbv zeta.
    match goal with |- context [decodeLoop ?f ?d ?t ?a ?b ?st] =>
      pose proof (decodeLoop_trace d t a b f st) as Htr;
      pose proof (decodeIntegers_loop_exits d t a b) as Hexit;
      set (final := decodeLoop f d t a b st) in *
    end.
    destruct Htr as (k & new & Hi & _ & _ & _ & Hlast).
    destruct (decide _) as [Heq|Hne]; [eauto|exfalso; apply Hne].
    change (ls_i (mkLoop 2 0 0 0 [])) with 2%nat in Hi. unfold groupSize in Hmod.
    apply Nat.Div0.mod_divides in Hmod as [m Hm].
    set (g := if streamThirdDim decoder =? 0 then 2%nat else 3%nat) in *.
    assert (Hg : (2 <= g)%nat) by (subst g; destruct (_ =? 0); lia).
    destruct Hlast as [->|Hlast]; [lia|].
    assert (Hn' : length decoder = (2 + m * g)%nat) by lia.
    assert (Hkm : k = m).
    { destruct (Nat.lt_trichotomy k m) as [Hlt|[Heq|Hgt]]; [exfalso|assumption|exfalso].
      - pose proof (Nat.mul_le_mono_r (S k) m g Hlt) as Hle. cbn [Nat.mul] in Hle. lia.
      - pose proof (Nat.mul_le_mono_r (S m) k g Hgt) as Hle. cbn [Nat.mul] in Hle. lia. }
    subst k. lia.
  - intros coords Hok. destruct (Hshape coords Hok) as (_ & _ & Hlen & Hall). auto.
Qed.

Lemma decode_success_criterion_witness :
  (length [[(91 # 1)%Q; 0%Q]] * groupSize [1; 0; 182; 0]%Z)%nat
  = (length [1; 0; 182; 0]%Z - 2)%nat
  /\ Forall (fun c => length c = groupSize [1; 0; 182; 0]) [[(91 # 1)%Q; 0%Q]].
Proof.
  apply (proj2 (decode_success_criterion [1; 0; 182; 0]) [[(91 # 1)%Q; 0%Q]]).
  vm_compute. reflexivity.
Defined.

(** ** The route manager's polyline decoding *)

Section RoutePolyline.

Import RouteManager.

Lemma qgtb_false_of_le (a b : Q) : (a <= b)%Q -> WeatherManager.Qgtb a b = false.
Proof.
  intros H. unfold WeatherManager.Qgtb. apply Qle_bool_iff in H. now rewrite H.
Qed.

Lemma keepCoordinate_cases (acc : list Coordinate) (c : Coordinate) :
  keepCoordinate acc c = acc
  \/ (keepCoordinate acc c = acc ++ [latLng c] /\ validPair (latLng c)).
Proof.
  unfold keepCoordinate. destruct c as [|lat [|lng rest]]; [now left..|].
  destruct (WeatherManager.Qgtb (inject_Z (-90)) lat) eqn:H1; [now left|].
  destruct (WeatherManager.Qgtb lat (inject_Z 90)) eqn:H2; [now left|].
  destruct (WeatherManager.Qgtb (inject_Z (-180)) lng) eqn:H3; [now left|].
  destruct (WeatherManager.Qgtb lng (inject_Z 180)) eqn:H4; [now left|].
  right. cbn [orb]. split; [reflexivity|].
  apply qgtb_false in H1, H2, H3, H4. repeat split; assumption.
Qed.

Lemma keepCoordinate_valid (acc : list Coordinate) (c : Coordinate) :
  validPair c -> keepCoordinate acc c = acc ++ [c].
Proof.
  intros [Hlen Hb]. destruct c as [|lat [|lng [|? ?]]]; try discriminate Hlen.
  destruct Hb as [[H1 H2] [H3 H4]]. unfold keepCoordinate.
  now rewrite !qgtb_false_of_le by assumption.
Qed.

Lemma keep_fold (coordinates : list Coordinate) :
  forall acc,
  exists kept,
    fold_left keepCoordinate coordinates acc = acc ++ kept
    /\ Forall validPair kept
    /\ sublist kept (map latLng coordinates).
Proof.
  induction coordinates as [|c cs IH]; intros acc; cbn [fold_left map].
  - exists []. rewrite app_nil_r. repeat split; constructor.
  - destruct (keepCoordinate_cases acc c) as [->|[-> Hv]].
    + destruct (IH acc) as (kept & Heq & Hall & Hsub).
      exists kept. repeat split; [assumption..|]. now apply sublist_cons.
    + destruct (IH (acc ++ [latLng c])) as (kept & Heq & Hall & Hsub).
      exists (latLng c :: kept). rewrite Heq, <- app_assoc.
      repeat split; [now constructor|]. now apply sublist_skip.
Qed.

Lemma keep_fold_valid (coordinates : list Coordinate) :
  Forall validPair coordinates ->
  forall acc, fold_left keepCoordinate coordinates acc = acc ++ coordinates.
Proof.
  induction 1 as [|c cs Hc Hcs IH]; intros acc; cbn [fold_left].
  - now rewrite app_nil_r.
  - rewrite (keepCoordinate_valid acc c Hc), IH, <- app_assoc. reflexivity.
Qed.

Lemma validateAndFixCoordinates_kept (coordinates valid : list Coordinate) :
  validateAndFixCoordinates coordinates = inr valid ->
  valid <> [] /\ Forall validPair valid /\ sublist valid (map latLng coordinates).
Proof.
  unfold validateAndFixCoordinates.
  destruct coordinates as [|c cs]; [discriminate|].
  destruct (keep_fold (c :: cs) []) as (kept & Heq & Hall & Hsub).
  rewrite Heq. cbn [app]. destruct kept as [|k kept]; [discriminate|].
  intros [= <-]. repeat split; [discriminate|assumption..].
Qed.

(** Validation keeps, in order, the (lat, lng) part of the coordinates
    that lie inside the geographic bounds; what it returns is never empty,
    and valid input comes back unchanged, so validating twice is the same
    as validating once. *)
Theorem validateAndFixCoordinates_valid (coordinates valid : list Coordinate) :
  validateAndFixCoordinates coordinates = inr valid ->
  valid <> []
  /\ Forall validPair valid
  /\ sublist valid (map latLng coordinates)
  /\ validateAndFixCoordinates valid = inr valid.
Proof.
  intros Hv.
  destruct (validateAndFixCoordinates_kept coordinates valid Hv) as (Hne & Hall & Hsub).
  repeat split; [assumption..|].
  destruct valid as [|k kept]; [congruence|].
  unfold validateAndFixCoordinates. now rewrite (keep_fold_valid _ Hall []).
Qed.

Lemma validateAndFixCoordinates_valid_witness :
  validateAndFixCoordinates [[(52 # 1)%Q; (13 # 1)%Q]] = inr [[(52 # 1)%Q; (13 # 1)%Q]].
Proof.
  apply (validateAndFixCoordinates_valid
           [[(52 # 1)%Q; (13 # 1)%Q; (7 # 1)%Q]; [(91 # 1)%Q; 0%Q]]
           [[(52 # 1)%Q; (13 # 1)%Q]]).
  vm_compute. reflexivity.
Defined.

(** The route manager's [decodePolyline] never throws: it returns [null]
    when the string is blank, when the polyline decoder throws, and when no
    decoded coordinate is inside the geographic bounds; otherwise it
    returns a non-empty list of in-bounds (lat, lng) pairs, taken in order
    from what the polyline decoder returned. *)
Theorem route_polyline_in_bounds (polyline : jsstring) :
  (forall coords,
     decodePolyline polyline = Some coords ->
     coords <> []
     /\ Forall validPair coords
     /\ exists decoded,
          FlexPolylineDecoder.decodePolyline polyline = Ok decoded
          /\ sublist coords (map latLng decoded))
  /\ (forall e, FlexPolylineDecoder.decodePolyline polyline = Throw e ->
               decodePolyline polyline = None)
  /\ (forall decoded,
        FlexPolylineDecoder.decodePolyline polyline = Ok decoded ->
        Forall (fun c => ~ validPair (latLng c)) decoded ->
        decodePolyline polyline = None)
  /\ (trim polyline = [] -> decodePolyline polyline = None).
Proof.
  unfold decodePolyline, FlexPolylineDecoder.decode. split; [|split; [|split]];
    [| | |now intros ->].
  - intros coords. destruct (trim polyline); [discriminate|].
    destruct (FlexPolylineDecoder.decodePolyline polyline) as [[|c cs]|e];
      [discriminate| |discriminate].
    destruct (validateAndFixCoordinates (c :: cs)) as [err|valid] eqn:Hv; [discriminate|].
    intros [= <-]. apply validateAndFixCoordinates_kept in Hv as (Hne & Hall & Hsub).
    repeat split; [assumption..|]. exists (c :: cs). split; [reflexivity|assumption].
  - intros e ->. now destruct (trim polyline).
  - intros decoded -> Hnone. destruct (trim polyline); [reflexivity|].
    destruct decoded as [|c cs]; [reflexivity|].
    destruct (validateAndFixCoordinates (c :: cs)) as [err|valid] eqn:Hv; [reflexivity|].
    exfalso. apply validateAndFixCoordinates_kept in Hv as (Hne & Hall & Hsub).
    destruct valid as [|v valid]; [congruence|].
    inversion Hall as [|? ? Hvp _]; subst.
    assert (Hin : v ∈ map latLng (c :: cs)).
    { apply (sublist_subseteq _ _ Hsub). left. }
    apply list_elem_of_fmap in Hin as (c' & -> & Hc').
    rewrite Forall_forall in Hnone. exact (Hnone c' Hc' Hvp).
Qed.

Lemma route_polyline_in_bounds_witness :
  decodePolyline (lit "BA2FA") = None.
Proof.
  apply (proj1 (proj2 (proj2 (route_polyline_in_bounds (lit "BA2FA")))) [[(91 # 1)%Q; 0%Q]]).
  - vm_compute. reflexivity.
  - constructor; [|constructor]. intros [_ [[_ Hle] _]]. vm_compute in Hle. now apply Hle.
Defined.

End RoutePolyline.

(** ** Travel analysis *)

Section TravelAnalysis.

Import WeatherManager.

Lemma round_mean_bounds (total : Q) (n lo hi : Z) :
  0 < n ->
  (inject_Z (lo * n) <= total <= inject_Z (hi * n))%Q ->
  lo <= Math_round (total / inject_Z n)%Q <= hi.
Proof.
  intros Hn [Hlo Hhi].
  assert (Hnq : (0 < inject_Z n)%Q) by (change 0%Q with (inject_Z 0); now rewrite <- Zlt_Qlt).
  rewrite inject_Z_mult in Hlo, Hhi.
  apply Math_round_bounds.
  - now apply Qle_shift_div_l.
  - apply Qle_lt_trans with (inject_Z hi); [now apply Qle_shift_div_r|lra].
Qed.

Ltac stage_cases :=
  repeat match goal with
         | |- context [if ?b then _ else _] => destruct b
         | |- context [match ?o with Some _ => _ | None => _ end] => destruct o
         end;
  cbn [pointScore penalize pushRisk pushAlert]; unfold inject_Z; lra.

Lemma temperatureStage_le data idx st :
  (pointScore (temperatureStage data idx st) <= pointScore st)%Q.
Proof. unfold temperatureStage. stage_cases. Qed.

Lemma precipitationStage_le data idx st :
  (pointScore (precipitationStage data idx st) <= pointScore st)%Q.
Proof. unfold precipitationStage. stage_cases. Qed.

Lemma rainProbabilityStage_le data idx st :
  (pointScore (rainProbabilityStage data idx st) <= pointScore st)%Q.
Proof. unfold rainProbabilityStage. stage_cases. Qed.

Lemma windStage_le data idx st :
  (pointScore (windStage data idx st) <= pointScore st)%Q.
Proof. unfold windStage. stage_cases. Qed.

Lemma visibilityStage_le data idx st :
  (pointScore (visibilityStage data idx st) <= pointScore st)%Q.
Proof. unfold visibilityStage. stage_cases. Qed.

Lemma mixedModeStage_le data idx st :
  (pointScore (mixedModeStage data idx st) <= pointScore st)%Q.
Proof. unfold mixedModeStage. stage_cases. Qed.

Lemma humidityStage_le data idx st :
  (pointScore (humidityStage data idx st) <= pointScore st)%Q.
Proof. unfold humidityStage. stage_cases. Qed.

Lemma feelsLikeStage_le data st :
  (pointScore (feelsLikeStage data st) <= pointScore st)%Q.
Proof. unfold feelsLikeStage. stage_cases. Qed.

(** The callback only ever subtracts from the score of a point. *)
Lemma scorePoint_le data idx st :
  (pointScore (scorePoint data idx st) <= pointScore st)%Q.
Proof.
  unfold scorePoint.
  eapply Qle_trans; [apply feelsLikeStage_le|].
  eapply Qle_trans; [apply humidityStage_le|].
  eapply Qle_trans; [apply mixedModeStage_le|].
  eapply Qle_trans; [apply visibilityStage_le|].
  eapply Qle_trans; [apply windStage_le|].
  eapply Qle_trans; [apply rainProbabilityStage_le|].
  eapply Qle_trans; [apply precipitationStage_le|].
  apply temperatureStage_le.
Qed.

Lemma analyzePoint_total (st : AnalysisState) (data : TravelPoint) :
  pointCount (analyzePoint st data) = S (pointCount st)
  /\ (totalScore st <= totalScore (analyzePoint st data)
      <= totalScore st + inject_Z 100)%Q.
Proof.
  unfold analyzePoint. cbn [pointCount totalScore]. split; [reflexivity|].
  set (sc := scorePoint _ _ _).
  pose proof (scorePoint_le data (pointCount st)
                (mkScoring (inject_Z 100) (as_risks st) (as_alerts st) (as_mixed st))) as Hle.
  fold sc in Hle. cbn [pointScore] in Hle.
  pose proof (Q.le_max_l 0 (pointScore sc)) as H0.
  assert (Hmax : (Qmax 0 (pointScore sc) <= inject_Z 100)%Q).
  { apply Q.max_lub; [unfold inject_Z; lra|assumption]. }
  split; lra.
Qed.

Lemma analyze_fold (weatherData : list TravelPoint) :
  forall st,
  pointCount (fold_left analyzePoint weatherData st)
  = (pointCount st + length weatherData)%nat
  /\ (totalScore st <= totalScore (fold_left analyzePoint weatherData st)
      <= totalScore st + inject_Z (100 * Z.of_nat (length weatherData)))%Q.
Proof.
  induction weatherData as [|data rest IH]; intros st; cbn [fold_left length].
  - split; [lia|]. change (inject_Z (100 * Z.of_nat 0)) with 0%Q. lra.
  - destruct (IH (analyzePoint st data)) as [Hc Ht].
    destruct (analyzePoint_total st data) as [Hc1 Ht1].
    split; [lia|].
    replace (100 * Z.of_nat (S (length rest))) with (100 + 100 * Z.of_nat (length rest))
      by lia.
    rewrite inject_Z_plus. lra.
Qed.

(** The overall score of a non-empty report is an integer between 0 and
    100; for an empty report it is NaN, and the advice is then that of the
    worst band. *)
Theorem travel_score_range (weatherData : list TravelPoint) :
  (weatherData = [] ->
   overallScore (analyzeWeatherForTravel weatherData) = None
   /\ recommendations (analyzeWeatherForTravel weatherData)
      = ["Very poor conditions - strongly avoid travel"; "Wait for weather to improve"]%string)
  /\ (weatherData <> [] ->
      exists score,
        overallScore (analyzeWeatherForTravel weatherData) = Some score
        /\ 0 <= score <= 100).
Proof.
  split.
  - intros ->. split; reflexivity.
  - intros Hne. unfold analyzeWeatherForTravel. cbn [overallScore].
    destruct (analyze_fold weatherData (mkAnalysisState 0 0 [] [] [])) as [Hc Ht].
    cbn [pointCount totalScore] in Hc, Ht.
    destruct (pointCount (fold_left analyzePoint weatherData _)) as [|n] eqn:Hn.
    + destruct weatherData; [congruence|cbn in Hc; lia].
    + eexists. split; [reflexivity|].
      apply round_mean_bounds; [lia|].
      cbn [Nat.add] in Hc. rewrite <- Hc in Ht.
      change (inject_Z (0 * Z.of_nat (S n))) with 0%Q. split; lra.
Qed.

Lemma travel_score_range_witness :
  overallScore (analyzeWeatherForTravel []) = None
  /\ recommendations (analyzeWeatherForTravel [])
     = ["Very poor conditions - strongly avoid travel"; "Wait for weather to improve"]%string.
Proof. apply (proj1 (travel_score_range [])). reflexivity. Defined.

(** The first recommendation of the travel analysis is always the text
    that the route manager shows for the same score, NaN included. *)
Theorem recommendation_matches_description (weatherData : list TravelPoint) :
  head (recommendations (analyzeWeatherForTravel weatherData))
  = Some (RouteManager.getScoreDescription
            (overallScore (analyzeWeatherForTravel weatherData))).
Proof.
  unfold analyzeWeatherForTravel. cbn [recommendations overallScore].
  unfold recommendationsFor, RouteManager.getScoreDescription, RouteManager.scoreAtLeast.
  set (st := fold_left analyzePoint weatherData _).
  destruct (pointCount st) as [|n]; [reflexivity|].
  set (score := Math_round _). clearbody score.
  destruct (85 <=? score); [reflexivity|].
  destruct (70 <=? score); [reflexivity|].
  destruct (55 <=? score); [reflexivity|].
  destruct (40 <=? score); reflexivity.
Qed.

End TravelAnalysis.

Section BenignReport.

Import WeatherManager.

Ltac no_penalty :=
  repeat match goal with
         | |- context [Qgtb ?a ?b] =>
             rewrite (qgtb_false_of_le a b) by (unfold inject_Z in *; lra)
         end.

Lemma scorePoint_benign (data : TravelPoint) (idx : nat) (st : Scoring) :
  benign data ->
  pointScore (scorePoint data idx st) = pointScore st
  /\ sc_risks (scorePoint data idx st) = sc_risks st
  /\ sc_alerts (scorePoint data idx st) = sc_alerts st.
Proof.
  intros (Ht & Hp & Hr & Hw & Hv & Hh & Hf).
  unfold scorePoint, temperatureStage, precipitationStage, rainProbabilityStage.
  no_penalty.
  unfold windStage.
  rewrite (proj2 (Z.ltb_ge 25 _)) by lia. rewrite (proj2 (Z.ltb_ge 15 _)) by lia.
  assert (Hvis : visibilityStage data idx st = st).
  { unfold visibilityStage. destruct (visibility (tv_sample data)) as [v|]; [|reflexivity].
    specialize (Hv v eq_refl). now no_penalty. }
  rewrite Hvis.
  assert (Hhum : forall s, humidityStage data idx s = s).
  { intros s. unfold humidityStage. now no_penalty. }
  rewrite Hhum.
  assert (Hfeel : forall s, feelsLikeStage data s = s).
  { intros s. unfold feelsLikeStage.
    destruct (feelsLike (tv_sample data)) as [fl|]; [|reflexivity].
    now rewrite (qgtb_false_of_le _ _ (Hf fl eq_refl)). }
  rewrite Hfeel. unfold mixedModeStage. destruct (tv_isMixedMode data); repeat split.
Qed.

Lemma analyze_fold_benign (weatherData : list TravelPoint) :
  Forall benign weatherData ->
  forall st,
  (totalScore (fold_left analyzePoint weatherData st)
   == totalScore st + inject_Z (100 * Z.of_nat (length weatherData)))%Q
  /\ as_risks (fold_left analyzePoint weatherData st) = as_risks st
  /\ as_alerts (fold_left analyzePoint weatherData st) = as_alerts st.
Proof.
  induction 1 as [|data rest Hb Hrest IH]; intros st; cbn [fold_left length].
  - change (inject_Z (100 * Z.of_nat 0)) with 0%Q. repeat split. lra.
  - destruct (IH (analyzePoint st data)) as (Ht & Hr & Ha).
    rewrite Ht, Hr, Ha. unfold analyzePoint. cbn [totalScore as_risks as_alerts].
    destruct (scorePoint_benign data (pointCount st)
                (mkScoring (inject_Z 100) (as_risks st) (as_alerts st) (as_mixed st)) Hb)
      as (Hs & Hr' & Ha').
    rewrite Hs, Hr', Ha'. cbn [pointScore sc_risks sc_alerts].
    repeat split.
    rewrite (Q.max_r 0 (inject_Z 100)) by (unfold inject_Z; lra).
    replace (100 * Z.of_nat (S (length rest))) with (100 + 100 * Z.of_nat (length rest))
      by lia.
    rewrite inject_Z_plus. lra.
Qed.

(** A report whose points trigger no penalty gets the full score of 100,
    no risks, no alerts, and the best advice. *)
Theorem benign_report_full_score (weatherData : list TravelPoint) :
  weatherData <> [] ->
  Forall benign weatherData ->
  overallScore (analyzeWeatherForTravel weatherData) = Some 100
  /\ risks (analyzeWeatherForTravel weatherData) = []
  /\ alerts (analyzeWeatherForTravel weatherData) = []
  /\ head (recommendations (analyzeWeatherForTravel weatherData))
     = Some "Excellent conditions for travel"%string.
Proof.
  intros Hne Hall.
  assert (Hscore : overallScore (analyzeWeatherForTravel weatherData) = Some 100).
  { unfold analyzeWeatherForTravel. cbn [overallScore].
    destruct (analyze_fold weatherData (mkAnalysisState 0 0 [] [] [])) as [Hc _].
    destruct (analyze_fold_benign weatherData Hall (mkAnalysisState 0 0 [] [] []))
      as (Ht & _ & _).
    cbn [pointCount totalScore Nat.add] in Hc, Ht. rewrite Hc.
    destruct weatherData as [|d rest]; [congruence|]. cbn [length] in *.
    f_equal.
    assert (Hb : 100 <= Math_round
                   (totalScore (fold_left analyzePoint (d :: rest)
                                  (mkAnalysisState 0 0 [] [] []))
                    / inject_Z (Z.of_nat (S (length rest))))%Q <= 100).
    { apply round_mean_bounds; [lia|]. rewrite Ht. split; lra. }
    lia. }
  split; [exact Hscore|].
  destruct (analyze_fold_benign weatherData Hall (mkAnalysisState 0 0 [] [] []))
    as (_ & Hr & Ha).
  split; [exact Hr|]. split; [exact Ha|].
  unfold analyzeWeatherForTravel in Hscore |- *.
  cbn [overallScore recommendations] in Hscore |- *. rewrite Hscore. reflexivity.
Qed.

End BenignReport.

Lemma benign_report_full_score_witness :
  WeatherManager.overallScore
    (WeatherManager.analyzeWeatherForTravel
       [WeatherManager.mkTravelPoint
          (WeatherManager.formatHourlyData (Samples.entryAt Samples.T0 2)) None false None])
  = Some 100.
Proof.
  apply (benign_report_full_score
           [WeatherManager.mkTravelPoint
              (WeatherManager.formatHourlyData (Samples.entryAt Samples.T0 2)) None false None]).
  - discriminate.
  - constructor; [|constructor]. unfold benign. cbv zeta.
    repeat split; try (vm_compute; discriminate); try (intros ? [= <-]; vm_compute; discriminate);
      try discriminate.
Defined.

(** ** Overall score of segment weather *)

Section OverallScore.

Import RouteManager.

Lemma round_quotient_bounds (total : Q) (n lo hi : Z) :
  0 < n -> Z.abs lo < 2 ^ 53 -> Z.abs hi < 2 ^ 53 ->
  (inject_Z (lo * n) <= total <= inject_Z (hi * n))%Q ->
  lo <= Math_round (fdiv total (inject_Z n)) <= hi.
Proof.
  intros Hn Hlo Hhi [H1 H2].
  assert (Hnq : (0 < inject_Z n)%Q) by (change 0%Q with (inject_Z 0); now rewrite <- Zlt_Qlt).
  rewrite inject_Z_mult in H1, H2.
  destruct (round64_between (total / inject_Z n) lo hi Hlo Hhi) as [Ha Hb].
  { split; [now apply Qle_shift_div_l|now apply Qle_shift_div_r]. }
  apply Math_round_bounds; [exact Ha|]. unfold fdiv. lra.
Qed.

Lemma weatherScore_range (temp : Q) (weather : ScoreInput) :
  5 <= weatherScore temp weather <= 95.
Proof.
  unfold weatherScore.
  repeat match goal with
         | |- context [if ?b then _ else _] => destruct b
         | |- context [match ?o with Some _ => _ | None => _ end] => destruct o
         end; lia.
Qed.

Lemma addWeatherScore_fold (weatherData : list ScoreInput) :
  forall acc,
  let acc' := fold_left addWeatherScore weatherData acc in
  snd acc <= snd acc'
  /\ 5 * (snd acc' - snd acc) <= fst acc' - fst acc <= 95 * (snd acc' - snd acc)
  /\ ((exists w, w ∈ weatherData /\ si_temperature w <> None) -> snd acc < snd acc')
  /\ (Forall (fun w => si_temperature w = None) weatherData -> acc' = acc).
Proof.
  induction weatherData as [|w rest IH]; intros acc; cbn [fold_left]; cbv zeta.
  - repeat split; try lia. intros (w & Hw & _). inversion Hw.
  - specialize (IH (addWeatherScore acc w)). cbv zeta in IH.
    destruct IH as (Hv & Ht & Hsome & Hnone).
    unfold addWeatherScore in *.
    destruct (si_temperature w) as [temp|] eqn:Htemp.
    + pose proof (weatherScore_range temp w). cbn [fst snd] in *.
      repeat split; try lia.
      intros Hall. inversion Hall; subst. congruence.
    + repeat split; try lia.
      * intros (w' & Hw' & Hdef). apply Hsome. exists w'. split; [|assumption].
        apply elem_of_cons in Hw' as [->|Hin]; [congruence|assumption].
      * intros Hall. inversion Hall; subst. auto.
Qed.

(** The overall score of segment weather is 0 when no object has a
    temperature (in particular for an empty list); otherwise it lies
    between 5 and 95: the clamp to 0..100 in the code never takes
    effect. *)
Theorem overall_weather_score_range (weatherData : list ScoreInput) :
  (Forall (fun w => si_temperature w = None) weatherData ->
   calculateOverallWeatherScore weatherData = 0)
  /\ ((exists w, w ∈ weatherData /\ si_temperature w <> None) ->
      5 <= calculateOverallWeatherScore weatherData <= 95).
Proof.
  unfold calculateOverallWeatherScore.
  destruct (addWeatherScore_fold weatherData (0, 0)) as (Hv & Ht & Hsome & Hnone).
  cbv zeta in *. cbn [fst snd] in *. split.
  - intros Hall. destruct weatherData as [|w rest]; [reflexivity|].
    now rewrite (Hnone Hall).
  - intros Hex. specialize (Hsome Hex).
    destruct weatherData as [|w rest].
    { destruct Hex as (w & Hw & _). inversion Hw. }
    destruct (Z.ltb_spec 0 (snd (fold_left addWeatherScore (w :: rest) (0, 0)))); [|lia].
    apply round_quotient_bounds; [assumption|lia|lia|]. rewrite <- !Zle_Qle. lia.
Qed.

End OverallScore.

Lemma overall_weather_score_range_witness :
  5 <= RouteManager.calculateOverallWeatherScore
         [RouteManager.mkScoreInput (Some (inject_Z (-3))) (Some (inject_Z 30))
                                    (Some (inject_Z 90))] <= 95.
Proof.
  apply (proj2 (overall_weather_score_range
                  [RouteManager.mkScoreInput (Some (inject_Z (-3))) (Some (inject_Z 30))
                                             (Some (inject_Z 90))])).
  eexists. split; [left|discriminate].
Defined.

(** ** Further properties of the forecast selection *)

Section Selection.

Import WeatherManager.

Variable target : Z.

Let off (d : Day) : Z := Z.abs (target - d_dt d).

(** The search keeps the first entry of least distance among those seen. *)
Lemma closestDay_scan (ds : list Day) :
  forall (seen : list Day) (best : Day),
  (exists pre post,
     seen = pre ++ best :: post
     /\ Forall (fun x => off best < off x) pre
     /\ Forall (fun x => off best <= off x) post) ->
  exists pre post,
    seen ++ ds = pre ++ snd (fold_left (closerDay target) ds (off best, best)) :: post
    /\ Forall (fun x => off (snd (fold_left (closerDay target) ds (off best, best))) < off x)
              pre
    /\ Forall (fun x => off (snd (fold_left (closerDay target) ds (off best, best))) <= off x)
              post.
Proof.
  induction ds as [|d ds IH]; intros seen best (pre & post & Hseen & Hpre & Hpost).
  - cbn [fold_left snd]. exists pre, post. now rewrite app_nil_r.
  - cbn [fold_left].
    assert (Hstep : closerDay target (off best, best) d
                    = if off d <? off best then (off d, d) else (off best, best))
      by reflexivity.
    rewrite Hstep. clear Hstep.
    replace (seen ++ d :: ds) with ((seen ++ [d]) ++ ds) by now rewrite <- app_assoc.
    destruct (Z.ltb_spec (off d) (off best)) as [Hlt|Hge].
    + apply IH. exists seen, []. split; [reflexivity|]. split; [|constructor].
      subst seen. apply Forall_app. split; [|constructor].
      * eapply Forall_impl; [exact Hpre|]. cbn. intros; lia.
      * exact Hlt.
      * eapply Forall_impl; [exact Hpost|]. cbn. intros; lia.
    + apply IH. exists pre, (post ++ [d]). subst seen.
      rewrite <- app_assoc. split; [reflexivity|]. split; [assumption|].
      apply Forall_app. split; [assumption|]. constructor; [lia|constructor].
Qed.

Variable api : ApiResponse.

(** For a target beyond 48 hours and a non-empty [daily] array, the sample
    is built from the daily entry whose time stamp is nearest to the target;
    of several nearest entries the first one is taken. *)
Theorem nearest_daily_entry (d0 : Day) (ds : list Day) :
  daily api = Some (d0 :: ds) ->
  exists s pre best post,
    selectWeatherAfter48Hours api target = Ok s
    /\ d0 :: ds = pre ++ best :: post
    /\ timestamp s = d_dt best
    /\ temperature s = d_temp_day best
    /\ Forall (fun x => Z.abs (target - d_dt best) < Z.abs (target - d_dt x)) pre
    /\ Forall (fun x => Z.abs (target - d_dt best) <= Z.abs (target - d_dt x)) post.
Proof.
  intros Hd. unfold selectWeatherAfter48Hours. rewrite Hd.
  destruct (closestDay_scan ds [d0] d0) as (pre & post & Heq & Hpre & Hpost).
  { exists [], []. repeat split; constructor. }
  eexists. exists pre. eexists. exists post.
  split; [reflexivity|]. cbn [timestamp temperature].
  split; [exact Heq|]. repeat split; assumption.
Qed.

End Selection.

Lemma nearest_daily_entry_witness :
  exists s pre best post,
    WeatherManager.selectWeatherAfter48Hours Samples.dayPayload (Samples.T0 + 200000) = Ok s
    /\ [Samples.dayAt (Samples.T0 + 86400) 2; Samples.dayAt (Samples.T0 + 2 * 86400) 3;
        Samples.dayAt (Samples.T0 + 3 * 86400) 4] = pre ++ best :: post
    /\ WeatherManager.timestamp s = WeatherManager.d_dt best
    /\ WeatherManager.temperature s = WeatherManager.d_temp_day best
    /\ Forall (fun x => Z.abs (Samples.T0 + 200000 - WeatherManager.d_dt best)
                        < Z.abs (Samples.T0 + 200000 - WeatherManager.d_dt x)) pre
    /\ Forall (fun x => Z.abs (Samples.T0 + 200000 - WeatherManager.d_dt best)
                        <= Z.abs (Samples.T0 + 200000 - WeatherManager.d_dt x)) post.
Proof.
  apply (nearest_daily_entry (Samples.T0 + 200000) Samples.dayPayload
           (Samples.dayAt (Samples.T0 + 86400) 2)
           [Samples.dayAt (Samples.T0 + 2 * 86400) 3; Samples.dayAt (Samples.T0 + 3 * 86400) 4]).
  reflexivity.
Defined.

Section RainProbability.

Import WeatherManager.

Lemma minuteRainProbability_range (mins : list Minute) (minutelyIndex : Z) (precip : Q) :
  (0 <= minuteRainProbability mins minutelyIndex precip <= inject_Z 95)%Q
  /\ (Qgtb precip 0 = true ->
      (inject_Z 60 <= minuteRainProbability mins minutelyIndex precip)%Q).
Proof.
  unfold minuteRainProbability. cbv zeta.
  set (window := slice mins _ _).
  set (precipSum := fold_left _ window 0%Q).
  set (rainy := Z.of_nat (length (List.filter _ window))).
  assert (Hbase : forall (c : Z) (x : Q), 0 <= c < 2 ^ 53 -> (0 < x)%Q ->
            (inject_Z c <= fadd (inject_Z c) (fmul x (inject_Z 12)))%Q
            /\ (inject_Z c <= fadd (inject_Z c) (fmul x (inject_Z 15)))%Q).
  { intros c x Hc Hx.
    assert (H12 : (0 <= fmul x (inject_Z 12))%Q).
    { change 0%Q with (inject_Z 0). apply round64_lower; [lia|]. unfold inject_Z. lra. }
    assert (H15 : (0 <= fmul x (inject_Z 15))%Q).
    { change 0%Q with (inject_Z 0). apply round64_lower; [lia|]. unfold inject_Z. lra. }
    split; (apply round64_lower; [lia|lra]). }
  destruct (Qgtb precip 0) eqn:Hp.
  - apply qgtb_true in Hp.
    destruct (Hbase 60 precip ltac:(lia) Hp) as [_ H60].
    split; [split|intros _].
    + apply Q.min_glb; unfold inject_Z in *; lra.
    + apply Q.le_min_l.
    + apply Q.min_glb; unfold inject_Z in *; lra.
  - split; [|discriminate].
    destruct (Qgtb precipSum 1) eqn:Hs.
    { apply qgtb_true in Hs.
      destruct (Hbase 25 precipSum ltac:(lia) ltac:(lra)) as [H25 _].
      split.
      - apply Q.min_glb; unfold inject_Z in *; lra.
      - eapply Qle_trans; [apply Q.le_min_l|]. unfold inject_Z. lra. }
    destruct (Z.ltb_spec 5 rainy).
    { split.
      - apply Q.min_glb; [unfold inject_Z; lra|].
        change 0%Q with (inject_Z 0). rewrite <- Zle_Qle. lia.
      - eapply Qle_trans; [apply Q.le_min_l|]. unfold inject_Z. lra. }
    destruct (Z.ltb_spec 0 rainy).
    { split.
      - apply Q.min_glb; [unfold inject_Z; lra|].
        change 0%Q with (inject_Z 0). rewrite <- Zle_Qle. lia.
      - eapply Qle_trans; [apply Q.le_min_l|]. unfold inject_Z. lra. }
    unfold inject_Z. split; lra.
Qed.

(** Rain probability of the two short-range bands.  In the instant band it
    is 90 when the current precipitation is positive and 0 otherwise; in
    the minute band it always lies between 0 and 95, and is at least 60 when
    precipitation is forecast for the target minute. *)
Theorem short_range_rain_probability (api : ApiResponse) (target : Z) (s : Sample) :
  selectWeatherUpTo48Hours api target = Ok s ->
  (target - e_dt (current api) < 300 ->
   rainProbability s = if Qgtb (precipitation s) 0 then inject_Z 90 else 0%Q)
  /\ (300 <= target - e_dt (current api) <= 3600 ->
      minutely api <> None ->
      (0 <= rainProbability s <= inject_Z 95)%Q
      /\ (Qgtb (precipitation s) 0 = true -> (inject_Z 60 <= rainProbability s)%Q)).
Proof.
  intros Hs. split.
  - intros Hd. rewrite (select_instant api target Hd) in Hs. injection Hs as <-.
    reflexivity.
  - intros Hd Hm. destruct (minutely api) as [mins|] eqn:Hmins; [|congruence].
    rewrite (select_minute api target mins Hd Hmins) in Hs. unfold minuteSample in Hs.
    destruct (targetMinuteOf mins _) as [m|]; [|discriminate]. injection Hs as <-.
    cbn [rainProbability precipitation]. apply minuteRainProbability_range.
Qed.

End RainProbability.

Lemma short_range_rain_probability_witness :
  WeatherManager.rainProbability (WeatherManager.instantSample (Samples.entryAt Samples.T0 1))
  = if WeatherManager.Qgtb
         (WeatherManager.precipitation
            (WeatherManager.instantSample (Samples.entryAt Samples.T0 1))) 0
    then inject_Z 90 else 0%Q.
Proof.
  apply (proj1 (short_range_rain_probability Samples.minutePayload Samples.T0
                  (WeatherManager.instantSample (Samples.entryAt Samples.T0 1)) eq_refl)).
  vm_compute. reflexivity.
Defined.

Section Fallbacks.

Import WeatherManager.

Variables (api : ApiResponse) (target clock : Z).

(** A payload whose [minutely] is an empty array, asked for a target 5 to
    60 minutes ahead, makes the selection throw, and so does a payload
    without [hourly] once the hour band is reached; the lookup then returns
    the synthetic sample although the fetch succeeded. *)
Theorem incomplete_payload_gives_demo_sample :
  (300 <= target - e_dt (current api) <= 3600 /\ minutely api = Some []
   \/ (3600 < target - e_dt (current api) <= 3600 * 48 /\ hourly api = None)) ->
  selectWeatherUpTo48Hours api target = Throw TypeError
  /\ getWeatherAtPoint (Response true (Some api)) (Some target) clock
     = generateDemoWeatherPoint clock.
Proof.
  intros Hcase.
  assert (Hthrow : selectWeatherUpTo48Hours api target = Throw TypeError).
  { destruct Hcase as [[Hd Hm]|[Hd Hh]].
    - rewrite (select_minute api target [] Hd Hm). reflexivity.
    - rewrite (select_hour api target) by (left; lia).
      unfold currentFallback. now rewrite Hh. }
  split; [exact Hthrow|].
  apply (getWeatherAtPoint_catch _ _ _ TypeError). cbn [fetchAndSelect negb].
  destruct (Z.leb_spec (target - e_dt (current api)) (3600 * 48)); [exact Hthrow|].
  destruct Hcase as [[Hd _]|[Hd _]]; lia.
Qed.

(** With [hourly] present and [minutely] not an empty array, a successful
    fetch always yields a sample selected from the payload, for every
    target time, and no random number is drawn. *)
Theorem complete_payload_gives_real_sample (rnd : nat -> Q) (n : nat) (hs : list Entry) :
  hourly api = Some hs ->
  minutely api <> Some [] ->
  exists s,
    fetchAndSelect (Response true (Some api)) target = Ok s
    /\ getWeatherAtPoint (Response true (Some api)) (Some target) clock rnd n = (s, n).
Proof.
  intros Hh Hm.
  assert (Hfb : exists s, currentFallback api = Ok s).
  { unfold currentFallback. rewrite Hh. eauto. }
  assert (Hsel : exists s, fetchAndSelect (Response true (Some api)) target = Ok s).
  { cbn [fetchAndSelect negb].
    destruct (target - e_dt (current api) <=? 3600 * 48).
    - unfold selectWeatherUpTo48Hours.
      destruct (_ <? 300); [eauto|].
      destruct (if _ && _ then minutely api else None) as [mins|] eqn:Hgate.
      + assert (Hmins : minutely api = Some mins) by (destruct (_ && _); congruence).
        unfold minuteSample, targetMinuteOf.
        destruct mins as [|m0 mins]; [congruence|].
        destruct ((m0 :: mins) !! _); cbn [lookup list_lookup]; eauto.
      + rewrite Hh. destruct hs as [|h hs']; [exact Hfb|].
        destruct (chooseHour _ _); [eauto|exact Hfb].
    - destruct (3600 * 48 <? _).
      + unfold selectWeatherAfter48Hours.
        destruct (daily api) as [[|d0 ds]|]; [exact Hfb|eauto|exact Hfb].
      + destruct Hfb as [s Hs]. rewrite Hs. cbn [bind]. eauto. }
  destruct Hsel as [s Hs]. exists s. split; [exact Hs|].
  unfold getWeatherAtPoint. now rewrite Hs.
Qed.

End Fallbacks.

Lemma incomplete_payload_gives_demo_sample_witness :
  WeatherManager.selectWeatherUpTo48Hours
    (WeatherManager.mkApi (Samples.entryAt Samples.T0 1) (Some [])
                          (Some [Samples.entryAt Samples.T0 1]) None)
    (Samples.T0 + 600)
  = Throw TypeError.
Proof.
  apply (incomplete_payload_gives_demo_sample
           (WeatherManager.mkApi (Samples.entryAt Samples.T0 1) (Some [])
                                 (Some [Samples.entryAt Samples.T0 1]) None)
           (Samples.T0 + 600) 0).
  left. split; [vm_compute; split; discriminate|reflexivity].
Defined.

Lemma complete_payload_gives_real_sample_witness :
  exists s,
    WeatherManager.fetchAndSelect
      (WeatherManager.Response true (Some Samples.hourPayload)) (Samples.T0 + 9000) = Ok s
    /\ WeatherManager.getWeatherAtPoint
         (WeatherManager.Response true (Some Samples.hourPayload)) (Some (Samples.T0 + 9000))
         0 (fun _ => 0%Q) 0%nat = (s, 0%nat).
Proof.
  apply (complete_payload_gives_real_sample Samples.hourPayload (Samples.T0 + 9000) 0
           (fun _ => 0%Q) 0%nat
           [Samples.entryAt (Samples.T0 + 7200) 2; Samples.entryAt (Samples.T0 + 10800) 3]).
  - reflexivity.
  - discriminate.
Defined.

(** ** Further properties of the waypoint timings *)

Section TimingFacts.

Import RouteManager.

Lemma Math_round_mono (a b : Q) : (a <= b)%Q -> Math_round a <= Math_round b.
Proof. intros H. unfold Math_round. apply Qfloor_resp_le. lra. Qed.

Lemma Math_round_comp (a b : Q) : (a == b)%Q -> Math_round a = Math_round b.
Proof. intros H. unfold Math_round. apply Qfloor_comp. now rewrite H. Qed.

Lemma Math_round_zero : Math_round 0 = 0.
Proof. reflexivity. Qed.

Variables (ws : list Waypoint) (totalDuration : Q) (departureTime : Z).

Let timed := calculateWaypointTimings ws (Some totalDuration) departureTime.

Lemma timed_lookup (i : nat) (tw : TimedWaypoint) :
  timed !! i = Some tw ->
  exists w,
    ws !! i = Some w
    /\ estimatedArrivalTime tw
       = departureTime / 1000 + Math_round (fmul totalDuration (progressOf ws i w)).
Proof.
  unfold timed. rewrite timings_lookup. destruct (ws !! i) as [w|]; [|discriminate].
  intros [= <-]. exists w. split; reflexivity.
Qed.

(** When every waypoint carries its cumulative distance, these do not
    decrease along the list, the last one is positive and the duration is
    not negative, the estimated arrival times do not decrease either. *)
Theorem arrival_times_monotone (L : Q) :
  (0 <= totalDuration)%Q ->
  lastDistancePositive ws = Some L ->
  (forall i j wi wj,
     (i <= j)%nat -> ws !! i = Some wi -> ws !! j = Some wj ->
     exists di dj, distance wi = Some di /\ distance wj = Some dj /\ (di <= dj)%Q) ->
  forall i j ti tj,
    (i <= j)%nat -> timed !! i = Some ti -> timed !! j = Some tj ->
    estimatedArrivalTime ti <= estimatedArrivalTime tj.
Proof.
  intros HT HL Hsorted i j ti tj Hij Hi Hj.
  apply timed_lookup in Hi as (wi & Hwi & ->). apply timed_lookup in Hj as (wj & Hwj & ->).
  destruct (Hsorted i j wi wj Hij Hwi Hwj) as (di & dj & Hdi & Hdj & Hle).
  unfold progressOf. rewrite Hdi, Hdj, HL.
  assert (HLpos : (0 < L)%Q).
  { unfold lastDistancePositive in HL. destruct (last ws) as [wl|]; [|discriminate].
    destruct (distance wl) as [d|]; [|discriminate].
    destruct (WeatherManager.Qgtb d 0) eqn:Hg; [|discriminate].
    injection HL as <-. now apply qgtb_true. }
  apply Z.add_le_mono_l, Math_round_mono. unfold fmul. apply round64_mono.
  assert (Hab : (fdiv di L <= fdiv dj L)%Q).
  { unfold fdiv. apply round64_mono. unfold Qdiv. apply Qmult_le_compat_r; [assumption|].
    apply Qlt_le_weak, Qinv_lt_0_compat. assumption. }
  set (a := fdiv di L) in *. set (b := fdiv dj L) in *. nra.
Qed.

Lemma timed_endpoints (first final : Waypoint) :
  ws !! 0%nat = Some first ->
  last ws = Some final ->
  timed !! 0%nat
  = Some (mkTimed first
            (departureTime / 1000 + Math_round (fmul totalDuration (progressOf ws 0 first)))
            (progressOf ws 0 first))
  /\ last timed
     = Some (mkTimed final
               (departureTime / 1000
                + Math_round (fmul totalDuration (progressOf ws (length ws - 1) final)))
               (progressOf ws (length ws - 1) final)).
Proof.
  intros Hfirst Hlast.
  assert (Hlen : (0 < length ws)%nat) by (apply lookup_lt_Some in Hfirst; lia).
  assert (Hlast' : ws !! (length ws - 1)%nat = Some final).
  { rewrite last_lookup in Hlast. now replace (length ws - 1)%nat with (pred (length ws)) by lia. }
  assert (Htl : last timed = timed !! (length ws - 1)%nat).
  { rewrite last_lookup. unfold timed, calculateWaypointTimings. rewrite length_imap.
    f_equal. lia. }
  rewrite Htl. unfold timed. rewrite !timings_lookup, Hfirst, Hlast'.
  split; reflexivity.
Qed.

Lemma round_scaled_zero (q : Q) :
  (q == 0)%Q ->
  departureTime / 1000 + Math_round (fmul totalDuration q) = departureTime / 1000.
Proof.
  intros Hq. rewrite (fmul_eq totalDuration q 0) by (rewrite Hq; ring).
  rewrite round64_0, Math_round_zero. lia.
Qed.

Lemma round_scaled_one (q : Q) :
  (q == 1)%Q -> Math_round (fmul totalDuration q) = Math_round (round64 totalDuration).
Proof.
  intros Hq. now rewrite (fmul_eq totalDuration q totalDuration) by (rewrite Hq; ring).
Qed.

Lemma progress_by_distance (first final : Waypoint) (L : Q) (i j : nat) :
  last ws = Some final ->
  distance first = Some 0%Q -> distance final = Some L -> (0 < L)%Q ->
  (progressOf ws i first == 0)%Q /\ (progressOf ws j final == 1)%Q.
Proof.
  intros Hlast Hd0 HdL HL. unfold progressOf.
  rewrite Hd0, HdL, (lastDistancePositive_some ws final L Hlast HdL HL). split.
  - rewrite (fdiv_eq 0 L 0) by (unfold Qdiv; ring). now rewrite round64_0.
  - rewrite (fdiv_eq L L 1) by (field; lra). now rewrite round64_1.
Qed.

(** The first waypoint is reached at the departure epoch and the last one
    at the departure epoch plus the rounded total duration: when their
    distances are 0 and the positive total, and also when distances are
    not usable and there are at least two waypoints.  The total duration
    enters as the double it is: [round64 totalDuration] is [totalDuration]
    whenever that is a double. *)
Theorem endpoints_arrival (first final : Waypoint) :
  ws !! 0%nat = Some first ->
  last ws = Some final ->
  ((distance first = Some 0%Q /\ exists L, distance final = Some L /\ (0 < L)%Q)
   \/ (lastDistancePositive ws = None /\ (2 <= length ws)%nat)) ->
  exists t0 tn,
    timed !! 0%nat = Some t0 /\ last timed = Some tn
    /\ estimatedArrivalTime t0 = departureTime / 1000
    /\ estimatedArrivalTime tn = departureTime / 1000 + Math_round (round64 totalDuration)
    /\ ((round64 totalDuration == totalDuration)%Q ->
        estimatedArrivalTime tn = departureTime / 1000 + Math_round totalDuration).
Proof.
  intros Hfirst Hlast Hcase.
  destruct (timed_endpoints first final Hfirst Hlast) as [Ht0 Htn].
  eexists. eexists. split; [exact Ht0|]. split; [exact Htn|]. cbn [estimatedArrivalTime].
  cut (departureTime / 1000 + Math_round (fmul totalDuration (progressOf ws 0 first))
       = departureTime / 1000
       /\ departureTime / 1000
          + Math_round (fmul totalDuration (progressOf ws (length ws - 1) final))
          = departureTime / 1000 + Math_round (round64 totalDuration)).
  { intros [H0 Hn]. split; [exact H0|]. split; [exact Hn|].
    intros Hdouble. rewrite Hn. f_equal. now apply Math_round_comp. }
  destruct Hcase as [(Hd0 & L & HdL & HL)|(Hnone & Hn)].
  - destruct (progress_by_distance first final L 0 (length ws - 1) Hlast Hd0 HdL HL)
      as [Hp0 Hp1].
    split; [now apply round_scaled_zero|]. f_equal. now apply round_scaled_one.
  - unfold progressOf. rewrite Hnone.
    replace (Z.max 1 (Z.of_nat (length ws) - 1)) with (Z.of_nat (length ws) - 1) by lia.
    replace (Z.of_nat (length ws - 1)) with (Z.of_nat (length ws) - 1) by lia.
    assert (Hq : (0 < inject_Z (Z.of_nat (length ws) - 1))%Q).
    { change 0%Q with (inject_Z 0). rewrite <- Zlt_Qlt. lia. }
    split.
    + assert (H0 : fdiv (inject_Z (Z.of_nat 0)) (inject_Z (Z.of_nat (length ws) - 1)) = 0%Q).
      { rewrite (fdiv_eq _ _ 0); [apply round64_0|].
        change (inject_Z (Z.of_nat 0)) with 0%Q. unfold Qdiv. ring. }
      destruct (distance first); rewrite H0; now apply round_scaled_zero.
    + f_equal.
      assert (H1 : fdiv (inject_Z (Z.of_nat (length ws) - 1))
                        (inject_Z (Z.of_nat (length ws) - 1)) = 1%Q).
      { rewrite (fdiv_eq _ _ 1); [apply round64_1|]. field. lra. }
      destruct (distance final); rewrite H1; now apply round_scaled_one.
Qed.

End TimingFacts.

Lemma arrival_times_monotone_witness :
  exists ti tj,
    RouteManager.calculateWaypointTimings
      [ RouteManager.mkWaypoint 52 13 0 (Some 0%Q) "origin";
        RouteManager.mkWaypoint 54 15 9 (Some (inject_Z 10000)) "destination" ]
      (Some (inject_Z 3600)) 1700000000123 !! 0%nat = Some ti
    /\ RouteManager.calculateWaypointTimings
         [ RouteManager.mkWaypoint 52 13 0 (Some 0%Q) "origin";
           RouteManager.mkWaypoint 54 15 9 (Some (inject_Z 10000)) "destination" ]
         (Some (inject_Z 3600)) 1700000000123 !! 1%nat = Some tj
    /\ RouteManager.estimatedArrivalTime ti <= RouteManager.estimatedArrivalTime tj.
Proof.
  eexists. eexists. split; [reflexivity|]. split; [reflexivity|].
  apply (arrival_times_monotone
           [ RouteManager.mkWaypoint 52 13 0 (Some 0%Q) "origin";
             RouteManager.mkWaypoint 54 15 9 (Some (inject_Z 10000)) "destination" ]
           (inject_Z 3600) 1700000000123 (inject_Z 10000)) with (i := 0%nat) (j := 1%nat).
  - unfold Qle; cbn; lia.
  - reflexivity.
  - intros i j wi wj Hij Hi Hj.
    destruct i as [|[|i]], j as [|[|j]]; try lia; try discriminate Hi; try discriminate Hj;
      injection Hi as <-; injection Hj as <-; eexists; eexists;
      (split; [reflexivity|split; [reflexivity|unfold Qle; cbn; lia]]).
  - lia.
  - reflexivity.
  - reflexivity.
Defined.

Lemma endpoints_arrival_witness :
  exists t0 tn,
    RouteManager.calculateWaypointTimings
      [ RouteManager.mkWaypoint 52 13 0 (Some 0%Q) "origin";
        RouteManager.mkWaypoint 54 15 9 (Some (inject_Z 10000)) "destination" ]
      (Some (inject_Z 3600)) 1700000000123 !! 0%nat = Some t0
    /\ last (RouteManager.calculateWaypointTimings
               [ RouteManager.mkWaypoint 52 13 0 (Some 0%Q) "origin";
                 RouteManager.mkWaypoint 54 15 9 (Some (inject_Z 10000)) "destination" ]
               (Some (inject_Z 3600)) 1700000000123) = Some tn
    /\ RouteManager.estimatedArrivalTime t0 = 1700000000123 / 1000
    /\ RouteManager.estimatedArrivalTime tn
       = 1700000000123 / 1000 + Math_round (inject_Z 3600).
Proof.
  destruct (endpoints_arrival
              [ RouteManager.mkWaypoint 52 13 0 (Some 0%Q) "origin";
                RouteManager.mkWaypoint 54 15 9 (Some (inject_Z 10000)) "destination" ]
              (inject_Z 3600) 1700000000123
              (RouteManager.mkWaypoint 52 13 0 (Some 0%Q) "origin")
              (RouteManager.mkWaypoint 54 15 9 (Some (inject_Z 10000)) "destination")
              eq_refl eq_refl)
    as (t0 & tn & Ht0 & Htn & H0 & _ & Hn).
  { left. split; [reflexivity|]. eexists. split; [reflexivity|]. reflexivity. }
  exists t0, tn. repeat split; try assumption. apply Hn. reflexivity.
Defined.

(** ** Waypoints of a single-mode route *)

Section ExtractionFacts.

Import RouteManager.

Variable calculateDistance : Q * Q -> Q * Q -> Q.

Local Abbreviation distFrom := (calculateDistanceFromStart calculateDistance).
Local Abbreviation extract := (extractWaypointsFromRouteSingleMode calculateDistance).

Lemma addLeg_fold_le (coordinates : list (Q * Q)) (legs : list nat) :
  (forall a b, 0 <= calculateDistance a b)%Q ->
  forall acc,
    round64 acc = acc ->
    (acc <= fold_left (addLeg calculateDistance coordinates) legs acc)%Q
    /\ round64 (fold_left (addLeg calculateDistance coordinates) legs acc)
       = fold_left (addLeg calculateDistance coordinates) legs acc.
Proof.
  intros Hpos. induction legs as [|i legs IH]; intros acc Hacc; cbn [fold_left];
    [split; [lra|exact Hacc]|].
  assert (Hstep : (acc <= addLeg calculateDistance coordinates acc i)%Q
                  /\ round64 (addLeg calculateDistance coordinates acc i)
                     = addLeg calculateDistance coordinates acc i).
  { unfold addLeg.
    destruct (coordinates !! i) as [a|], (coordinates !! S i) as [b|];
      try (split; [lra|exact Hacc]).
    split; [|apply round64_idem].
    apply Qle_trans with (round64 acc); [rewrite Hacc; lra|].
    apply round64_mono. pose proof (Hpos a b). lra. }
  destruct Hstep as [Hle Hd]. destruct (IH _ Hd) as [Hle' Hd'].
  split; [lra|exact Hd'].
Qed.

(** The distance from the start is 0 at the first coordinate, does not
    decrease with the index when no leg has a negative length, and stays
    the same past the last coordinate. *)
Theorem distance_from_start_monotone (coordinates : list (Q * Q)) (i j : Z) :
  (forall a b, 0 <= calculateDistance a b)%Q ->
  (i <= 0 -> calculateDistanceFromStart calculateDistance coordinates i = 0%Q)
  /\ (i <= j ->
      (calculateDistanceFromStart calculateDistance coordinates i
       <= calculateDistanceFromStart calculateDistance coordinates j)%Q)
  /\ (Z.of_nat (length coordinates) - 1 <= j ->
      calculateDistanceFromStart calculateDistance coordinates j
      = calculateDistanceFromStart calculateDistance coordinates
          (Z.of_nat (length coordinates) - 1)).
Proof.
  intros Hpos. unfold calculateDistanceFromStart. split; [|split].
  - intros Hi. replace (Z.to_nat (Z.min i _)) with 0%nat by lia. reflexivity.
  - intros Hij.
    set (n := Z.of_nat (length coordinates) - 1).
    replace (Z.to_nat (Z.min j n))
      with (Z.to_nat (Z.min i n) + (Z.to_nat (Z.min j n) - Z.to_nat (Z.min i n)))%nat by lia.
    rewrite seq_app, fold_left_app. apply addLeg_fold_le; [exact Hpos|].
    apply (addLeg_fold_le coordinates _ Hpos 0%Q round64_0).
  - intros Hj. f_equal. f_equal. lia.
Qed.

Lemma intermediateWaypoint_defined (coordinates : list (Q * Q)) (step i : Z) :
  coordinates <> [] -> 0 <= i -> 0 <= step ->
  exists w,
    intermediateWaypoint calculateDistance coordinates step i = Some w
    /\ 0 <= index w <= Z.of_nat (length coordinates) - 1
    /\ type w = "intermediate"%string.
Proof.
  intros Hne Hi Hs. unfold intermediateWaypoint. cbv zeta.
  assert (Hlen : (0 < length coordinates)%nat) by (destruct coordinates; [congruence|cbn; lia]).
  set (idx := Z.min (i * step) (Z.of_nat (length coordinates) - 1)).
  assert (Hidx : 0 <= idx <= Z.of_nat (length coordinates) - 1) by (subst idx; nia).
  destruct (coordinates !! Z.to_nat idx) as [c|] eqn:Hl.
  - eexists. split; [reflexivity|]. cbn [index type]. split; [assumption|reflexivity].
  - apply lookup_ge_None in Hl. lia.
Qed.

Lemma omap_all_defined {A B} (f : A -> option B) (P : B -> Prop) (l : list A) :
  (forall a, a ∈ l -> exists b, f a = Some b /\ P b) ->
  length (omap f l) = length l /\ Forall P (omap f l).
Proof.
  induction l as [|a l IH]; intros Hf; [split; [reflexivity|constructor]|].
  destruct (Hf a ltac:(left)) as (b & Hb & HP).
  destruct (IH (fun a' Hin => Hf a' (list_elem_of_further _ _ _ Hin))) as [Hlen Hall].
  cbn [omap list_omap]. rewrite Hb. cbn [length]. split; [now rewrite Hlen|now constructor].
Qed.

(** For a non-empty coordinate list the extraction returns exactly
    max(3, ceil(totalDistance / 1000)) waypoints: the origin at the first
    coordinate with distance 0, intermediate waypoints, and the destination
    at the last coordinate with the total distance; every waypoint index
    lies inside the coordinate list.  For an empty list it returns
    nothing. *)
Theorem extracted_waypoints_shape (coordinates : list (Q * Q)) (totalDistance : Q) :
  extract [] totalDistance = []
  /\ (forall first final,
        coordinates !! 0%nat = Some first ->
        last coordinates = Some final ->
        let waypoints := extract coordinates totalDistance in
        Z.of_nat (length waypoints) = Z.max 3 (Qceiling (totalDistance / inject_Z 1000))
        /\ waypoints !! 0%nat
           = Some (mkWaypoint (fst first) (snd first) 0 (Some 0%Q) "origin")
        /\ last waypoints
           = Some (mkWaypoint (fst final) (snd final) (Z.of_nat (length coordinates) - 1)
                              (Some totalDistance) "destination")
        /\ Forall (fun w => 0 <= index w <= Z.of_nat (length coordinates) - 1) waypoints).
Proof.
  split; [reflexivity|]. intros first final Hfirst Hlast waypoints. subst waypoints.
  unfold extractWaypointsFromRouteSingleMode.
  destruct coordinates as [|c0 cs] eqn:Hcs; [discriminate|]. rewrite <- Hcs in *.
  assert (Hc0 : c0 = first) by (subst coordinates; cbn in Hfirst; congruence). subst c0.
  rewrite Hlast. cbv zeta.
  set (numWaypoints := Z.max 3 (Qceiling (totalDistance / inject_Z 1000))).
  set (step := Z.max 1 (Z.of_nat (length coordinates) / (numWaypoints - 1))).
  assert (Hne : coordinates <> []) by (subst coordinates; discriminate).
  assert (Hlen : (0 < length coordinates)%nat) by (subst coordinates; cbn; lia).
  destruct (omap_all_defined
              (fun i => intermediateWaypoint calculateDistance coordinates step (Z.of_nat i))
              (fun w => 0 <= index w <= Z.of_nat (length coordinates) - 1)
              (seq 1 (Z.to_nat (numWaypoints - 2)))) as [Hmid Hall].
  { intros i _. destruct (intermediateWaypoint_defined coordinates step (Z.of_nat i) Hne)
      as (w & Hw & Hi & _); [lia|subst step; lia|]. eauto. }
  rewrite length_seq in Hmid.
  split; [|split; [|split]].
  - rewrite !length_app, Hmid. cbn [length]. subst numWaypoints. lia.
  - reflexivity.
  - rewrite app_assoc. apply last_snoc.
  - apply Forall_app. split; [|apply Forall_app; split].
    + constructor; [cbn [index]; lia|constructor].
    + exact Hall.
    + constructor; [cbn [index]; lia|constructor].
Qed.

Lemma extract_endpoints (coordinates : list (Q * Q)) (totalDistance : Q)
    (first final : Q * Q) :
  coordinates !! 0%nat = Some first ->
  last coordinates = Some final ->
  extract coordinates totalDistance !! 0%nat
  = Some (mkWaypoint (fst first) (snd first) 0 (Some 0%Q) "origin")
  /\ last (extract coordinates totalDistance)
     = Some (mkWaypoint (fst final) (snd final) (Z.of_nat (length coordinates) - 1)
                        (Some totalDistance) "destination").
Proof.
  intros Hfirst Hlast. unfold extractWaypointsFromRouteSingleMode.
  destruct coordinates as [|c0 cs] eqn:Hcs; [discriminate|]. rewrite <- Hcs in *.
  assert (Hc0 : c0 = first) by (subst coordinates; cbn in Hfirst; congruence). subst c0.
  rewrite Hlast. cbv zeta. split; [reflexivity|]. rewrite app_assoc. apply last_snoc.
Qed.

(** Timings of the extracted waypoints: with a positive total distance the
    origin is reached at the departure epoch and the destination at the
    departure epoch plus the rounded total duration.  The total duration
    enters as the double it is: [round64 totalDuration] is [totalDuration]
    whenever that is a double. *)
Theorem extracted_endpoints_arrival (coordinates : list (Q * Q))
    (totalDistance totalDuration : Q) (departureTime : Z) :
  coordinates <> [] ->
  (0 < totalDistance)%Q ->
  let timed := calculateWaypointTimings (extract coordinates totalDistance)
                 (Some totalDuration) departureTime in
  exists t0 tn,
    timed !! 0%nat = Some t0 /\ last timed = Some tn
    /\ type (base t0) = "origin"%string /\ type (base tn) = "destination"%string
    /\ estimatedArrivalTime t0 = departureTime / 1000
    /\ estimatedArrivalTime tn = departureTime / 1000 + Math_round (round64 totalDuration)
    /\ ((round64 totalDuration == totalDuration)%Q ->
        estimatedArrivalTime tn = departureTime / 1000 + Math_round totalDuration).
Proof.
  intros Hne Hpos timed. subst timed.
  destruct coordinates as [|c0 cs] eqn:Hcs; [congruence|]. rewrite <- Hcs in *.
  destruct (last coordinates) as [final|] eqn:Hlast;
    [|subst coordinates; rewrite last_cons in Hlast; destruct (last cs); discriminate].
  assert (Hfirst : coordinates !! 0%nat = Some c0) by now subst coordinates.
  destruct (extract_endpoints coordinates totalDistance c0 final Hfirst Hlast) as [Hw0 Hwn].
  destruct (timed_endpoints (extract coordinates totalDistance) totalDuration departureTime
              _ _ Hw0 Hwn) as [Ht0 Htn].
  destruct (progress_by_distance (extract coordinates totalDistance)
              (mkWaypoint (fst c0) (snd c0) 0 (Some 0%Q) "origin") _ totalDistance
              0 (length (extract coordinates totalDistance) - 1) Hwn eq_refl eq_refl Hpos)
    as [Hp0 Hp1].
  eexists. eexists. split; [exact Ht0|]. split; [exact Htn|].
  cbn [base type estimatedArrivalTime].
  split; [reflexivity|]. split; [reflexivity|].
  split; [now apply round_scaled_zero|].
  rewrite (round_scaled_one totalDuration _ Hp1). split; [reflexivity|].
  intros Hdouble. f_equal. now apply Math_round_comp.
Qed.

End ExtractionFacts.

Lemma distance_from_start_monotone_witness :
  (RouteManager.calculateDistanceFromStart (fun _ _ => 1%Q) [(0, 0); (1, 1); (2, 2)]%Q 1
   <= RouteManager.calculateDistanceFromStart (fun _ _ => 1%Q) [(0, 0); (1, 1); (2, 2)]%Q 2)%Q.
Proof.
  apply (distance_from_start_monotone (fun _ _ => 1%Q) [(0, 0); (1, 1); (2, 2)]%Q 1 2).
  - intros a b. unfold Qle; cbn; lia.
  - lia.
Defined.

Lemma extracted_waypoints_shape_witness :
  Z.of_nat (length (RouteManager.extractWaypointsFromRouteSingleMode (fun _ _ => 1%Q)
                      [(0, 0); (1, 1); (2, 2)]%Q (inject_Z 4200)))
  = Z.max 3 (Qceiling (inject_Z 4200 / inject_Z 1000)).
Proof.
  apply (proj2 (extracted_waypoints_shape (fun _ _ => 1%Q) [(0, 0); (1, 1); (2, 2)]%Q
                  (inject_Z 4200)) (0, 0)%Q (2, 2)%Q eq_refl eq_refl).
Defined.

Lemma extracted_endpoints_arrival_witness :
  exists t0 tn,
    RouteManager.calculateWaypointTimings
      (RouteManager.extractWaypointsFromRouteSingleMode (fun _ _ => 1%Q)
         [(0, 0); (1, 1); (2, 2)]%Q (inject_Z 4200))
      (Some (inject_Z 600)) 1700000000123 !! 0%nat = Some t0
    /\ last (RouteManager.calculateWaypointTimings
               (RouteManager.extractWaypointsFromRouteSingleMode (fun _ _ => 1%Q)
                  [(0, 0); (1, 1); (2, 2)]%Q (inject_Z 4200))
               (Some (inject_Z 600)) 1700000000123) = Some tn
    /\ RouteManager.type (RouteManager.base t0) = "origin"%string
    /\ RouteManager.type (RouteManager.base tn) = "destination"%string
    /\ RouteManager.estimatedArrivalTime t0 = 1700000000123 / 1000
    /\ RouteManager.estimatedArrivalTime tn = 1700000000123 / 1000 + Math_round (inject_Z 600).
Proof.
  destruct (extracted_endpoints_arrival (fun _ _ => 1%Q) [(0, 0); (1, 1); (2, 2)]%Q
              (inject_Z 4200) (inject_Z 600) 1700000000123)
    as (t0 & tn & Ht0 & Htn & Ho & Hd & H0 & _ & Hn); [discriminate|reflexivity|].
  exists t0, tn. repeat split; try assumption. apply Hn. reflexivity.
Defined.

(** ** Further properties of the deduplication *)

Section DedupFacts.

Import RouteManager.

Variable numberToString : Q -> jsstring.

Local Abbreviation key := (cleanLocationKey numberToString).
Local Abbreviation run := (dedupRun numberToString).
Local Abbreviation step := (dedupStep numberToString).

(** One step keeps the state or appends the waypoint. *)
Lemma dedupStep_cases (st : DedupState) (w : RoutePoint) :
  uniqueWaypoints (step st w) = uniqueWaypoints st
  \/ uniqueWaypoints (step st w) = uniqueWaypoints st ++ [w].
Proof.
  unfold dedupStep.
  repeat match goal with
         | |- context [if ?b then _ else _] => destruct b
         | |- context [match ?o with Some _ => _ | None => _ end] => destruct o
         end; cbn [uniqueWaypoints]; auto.
Qed.

Lemma dedupFold_sublist (ws : list RoutePoint) :
  forall st,
  exists kept,
    uniqueWaypoints (fold_left step ws st) = uniqueWaypoints st ++ kept
    /\ sublist kept ws.
Proof.
  induction ws as [|w ws IH]; intros st; cbn [fold_left].
  - exists []. rewrite app_nil_r. split; [reflexivity|constructor].
  - destruct (IH (step st w)) as (kept & Heq & Hsub).
    destruct (dedupStep_cases st w) as [Hs|Hs]; rewrite Heq, Hs.
    + exists kept. split; [reflexivity|now apply sublist_cons].
    + exists (w :: kept). rewrite <- app_assoc. split; [reflexivity|now apply sublist_skip].
Qed.

Lemma dedup_first_kept (w : RoutePoint) (ws : list RoutePoint) :
  exists rest, uniqueWaypoints (run (w :: ws)) = w :: rest.
Proof.
  unfold dedupRun. cbn [fold_left].
  assert (Hfirst : uniqueWaypoints (step (mkDedup [] ∅) w) = [w]).
  { unfold dedupStep. cbn [uniqueWaypoints seenLocations].
    destruct (isEndpoint w); [reflexivity|].
    rewrite bool_decide_eq_false_2 by apply not_elem_of_empty. reflexivity. }
  destruct (dedupFold_extends numberToString ws (step (mkDedup [] ∅) w)) as [more Hmore].
  rewrite Hmore, Hfirst. eauto.
Qed.

(** Deduplication returns a subsequence of the waypoints it is given,
    starting with the same first waypoint, and the counts it writes into
    the summary agree with the lists. *)
Theorem deduplication_result (weatherData : WeatherData) :
  let result := deduplicateWaypoints numberToString weatherData in
  sublist (waypoints result) (waypoints weatherData)
  /\ head (waypoints result) = head (waypoints weatherData)
  /\ (waypoints weatherData = [] -> result = weatherData)
  /\ (waypoints weatherData <> [] ->
      totalWaypoints (summary result) = length (waypoints result)
      /\ deduplicationApplied (summary result) = true
      /\ originalWaypointCount (summary result) = Some (length (waypoints weatherData))
      /\ exists removed,
           removedDuplicates (summary result) = Some removed
           /\ 0 <= removed
           /\ Z.of_nat (length (waypoints result)) + removed
              = Z.of_nat (length (waypoints weatherData))).
Proof.
  cbv zeta.
  destruct (dedupFold_sublist (waypoints weatherData) (mkDedup [] ∅)) as (kept & Heq & Hsub).
  cbn [uniqueWaypoints app] in Heq. fold (run (waypoints weatherData)) in Heq.
  pose proof (sublist_length _ _ Hsub) as Hlen.
  unfold deduplicateWaypoints.
  destruct (waypoints weatherData) as [|w ws] eqn:Hw.
  - rewrite Hw. split; [apply sublist_nil_l|]. split; [reflexivity|].
    split; [reflexivity|congruence].
  - cbn [waypoints summary totalWaypoints deduplicationApplied originalWaypointCount
         removedDuplicates]. rewrite Heq.
    split; [assumption|]. split.
    + destruct (dedup_first_kept w ws) as [rest Hrest]. rewrite Heq in Hrest.
      now rewrite Hrest.
    + split; [discriminate|]. intros _. repeat split.
      eexists. split; [reflexivity|]. cbn [length] in *. lia.
Qed.

(** What a step does, with the reason when it keeps the waypoint. *)
Lemma dedupStep_shape (st : DedupState) (w : RoutePoint) :
  step st w = st
  \/ (uniqueWaypoints (step st w) = uniqueWaypoints st ++ [w]
      /\ ((isEndpoint w = true /\ seenLocations (step st w) = seenLocations st)
          \/ (isEndpoint w = false /\ (key w ∉ seenLocations st)
              /\ seenLocations (step st w) = {[ key w ]} ∪ seenLocations st)
          \/ (isEndpoint w = false /\ (key w ∈ seenLocations st)
              /\ seenLocations (step st w) = seenLocations st
              /\ exists p,
                   List.find (fun wp => bool_decide (prevCleanKey wp = key w))
                             (uniqueWaypoints st) = Some p
                   /\ WeatherManager.Qgtb
                        (Qabs (fsub (distanceFromStart w) (distanceFromStart p)))
                        (inject_Z 2000) = true))).
Proof.
  unfold dedupStep. destruct (isEndpoint w) eqn:He.
  { right. split; [reflexivity|]. left. split; reflexivity. }
  destruct (bool_decide (key w ∈ seenLocations st)) eqn:Hseen.
  - apply bool_decide_eq_true in Hseen.
    destruct (List.find _ _) as [p|] eqn:Hp; [|now left].
    destruct (WeatherManager.Qgtb _ _) eqn:Hfar; [|now left].
    right. split; [reflexivity|]. right. right. repeat split; try assumption. eauto.
  - apply bool_decide_eq_false in Hseen.
    right. split; [reflexivity|]. right. left. repeat split; assumption.
Qed.

(** Running the deduplication on its own output removes nothing more. *)
Lemma dedupRun_fixpoint (ws : list RoutePoint) :
  uniqueWaypoints (run (uniqueWaypoints (run ws))) = uniqueWaypoints (run ws)
  /\ seenLocations (run (uniqueWaypoints (run ws))) ⊆ seenLocations (run ws).
Proof.
  induction ws as [|w pre IH] using rev_ind; [split; reflexivity|].
  destruct IH as [IHu IHs]. rewrite (dedupRun_snoc numberToString pre w).
  destruct (dedupStep_shape (run pre) w) as [Hsame|[Hu Hwhy]].
  { rewrite Hsame. split; assumption. }
  rewrite Hu, (dedupRun_snoc numberToString (uniqueWaypoints (run pre)) w).
  set (R := run (uniqueWaypoints (run pre))) in *.
  unfold dedupStep at 1 2. rewrite IHu.
  destruct Hwhy as [(He & Hs)|[(He & Hnew & Hs)|(He & Hold & Hs & p & Hp & Hfar)]];
    rewrite He, Hs.
  - cbn [uniqueWaypoints seenLocations]. split; [reflexivity|assumption].
  - rewrite bool_decide_eq_false_2 by (intros Hin; apply Hnew, IHs, Hin).
    cbn [uniqueWaypoints seenLocations]. split; [reflexivity|].
    apply union_mono_l, IHs.
  - destruct (bool_decide (key w ∈ seenLocations R)) eqn:Hin.
    + rewrite Hp, Hfar. cbn [uniqueWaypoints seenLocations]. split; [reflexivity|assumption].
    + cbn [uniqueWaypoints seenLocations]. split; [reflexivity|].
      apply union_least; [now apply singleton_subseteq_l|exact IHs].
Qed.

(** Deduplication is idempotent on the waypoint list: deduplicating the
    result again removes nothing more. *)
Theorem deduplication_idempotent (weatherData : WeatherData) :
  waypoints (deduplicateWaypoints numberToString
               (deduplicateWaypoints numberToString weatherData))
  = waypoints (deduplicateWaypoints numberToString weatherData).
Proof.
  assert (Hw : forall wd, waypoints (deduplicateWaypoints numberToString wd)
                          = uniqueWaypoints (run (waypoints wd))).
  { intros wd. unfold deduplicateWaypoints.
    destruct (waypoints wd) eqn:Hwd; [exact Hwd|reflexivity]. }
  rewrite (Hw (deduplicateWaypoints numberToString weatherData)), (Hw weatherData).
  apply dedupRun_fixpoint.
Qed.

End DedupFacts.

Lemma deduplication_result_witness :
  RouteManager.totalWaypoints
    (RouteManager.summary
       (RouteManager.deduplicateWaypoints Samples.showNumber
          (RouteManager.mkWeatherData Samples.townRoute
             (RouteManager.mkSummary 5 false None None))))
  = length (RouteManager.waypoints
              (RouteManager.deduplicateWaypoints Samples.showNumber
                 (RouteManager.mkWeatherData Samples.townRoute
                    (RouteManager.mkSummary 5 false None None)))).
Proof.
  apply (proj2 (proj2 (proj2 (deduplication_result Samples.showNumber
                                (RouteManager.mkWeatherData Samples.townRoute
                                   (RouteManager.mkSummary 5 false None None)))))).
  discriminate.
Defined.
